(** * Dewey: a catalog for the filesystem

    A shallow embedding of [dewey/indices.py], [dewey/catalog.py] and
    [dewey/collection.py], and the properties of the index family, the
    catalog engine and the query composer checked against it.

    Conventions of the embedding.
    - A Python [str] is a [string]; slices, [lower], [split], [rstrip] and
      the other string methods the code calls are written out below.
    - A BTrees integer set ([IITreeSet], [IISet]) is a [gset Z]; a BTrees
      mapping ([OOBTree], [IOBTree], [OIBTree]) is a [gmap]; an [OOSet] is a
      duplicate-free list kept in Python 2 key order, because the code
      iterates over it.
    - Rids and levels are integers in [Z].  The integer flavours of BTrees
      refuse a key outside 32 bits; the model makes that check where the
      catalog writes [resources] and [rids], after [ridtimes] is written,
      and not inside the indices.
    - A method that mutates [self] and may raise is a function
      [self -> outcome * self]: the state that comes back with [Raise] is the
      object as the exception left it. *)

From Stdlib Require Import ZArith String Ascii List Lia DecimalString.
From stdpp Require Import gmap strings list fin_maps sorting.

#[local] Set Warnings "-clear-no-such-hyp".

Local Open Scope string_scope.
Local Open Scope Z_scope.

(** ** Python values, exceptions and the method monad *)

Inductive pyobj : Type :=
| PyNone
| PyStr (s : string)
| PyInt (z : Z).

Inductive exn : Type :=
| TypeError
| ValueError
| KeyError
| AttributeError
| NameError
| AssertionError
| UnboundLocalError
| IndexError
| OSError.

Inductive outcome (A : Type) : Type :=
| Return (a : A)
| Raise (e : exn).
Arguments Return {A} a.
Arguments Raise {A} e.

Definition M (S A : Type) : Type := S -> outcome A * S.

Definition ret {S A : Type} (a : A) : M S A := fun s => (Return a, s).

Definition raise {S A : Type} (e : exn) : M S A := fun s => (Raise e, s).

Definition bind {S A B : Type} (m : M S A) (k : A -> M S B) : M S B :=
  fun s =>
    match m s with
    | (Return a, s') => k a s'
    | (Raise e, s') => (Raise e, s')
    end.

Definition get_self {S : Type} : M S S := fun s => (Return s, s).

Definition modify {S : Type} (f : S -> S) : M S unit := fun s => (Return tt, f s).

Declare Scope py_scope.
Delimit Scope py_scope with py.
Notation "x <- m ;; k" := (bind m (fun x => k))
  (at level 100, m at next level, right associativity) : py_scope.
Notation "m ;;; k" := (bind m (fun _ => k))
  (at level 100, right associativity) : py_scope.

(** Methods that only read [self] return an [outcome]. *)
Definition obind {A B : Type} (m : outcome A) (k : A -> outcome B) : outcome B :=
  match m with
  | Return a => k a
  | Raise e => Raise e
  end.

Notation "x <~ m ;; k" := (obind m (fun x => k))
  (at level 100, m at next level, right associativity) : py_scope.

(** [for x in l: body(x)]; the first exception ends the loop. *)
Fixpoint for_ {S A : Type} (l : list A) (body : A -> M S unit) : M S unit :=
  match l with
  | [] => ret tt
  | x :: l' => bind (body x) (fun _ => for_ l' body)
  end.

(** [range(a, b)] over Python ints. *)
Definition range (a b : Z) : list Z :=
  (fun i => a + Z.of_nat i) <$> seq 0 (Z.to_nat (b - a)).

(** ** Python string methods *)

Definition os_sep : ascii := "/"%char.

Definition len (s : string) : nat := String.length s.

(** [s[a:b]] and [s[a:]] for [0 <= a]. *)
Definition slice (s : string) (a b : nat) : string := substring a (b - a) s.

Definition slice_from (s : string) (a : nat) : string :=
  substring a (len s - a) s.

Definition lower_ascii (c : ascii) : ascii :=
  let n := N_of_ascii c in
  if ((65 <=? n) && (n <=? 90))%N then ascii_of_N (n + 32) else c.

Fixpoint lower (s : string) : string :=
  match s with
  | EmptyString => EmptyString
  | String c s' => String (lower_ascii c) (lower s')
  end.

Definition startswith (s : string) (c : ascii) : bool :=
  match s with
  | String a _ => if decide (a = c) then true else false
  | EmptyString => false
  end.

(** [s.rstrip(c)] for a one-character [c]. *)
Fixpoint rstrip (c : ascii) (s : string) : string :=
  match s with
  | EmptyString => EmptyString
  | String a s' =>
      match rstrip c s' with
      | EmptyString => if decide (a = c) then EmptyString else String a EmptyString
      | r => String a r
      end
  end.

(** [s.split(c)] for a one-character separator: never the empty list. *)
Fixpoint split (c : ascii) (s : string) : list string :=
  match s with
  | EmptyString => [EmptyString]
  | String a s' =>
      if decide (a = c) then EmptyString :: split c s'
      else match split c s' with
           | h :: t => String a h :: t
           | [] => [String a EmptyString]
           end
  end.

(** [sep.join(l)]. *)
Definition join (c : ascii) (l : list string) : string :=
  String.concat (String c EmptyString) l.

Definition is_space (c : ascii) : bool :=
  let n := N_of_ascii c in ((n =? 32) || ((9 <=? n) && (n <=? 13)))%N.

Fixpoint lstrip_ws (s : string) : string :=
  match s with
  | String a s' => if is_space a then lstrip_ws s' else s
  | EmptyString => EmptyString
  end.

(** The first whitespace-free word of [s] and what follows it. *)
Fixpoint take_word (s : string) : string * string :=
  match s with
  | EmptyString => (EmptyString, EmptyString)
  | String a s' =>
      if is_space a then (EmptyString, s)
      else let '(w, r) := take_word s' in (String a w, r)
  end.

(** [s.split(None, maxsplit)]: runs of whitespace separate the words; once
    [maxsplit] words are cut, the rest (leading whitespace dropped) is the
    last element.  [fuel] bounds the number of words and is taken as
    [len s]. *)
Fixpoint split_ws_go (fuel : nat) (maxsplit : option nat) (s : string) : list string :=
  match fuel with
  | O => []
  | S fuel' =>
      match lstrip_ws s with
      | EmptyString => []
      | s1 =>
          match maxsplit with
          | Some O => [s1]
          | _ =>
              let '(w, r) := take_word s1 in
              w :: split_ws_go fuel' (Nat.pred <$> maxsplit) r
          end
      end
  end.

Definition split_ws (maxsplit : option nat) (s : string) : list string :=
  split_ws_go (len s) maxsplit s.

Fixpoint count (c : ascii) (s : string) : nat :=
  match s with
  | EmptyString => O
  | String a s' => ((if decide (a = c) then 1 else 0) + count c s')%nat
  end.

Definition is_digit (c : ascii) : bool :=
  let n := N_of_ascii c in ((48 <=? n) && (n <=? 57))%N.

Fixpoint all_digits (s : string) : bool :=
  match s with
  | EmptyString => true
  | String a s' => is_digit a && all_digits s'
  end.

(** [s.isdigit()]: false on the empty string. *)
Definition isdigit (s : string) : bool :=
  match s with
  | EmptyString => false
  | _ => all_digits s
  end.

(** [int(s)] for a string of digits. *)
Fixpoint int_go (acc : Z) (s : string) : Z :=
  match s with
  | EmptyString => acc
  | String a s' => int_go (10 * acc + (Z.of_N (N_of_ascii a) - 48)) s'
  end.

Definition int (s : string) : Z := int_go 0 s.

(** [str(n)] for a non-negative int. *)
Definition str (n : Z) : string := NilEmpty.string_of_uint (N.to_uint (Z.to_N n)).

(** ** BTrees

    The containers and set operations of the BTrees package, as its
    documentation gives them. *)

(** Elements of an [OOSet]: the code stores substrings and, for a [Path],
    [(level, part)] tuples in the same set. *)
Inductive okey : Type :=
| KStr (s : string)
| KTok (level : Z) (part : string).

Global Instance okey_eq_dec : EqDecision okey.
Proof. solve_decision. Defined.

(** Python 2 orders a [str] before a [tuple], strings by their characters and
    tuples lexicographically. *)
Definition okey_ltb (a b : okey) : bool :=
  match a, b with
  | KStr s, KStr t => String.ltb s t
  | KStr _, KTok _ _ => true
  | KTok _ _, KStr _ => false
  | KTok l s, KTok m t => (l <? m) || ((l =? m) && String.ltb s t)
  end.

(** [OOSet.insert]: the set stays sorted and without duplicates. *)
Fixpoint OOSet_insert (k : okey) (s : list okey) : list okey :=
  match s with
  | [] => [k]
  | x :: s' =>
      if decide (k = x) then s
      else if okey_ltb k x then k :: s
      else x :: OOSet_insert k s'
  end.

(** An [IITreeSet]/[IISet] of rids, and [None] for Python's [None]. *)
Abbreviation ridset := (gset Z).

(** [intersection(a, b)]: [None] stands for "everything". *)
Definition intersection (a b : option ridset) : option ridset :=
  match a, b with
  | None, _ => b
  | _, None => a
  | Some x, Some y => Some (x ∩ y)
  end.

(** [difference(a, b)]. *)
Definition difference (a b : option ridset) : option ridset :=
  match a, b with
  | None, _ => None
  | _, None => a
  | Some x, Some y => Some (x ∖ y)
  end.

(** [multiunion(seq)] of a sequence of sets. *)
Definition multiunion (l : list ridset) : ridset := ⋃ l.

(** The keys of an [IOBTree] and the elements of an [IITreeSet] are C ints:
    an integer outside 32 bits is refused with [TypeError]. *)
Definition int32 (n : Z) : bool := (- 2 ^ 31 <=? n) && (n <? 2 ^ 31).

(** The body shared by every one-to-many mapping of the indices:
    [if key in index: index[key].insert(rid)] [else: index[key] = IITreeSet([rid])]. *)
Definition add_rid {K : Type} `{Countable K}
    (index : gmap K ridset) (key : K) (rid : Z) : gmap K ridset :=
  match index !! key with
  | Some s => <[key := {[rid]} ∪ s]> index
  | None => <[key := {[rid]}]> index
  end.

(** [index.get(key, IISet())]. *)
Definition get_set {K : Type} `{Countable K}
    (index : gmap K ridset) (key : K) : ridset :=
  default ∅ (index !! key).

(** ** indices.py: class String *)

Module StringIndex.

Record t : Type := mk {
  case_sensitive : bool;
  rids : gmap Z (list okey);          (* {rid: OOSet of substrings} *)
  values : gmap string ridset;        (* {value: rids} *)
  beginnings : gmap string ridset;    (* {beginning: rids} *)
  endings : gmap string ridset;       (* {ending: rids} *)
  middles : gmap string ridset        (* {middle: rids} *)
}.

(** [String.reset], called from [__init__]. *)
Definition reset (self : t) : t :=
  {| case_sensitive := case_sensitive self;
     rids := ∅; values := ∅; beginnings := ∅; endings := ∅; middles := ∅ |}.

Definition init (case_sensitive : bool) : t :=
  reset {| case_sensitive := case_sensitive;
           rids := ∅; values := ∅; beginnings := ∅; endings := ∅; middles := ∅ |}.

(** The inner loop of [learn]:
    [for k in range(len(value)-i): part = value[k:k+j]; ...]. *)
Definition learn_middles (value : string) (rid : Z) (i : nat)
    (acc : gmap string ridset * list okey) : gmap string ridset * list okey :=
  fold_left
    (fun '(m, substrings) k =>
       let part := slice value k (k + (i + 1)) in
       (add_rid m part rid, OOSet_insert (KStr part) substrings))
    (seq 0 (len value - i)) acc.

(** One turn of [for i in range(len(value))]. *)
Definition learn_step (value : string) (rid : Z)
    (acc : gmap string ridset * gmap string ridset * gmap string ridset * list okey)
    (i : nat) :=
  let '(b, m, e, substrings) := acc in
  let j := (i + 1)%nat in
  let b := add_rid b (slice value 0 j) rid in
  let '(m, substrings) := learn_middles value rid i (m, substrings) in
  let e := add_rid e (slice_from value i) rid in
  (b, m, e, substrings).

(** The value as the index files it: lowercased unless case-sensitive. *)
Definition normalize (self : t) (value : string) : string :=
  if case_sensitive self then value else lower value.

(** [String.learn(self, rid, value)]. *)
Definition learn (rid : Z) (value : pyobj) : M t unit :=
  fun self =>
    match value with
    | PyStr v =>
        let value := normalize self v in
        let values' := add_rid (values self) value rid in
        let '(b, m, e, substrings) :=
          fold_left (learn_step value rid) (seq 0 (len value))
                    (beginnings self, middles self, endings self, []) in
        (Return tt,
         {| case_sensitive := case_sensitive self;
            rids := <[rid := substrings]> (rids self);
            values := values';
            beginnings := b; endings := e; middles := m |})
    | _ => (Raise TypeError, self)
    end.

(** The tuple [indices = (self.values, self.beginnings, self.middles,
    self.endings)] of [forget]: references to the four mappings. *)
Inductive substring_index : Type := Values | Beginnings | Middles | Endings.

Definition get_index (index : substring_index) (self : t) : gmap string ridset :=
  match index with
  | Values => values self
  | Beginnings => beginnings self
  | Middles => middles self
  | Endings => endings self
  end.

Definition set_index (index : substring_index) (m : gmap string ridset) (self : t) : t :=
  match index with
  | Values =>
      {| case_sensitive := case_sensitive self; rids := rids self; values := m;
         beginnings := beginnings self; endings := endings self; middles := middles self |}
  | Beginnings =>
      {| case_sensitive := case_sensitive self; rids := rids self; values := values self;
         beginnings := m; endings := endings self; middles := middles self |}
  | Middles =>
      {| case_sensitive := case_sensitive self; rids := rids self; values := values self;
         beginnings := beginnings self; endings := endings self; middles := m |}
  | Endings =>
      {| case_sensitive := case_sensitive self; rids := rids self; values := values self;
         beginnings := beginnings self; endings := m; middles := middles self |}
  end.

(** [index[substring].remove(rid)]: [KeyError] when the mapping has no such
    key (a tuple is never one) and when the set does not hold [rid]. *)
Definition remove_rid (index : substring_index) (substring : okey) (rid : Z) : M t unit :=
  fun self =>
    match substring with
    | KStr s =>
        match get_index index self !! s with
        | Some set =>
            if decide (rid ∈ set)
            then (Return tt, set_index index (<[s := set ∖ {[rid]}]> (get_index index self)) self)
            else (Raise KeyError, self)
        | None => (Raise KeyError, self)
        end
    | KTok _ _ => (Raise KeyError, self)
    end.

(** [self.substrings]: neither [String] nor [Path] has such an attribute. *)
Definition self_substrings : M t (gmap string ridset) := raise AttributeError.

(** [self.rids[rid]]. *)
Definition rids_getitem (rid : Z) : M t (list okey) :=
  fun self =>
    match rids self !! rid with
    | Some substrings => (Return substrings, self)
    | None => (Raise KeyError, self)
    end.

(** [del self.rids[rid]]. *)
Definition rids_delitem (rid : Z) : M t unit :=
  fun self =>
    match rids self !! rid with
    | Some _ =>
        (Return tt,
         {| case_sensitive := case_sensitive self; rids := delete rid (rids self);
            values := values self; beginnings := beginnings self;
            endings := endings self; middles := middles self |})
    | None => (Raise KeyError, self)
    end.

(** [String.forget(self, rid)]. *)
Definition forget (rid : Z) : M t unit :=
  (substrings <- rids_getitem rid ;;
   for_ substrings (fun substring =>
     for_ [Values; Beginnings; Middles; Endings] (fun index =>
       remove_rid index substring rid ;;;
       _ <- self_substrings ;;
       ret tt)) ;;;
   rids_delitem rid)%py.

(** [String._substring(self, index, arg)]. *)
Definition _substring (self : t) (index : gmap string ridset) (arg : string) : ridset :=
  let arg := if case_sensitive self then arg else lower arg in
  get_set index arg.

Definition is_ (self : t) (arg : string) : ridset := _substring self (values self) arg.
Definition startswith (self : t) (arg : string) : ridset := _substring self (beginnings self) arg.
Definition contains (self : t) (arg : string) : ridset := _substring self (middles self) arg.
Definition endswith (self : t) (arg : string) : ridset := _substring self (endings self) arg.

End StringIndex.

(** ** indices.py: class Enumeration *)

Global Instance pyobj_eq_dec : EqDecision pyobj.
Proof. solve_decision. Defined.

Global Instance pyobj_countable : Countable pyobj.
Proof.
  refine (inj_countable'
    (fun o => match o with
              | PyNone => inl tt
              | PyStr s => inr (inl s)
              | PyInt z => inr (inr z)
              end)
    (fun x => match x with
              | inl _ => PyNone
              | inr (inl s) => PyStr s
              | inr (inr z) => PyInt z
              end) _).
  intros []; reflexivity.
Defined.

Module Enumeration.

Record t : Type := mk {
  allowed : list pyobj;               (* permitted values *)
  default : option pyobj;             (* None: ENUMERATION_NO_DEFAULT *)
  values : gmap Z pyobj;              (* {rid: value} *)
  rids : gmap pyobj ridset            (* {value: rids} *)
}.

Definition reset (self : t) : t :=
  {| allowed := allowed self; default := default self; values := ∅; rids := ∅ |}.

(** [Enumeration.__init__(self, *allowed, **kw)].  The message of the
    [ValueError] for a default outside [allowed] formats the name [values],
    which is not bound there, so building it raises [NameError]. *)
Definition init (allowed : list pyobj) (default : option pyobj) : outcome t :=
  match default with
  | Some d =>
      if decide (d ∈ allowed)
      then Return (reset {| allowed := allowed; default := default; values := ∅; rids := ∅ |})
      else Raise NameError
  | None =>
      Return (reset {| allowed := allowed; default := default; values := ∅; rids := ∅ |})
  end.

(** The global name [MARKER]: [indices.py] neither defines nor imports it
    (its own sentinel is [ENUMERATION_NO_DEFAULT]), so reading it raises
    [NameError]. *)
Definition MARKER : M t pyobj := raise NameError.

(** [Enumeration.learn(self, rid, value)]. *)
Definition learn (rid : Z) (value : pyobj) : M t unit :=
  (value <-
     match value with
     | PyNone =>
         marker <- MARKER ;;
         self <- get_self ;;
         match default self with
         | None => raise ValueError
         | Some d => ret d
         end
     | _ =>
         self <- get_self ;;
         if decide (value ∈ allowed self) then ret value else raise ValueError
     end ;;
   modify (fun self =>
     {| allowed := allowed self; default := default self;
        values := <[rid := value]> (values self);
        rids := add_rid (rids self) value rid |}))%py.

(** [Enumeration.forget(self, rid, value)]: the parameter [value] is
    overwritten on the first line. *)
Definition forget (rid : Z) (value : pyobj) : M t unit :=
  fun self =>
    match values self !! rid with
    | None => (Raise KeyError, self)
    | Some value =>
        match rids self !! value with
        | None => (Raise KeyError, self)
        | Some set =>
            if decide (rid ∈ set) then
              let set' := set ∖ {[rid]} in
              let rids' :=
                if decide (size set' = 0%nat) then delete value (rids self)
                else <[value := set']> (rids self) in
              (Return tt,
               {| allowed := allowed self; default := default self;
                  values := delete rid (values self); rids := rids' |})
            else (Raise KeyError, self)
        end
    end.

(** [Enumeration.is_(self, value)]. *)
Definition is_ (self : t) (value : pyobj) : ridset := get_set (rids self) value.

End Enumeration.

(** ** indices.py: class Path(String) *)

Module Path.

(** The attributes [Path] inherits from [String] are [base]; [rids] is the
    inherited attribute, which [Path] fills with tokens as well. *)
Record t : Type := mk {
  base : StringIndex.t;
  root : string;
  path2rid : gmap string Z;           (* {path: rid} *)
  rid2path : gmap Z string;           (* {rid: path} *)
  parts : gmap (Z * string) ridset;   (* {(level, part): rids} *)
  levels : gmap Z ridset              (* {level: rids} *)
}.

Definition case_sensitive (self : t) : bool := StringIndex.case_sensitive (base self).
Definition rids (self : t) : gmap Z (list okey) := StringIndex.rids (base self).

Definition set_base (b : StringIndex.t) (self : t) : t :=
  {| base := b; root := root self; path2rid := path2rid self;
     rid2path := rid2path self; parts := parts self; levels := levels self |}.

Definition set_rids (r : gmap Z (list okey)) (self : t) : t :=
  set_base
    {| StringIndex.case_sensitive := case_sensitive self;
       StringIndex.rids := r;
       StringIndex.values := StringIndex.values (base self);
       StringIndex.beginnings := StringIndex.beginnings (base self);
       StringIndex.endings := StringIndex.endings (base self);
       StringIndex.middles := StringIndex.middles (base self) |} self.

(** A method of [String] called on a [Path] object. *)
Definition inherited {A : Type} (m : M StringIndex.t A) : M t A :=
  fun self => let '(r, b) := m (base self) in (r, set_base b self).

(** [Path.reset]. *)
Definition reset (self : t) : t :=
  {| base := StringIndex.reset (base self); root := root self;
     path2rid := ∅; rid2path := ∅; parts := ∅; levels := ∅ |}.

(** [Path.__init__(self, root, case_sensitive)], with the platform default
    of [case_sensitive] already resolved and [root] an existing directory. *)
Definition init (root : string) (case_sensitive : bool) : t :=
  reset {| base := StringIndex.init case_sensitive; root := rstrip os_sep root;
           path2rid := ∅; rid2path := ∅; parts := ∅; levels := ∅ |}.

(** [(level, parts[level]) for level in range(len(parts))]. *)
Definition tokens (parts : list string) : list (Z * string) :=
  zip (range 0 (Z.of_nat (length parts))) parts.

(** One turn of [for level in range(len(parts))] in [learn]. *)
Definition learn_token (rid : Z) (self : t) (token_ : Z * string) : t :=
  let self :=
    {| base := base self; root := root self; path2rid := path2rid self;
       rid2path := rid2path self;
       parts := add_rid (parts self) token_ rid;
       levels := levels self |} in
  match rids self !! rid with
  | None => set_rids (<[rid := [KTok token_.1 token_.2]]> (rids self)) self
  | Some set => set_rids (<[rid := OOSet_insert (KTok token_.1 token_.2) set]> (rids self)) self
  end.

(** [Path.learn(self, rid, value)]. *)
Definition learn (rid : Z) (value : pyobj) : M t unit :=
  (inherited (StringIndex.learn rid value) ;;;
   match value with
   | PyStr value =>
       if negb (String.eqb value "") && negb (startswith value os_sep)
       then raise ValueError
       else
         modify (fun self =>
           let path := if case_sensitive self then value else lower value in
           let path := rstrip os_sep path in
           let parts := split os_sep value in
           let self :=
             {| base := base self; root := root self;
                path2rid := <[path := rid]> (path2rid self);
                rid2path := <[rid := path]> (rid2path self);
                parts := Path.parts self; levels := levels self |} in
           let self := fold_left (learn_token rid) (tokens parts) self in
           let level := Z.of_nat (length parts) - 1 in
           {| base := base self; root := root self; path2rid := path2rid self;
              rid2path := rid2path self; parts := Path.parts self;
              levels := add_rid (levels self) level rid |})
   | _ => raise TypeError
   end)%py.

(** [self.parts[token_].remove(rid)] and the pruning of an empty set. *)
Definition parts_remove (token_ : Z * string) (rid : Z) : M t unit :=
  fun self =>
    match parts self !! token_ with
    | None => (Raise KeyError, self)
    | Some set =>
        if decide (rid ∈ set) then
          let set' := set ∖ {[rid]} in
          (Return tt,
           {| base := base self; root := root self; path2rid := path2rid self;
              rid2path := rid2path self;
              parts := if decide (size set' = 0%nat) then delete token_ (parts self)
                       else <[token_ := set']> (parts self);
              levels := levels self |})
        else (Raise KeyError, self)
    end.

(** [self.levels[level].remove(rid)] and the pruning of an empty set. *)
Definition levels_remove (level : Z) (rid : Z) : M t unit :=
  fun self =>
    match levels self !! level with
    | None => (Raise KeyError, self)
    | Some set =>
        if decide (rid ∈ set) then
          let set' := set ∖ {[rid]} in
          (Return tt,
           {| base := base self; root := root self; path2rid := path2rid self;
              rid2path := rid2path self; parts := parts self;
              levels := if decide (size set' = 0%nat) then delete level (levels self)
                        else <[level := set']> (levels self) |})
        else (Raise KeyError, self)
    end.

(** The loop [for token_ in self.rids[rid]] of [forget], threading the
    local [level].  A substring met there is indexed as [token_[0]]
    ([IndexError] on the empty one) and is no key of [parts]. *)
Fixpoint forget_tokens (rid : Z) (level : Z) (l : list okey) : M t Z :=
  match l with
  | [] => ret level
  | KTok lv part :: l' =>
      let level := if lv >? level then lv else level in
      (parts_remove (lv, part) rid ;;;
       forget_tokens rid level l')%py
  | KStr EmptyString :: _ => raise IndexError
  | KStr _ :: _ => raise KeyError
  end.

(** [Path.forget(self, rid)]. *)
Definition forget (rid : Z) : M t unit :=
  (inherited (StringIndex.forget rid) ;;;
   tokens <- inherited (StringIndex.rids_getitem rid) ;;
   level <- forget_tokens rid (-1) tokens ;;
   levels_remove level rid ;;;
   inherited (StringIndex.rids_delitem rid) ;;;
   self <- get_self ;;
   match rid2path self !! rid with
   | None => raise KeyError
   | Some path =>
       match path2rid self !! path with
       | None => raise KeyError
       | Some _ =>
           modify (fun self =>
             {| base := base self; root := root self;
                path2rid := delete path (path2rid self);
                rid2path := delete rid (rid2path self);
                parts := parts self; levels := levels self |})
       end
   end)%py.

(** [Path._path_and_limits(self, arg)]. *)
Definition parse_limit (s : string) : outcome (option Z) :=
  if String.eqb s "" then Return None
  else if isdigit s then Return (Some (int s))
  else Raise ValueError.

Definition _path_and_limits (self : t) (arg : string)
    : outcome (string * option Z * option Z) :=
  (let parts := split_ws None arg in
   plu <~
     match parts with
     | [path] => Return (path, None, None)
     | [path; limits] =>
         if negb (count ":" limits =? 1)%nat then Raise ValueError
         else
           match split ":" limits with
           | [upper; lower] =>
               upper <~ parse_limit upper ;;
               lower <~ parse_limit lower ;;
               match upper, lower with
               | Some u, Some l =>
                   if u >? l then Raise ValueError else Return (path, upper, lower)
               | _, _ => Return (path, upper, lower)
               end
           | _ => Raise ValueError
           end
     | _ => Raise AssertionError
     end ;;
   let '(path, upper, lower_) := plu in
   let path := if String.eqb path (String os_sep "") then "" else path in
   let path := if case_sensitive self then path else lower path in
   Return (path, upper, lower_))%py.

(** [self.parts[(level, parts[level])]] for each level, intersected. *)
Fixpoint below_parts (self : t) (rids : option ridset) (l : list (Z * string))
    : outcome (option ridset) :=
  match l with
  | [] => Return rids
  | token_ :: l' =>
      match parts self !! token_ with
      | None => Raise KeyError
      | Some set => below_parts self (intersection rids (Some set)) l'
      end
  end.

(** The sets [self.levels[i]] a limits loop visits: it leaves at the first
    [i] that is not in [self.levels]. *)
Fixpoint visited_levels (self : t) (l : list Z) : list ridset :=
  match l with
  | [] => []
  | i :: l' =>
      match levels self !! i with
      | None => []
      | Some set => set :: visited_levels self l'
      end
  end.

(** [Path.below(self, arg)]; [Return None] is Python's [None]. *)
Definition below (self : t) (arg : string) : outcome (option ridset) :=
  (plu <~ _path_and_limits self arg ;;
   let '(path, upper, lower) := plu in
   match path2rid self !! path with
   | None => Return None
   | Some rid =>
       let parts := split os_sep path in
       rids <~ below_parts self None (tokens parts) ;;
       let level := Z.of_nat (length parts) - 1 in
       match rids with
       | None => Return (Some ∅)
       | Some _ =>
           let rids :=
             match upper with
             | Some upper =>
                 let upper := upper + level in
                 fold_left (fun rids set => difference rids (Some set))
                           (visited_levels self (range level upper)) rids
             | None => rids
             end in
           let rids :=
             match lower with
             | Some lower =>
                 let lower := lower + level in
                 let _rids := visited_levels self (range level lower) in
                 intersection rids (Some (multiunion _rids))
             | None => rids
             end in
           Return rids
       end
   end)%py.

(** [multiunion] applied to a list that may hold [None]: a [TypeError]. *)
Fixpoint multiunion_results (l : list (option ridset)) : outcome ridset :=
  match l with
  | [] => Return ∅
  | None :: _ => Raise TypeError
  | Some set :: l' => rest <~ multiunion_results l' ;; Return (set ∪ rest)
  end%py.

(** [for level in range(len(parts))] of [above], collecting [below]'s
    results for every ancestor. *)
Fixpoint above_ancestors (self : t) (tmpl : string) (parts : list string)
    (levels : list nat) : outcome (list (option ridset)) :=
  match levels with
  | [] => Return []
  | level :: levels' =>
      let ancestor := join os_sep (take (level + 1) parts) in
      let ancestor := if String.eqb ancestor "" then "/" else ancestor in
      (r <~ below self (ancestor ++ tmpl) ;;
       rs <~ above_ancestors self tmpl parts levels' ;;
       Return (r :: rs))%py
  end.

(** [Path.above(self, arg)]: the union is bound to the local [rids] and the
    method ends there, so what it returns is [None]. *)
Definition above (self : t) (arg : string) : outcome (option ridset) :=
  (plu <~ _path_and_limits self arg ;;
   let '(path, upper, lower) := plu in
   match path2rid self !! path with
   | None => Return None
   | Some rid =>
       let tmpl :=
         match upper, lower with
         | None, None => " 0:1"
         | _, _ => " " ++ from_option str "" upper ++ ":" ++ from_option str "" lower
         end in
       let parts := split os_sep path in
       rids <~ above_ancestors self tmpl parts (seq 0 (length parts)) ;;
       rids <~ multiunion_results rids ;;
       Return None
   end)%py.

(** [Path.is_(self, arg)]: the rid filed under [arg] itself, or [None]. *)
Definition is_ (self : t) (arg : string) : outcome (option Z) :=
  (_ <~ _path_and_limits self arg ;;
   Return (path2rid self !! arg))%py.

End Path.

(** ** catalog.py: class Catalog *)

(** An installed index: an instance of one of the three classes. *)
Inductive Index : Type :=
| IString (s : StringIndex.t)
| IEnumeration (e : Enumeration.t)
| IPath (p : Path.t).

(** [index.reset()]. *)
Definition Index_reset (index : Index) : Index :=
  match index with
  | IString s => IString (StringIndex.reset s)
  | IEnumeration e => IEnumeration (Enumeration.reset e)
  | IPath p => IPath (Path.reset p)
  end.

(** [index.learn(rid, value)]. *)
Definition Index_learn (rid : Z) (value : pyobj) : M Index unit :=
  fun index =>
    match index with
    | IString s => let '(r, s') := StringIndex.learn rid value s in (r, IString s')
    | IEnumeration e => let '(r, e') := Enumeration.learn rid value e in (r, IEnumeration e')
    | IPath p => let '(r, p') := Path.learn rid value p in (r, IPath p')
    end.

(** [index.forget(rid)], the call the catalog makes.  [Enumeration.forget]
    takes a second positional argument, so this call is a [TypeError]. *)
Definition Index_forget (rid : Z) : M Index unit :=
  fun index =>
    match index with
    | IString s => let '(r, s') := StringIndex.forget rid s in (r, IString s')
    | IEnumeration e => (Raise TypeError, index)
    | IPath p => let '(r, p') := Path.forget rid p in (r, IPath p')
    end.

Module Catalog.

(** A [Resource] instance, as the catalog sees it: its attributes. *)
Abbreviation resource := (list (string * pyobj)).

Record t : Type := mk {
  root : string;
  Resource : gmap string Z -> string -> resource;
                                      (* the Resource class, called on a path;
                                         its constructor may read the file *)
  indices : list (string * Index);    (* {name: Index}, in iteration order *)
  ridtimes : gmap string (Z * Z);     (* {path: (rid, modtime)} *)
  resources : gmap Z resource;        (* {rid: Resource} *)
  rids : ridset;                      (* all rids *)
  _v_nextrid : option Z
}.

(** [Catalog.reset]. *)
Definition reset (self : t) : t :=
  {| root := root self; Resource := Resource self;
     indices := map (fun ni => (ni.1, Index_reset ni.2)) (indices self);
     ridtimes := ∅; resources := ∅; rids := ∅;
     _v_nextrid := _v_nextrid self |}.

(** [Catalog.__init__(self, root, Resource)] for a [root] that is a
    directory. *)
Definition init (root : string) (Resource : gmap string Z -> string -> resource) : t :=
  reset {| root := rstrip os_sep root; Resource := Resource; indices := [];
           ridtimes := ∅; resources := ∅; rids := ∅; _v_nextrid := None |}.

(** [catalog.indices[name] = index], how an embedder installs an index. *)
Definition install (name : string) (index : Index) (self : t) : t :=
  {| root := root self; Resource := Resource self;
     indices := (name, index) :: filter (fun ni => ni.1 ≠ name) (indices self);
     ridtimes := ridtimes self; resources := resources self; rids := rids self;
     _v_nextrid := _v_nextrid self |}.

Definition set_nextrid (n : option Z) (self : t) : t :=
  {| root := root self; Resource := Resource self; indices := indices self;
     ridtimes := ridtimes self; resources := resources self; rids := rids self;
     _v_nextrid := n |}.

Definition set_indices (l : list (string * Index)) (self : t) : t :=
  {| root := root self; Resource := Resource self; indices := l;
     ridtimes := ridtimes self; resources := resources self; rids := rids self;
     _v_nextrid := _v_nextrid self |}.

(** [Catalog._generate_rid], from a turn of the loop whose
    [self._v_nextrid] is [None].  [draws] are the values the successive
    calls of [random.randint(0, 2**31)] return; the result is [None] when
    they run out before a free rid is met. *)
Fixpoint _generate_rid_random (draws : list Z) (self : t) : option (Z * list Z * t) :=
  match draws with
  | [] => None
  | randint :: draws' =>
      let rid := randint in
      if decide (rid ∉ rids self)
      then Some (rid, draws', set_nextrid (Some (rid + 1)) self)
      else _generate_rid_random draws' (set_nextrid None self)
  end.

(** [Catalog._generate_rid(self)]. *)
Definition _generate_rid (draws : list Z) (self : t) : option (Z * list Z * t) :=
  match _v_nextrid self with
  | None => _generate_rid_random draws self
  | Some rid =>
      if decide (rid ∉ rids self)
      then Some (rid, draws, set_nextrid (Some (rid + 1)) self)
      else _generate_rid_random draws (set_nextrid None self)
  end.

(** [random.randint(0, 2**31)] returns an [N] with [0 <= N <= 2**31]. *)
Definition randint_0_2_31 (n : Z) : Prop := 0 <= n <= 2 ^ 31.

(** [getattr(resource_, name, MARKER)]; [None] is [MARKER]. *)
Definition getattr (resource_ : resource) (name : string) : option pyobj :=
  snd <$> List.find (fun nv => String.eqb nv.1 name) resource_.

(** [for name, index in self.indices.iteritems(): ... index.learn(rid, value)]. *)
Fixpoint learn_all (resource_ : resource) (rid : Z) (l : list (string * Index))
    : outcome unit * list (string * Index) :=
  match l with
  | [] => (Return tt, [])
  | (name, index) :: l' =>
      match getattr resource_ name with
      | None => let '(r, l'') := learn_all resource_ rid l' in (r, (name, index) :: l'')
      | Some value =>
          match Index_learn rid value index with
          | (Return _, index') =>
              let '(r, l'') := learn_all resource_ rid l' in (r, (name, index') :: l'')
          | (Raise e, index') => (Raise e, (name, index') :: l')
          end
      end
  end.

(** The tail of [_add_update], from [resource_ = self.Resource(path)] on.
    The three writes come in the order of the source:
    [self.ridtimes[path] = (rid, modtime)] into an [OOBTree], then
    [self.resources[rid] = resource_] into an [IOBTree], which refuses a rid
    outside 32 bits, then [self.rids.insert(rid)] into an [IITreeSet], whose
    check the rid has passed by then. *)
Definition index_resource (fs : gmap string Z) (path : string) (rid modtime : Z)
    : M t unit :=
  fun self =>
    let resource_ := Resource self fs path in
    match learn_all resource_ rid (indices self) with
    | (Raise e, l) => (Raise e, set_indices l self)
    | (Return _, l) =>
        let self :=
          {| root := root self; Resource := Resource self; indices := l;
             ridtimes := <[path := (rid, modtime)]> (ridtimes self);
             resources := resources self; rids := rids self;
             _v_nextrid := _v_nextrid self |} in
        if int32 rid then
          (Return tt,
           {| root := root self; Resource := Resource self; indices := indices self;
              ridtimes := ridtimes self;
              resources := <[rid := resource_]> (resources self);
              rids := {[rid]} ∪ rids self;
              _v_nextrid := _v_nextrid self |})
        else (Raise TypeError, self)
    end.

(** [os.stat(path)[stat.ST_MTIME]] on the filesystem [fs], which maps the
    paths that exist to their modification times. *)
Definition stat_mtime (fs : gmap string Z) (path : string) : outcome Z :=
  match fs !! path with
  | Some modtime => Return modtime
  | None => Raise OSError
  end.

(** [Catalog._add_update(self, path)].  [None]: [_generate_rid] ran out of
    draws. *)
Definition _add_update (fs : gmap string Z) (draws : list Z) (path : string) (self : t)
    : option (outcome unit * t * list Z) :=
  match ridtimes self !! path with
  | None =>
      match _generate_rid draws self with
      | None => None
      | Some (rid, draws', self) =>
          match stat_mtime fs path with
          | Raise e => Some (Raise e, self, draws')
          | Return modtime =>
              let '(r, self) := index_resource fs path rid modtime self in
              Some (r, self, draws')
          end
      end
  | Some (rid, oldtime) =>
      match stat_mtime fs path with
      | Raise e => Some (Raise e, self, draws)
      | Return modtime =>
          if decide (modtime ≠ oldtime)
          then let '(r, self) := index_resource fs path rid modtime self in
               Some (r, self, draws)
          else Some (Return tt, self, draws)
      end
  end.

(** [for index in self.indices.values(): index.forget(rid)]. *)
Fixpoint forget_all (rid : Z) (l : list (string * Index))
    : outcome unit * list (string * Index) :=
  match l with
  | [] => (Return tt, [])
  | (name, index) :: l' =>
      match Index_forget rid index with
      | (Return _, index') =>
          let '(r, l'') := forget_all rid l' in (r, (name, index') :: l'')
      | (Raise e, index') => (Raise e, (name, index') :: l')
      end
  end.

(** One turn of [for path in self.ridtimes] in the unindex pass;
    [to_delete] is the local [OOTreeSet]. *)
Definition unindex_path (fs : gmap string Z) (path : string)
    (to_delete : list string) : M t (list string) :=
  fun self =>
    match fs !! path with
    | Some _ => (Return to_delete, self)
    | None =>
        match ridtimes self !! path with
        | None => (Raise KeyError, self)
        | Some (rid, _) =>
            match forget_all rid (indices self) with
            | (Raise e, l) => (Raise e, set_indices l self)
            | (Return _, l) =>
                let self := set_indices l self in
                match resources self !! rid with
                | None => (Raise KeyError, self)
                | Some _ =>
                    let self :=
                      {| root := root self; Resource := Resource self;
                         indices := indices self; ridtimes := ridtimes self;
                         resources := delete rid (resources self);
                         rids := rids self; _v_nextrid := _v_nextrid self |} in
                    if decide (rid ∈ rids self) then
                      (Return (to_delete ++ [path])%list,
                       {| root := root self; Resource := Resource self;
                          indices := indices self; ridtimes := ridtimes self;
                          resources := resources self;
                          rids := rids self ∖ {[rid]};
                          _v_nextrid := _v_nextrid self |})
                    else (Raise KeyError, self)
                end
            end
        end
    end.

Fixpoint unindex_loop (fs : gmap string Z) (paths : list string)
    (to_delete : list string) : M t (list string) :=
  match paths with
  | [] => ret to_delete
  | path :: paths' =>
      (to_delete <- unindex_path fs path to_delete ;;
       unindex_loop fs paths' to_delete)%py
  end.

(** The paths of [self.ridtimes] in the key order of the [OOBTree]. *)
Definition ridtimes_keys (self : t) : list string :=
  merge_sort String.le (elements (dom (ridtimes self))).

(** The unindex pass of [Catalog.crawl_once]. *)
Definition unindex (fs : gmap string Z) : M t unit :=
  (self <- get_self ;;
   to_delete <- unindex_loop fs (ridtimes_keys self) [] ;;
   modify (fun self =>
     {| root := root self; Resource := Resource self; indices := indices self;
        ridtimes := foldr delete (ridtimes self) to_delete;
        resources := resources self; rids := rids self;
        _v_nextrid := _v_nextrid self |}))%py.

End Catalog.

(** ** collection.py: class Collection *)

Module Collection.

(** The BTrees function a term carries: [intersection] for [AND],
    [difference] for [NOT]. *)
Inductive operation : Type := Intersection | Difference.

Definition apply_operation (op : operation) (a b : option ridset) : option ridset :=
  match op with
  | Intersection => intersection a b
  | Difference => difference a b
  end.

(** A search method of an index class, and the bound method [validate]
    hands out: the index is the one installed under [im_self], read from
    the catalog when the method is called. *)
Definition method : Type := Index -> option string -> outcome (option ridset).

Record call : Type := mkcall { im_self : string; im_func : method }.

Abbreviation query := (option string * option string * option string)%type.

Abbreviation term := (option operation * query * (option call * option string))%type.

Record t : Type := mk {
  data : option ridset;               (* None until loaded *)
  constraints : list (list term)
}.

(** [catalog.indices[index_name]]. *)
Definition catalog_index (catalog : Catalog.t) (index_name : string) : option Index :=
  snd <$> List.find (fun ni => String.eqb ni.1 index_name) (Catalog.indices catalog).

Section Methods.

(** The attributes of an index object that [getattr] finds, by name. *)
Variable attributes : Index -> string -> option method.

(** [Collection.parse(self, constraint)]. *)
Definition parse (constraint : string) : outcome query :=
  let special search :=
    if String.eqb search "is" then "is_"
    else if String.eqb search "in" then "in_"
    else search in
  match split_ws (Some 2%nat) constraint with
  | [index] => Return (Some index, None, None)
  | [index; search] => Return (Some index, Some (special search), None)
  | [index; search; arg] => Return (Some index, Some (special search), Some arg)
  | _ => Raise TypeError
  end.

(** [Collection.validate(self, index_name, search_name, arg)] for the
    [index_name] that [parse] returns, which is never [None];
    [getattr(index, None, None)] is a [TypeError]. *)
Definition validate (catalog : Catalog.t) (index_name : string)
    (search_name arg : option string) : outcome (option call * option string) :=
  match catalog_index catalog index_name with
  | None => Raise ValueError
  | Some index =>
      match search_name with
      | None => Raise TypeError
      | Some search_name =>
          match attributes index search_name with
          | None => Raise ValueError
          | Some f => Return (Some (mkcall index_name f), arg)
          end
      end
  end.

(** [query = self.parse(constraint); call = self.validate( *query)]. *)
Definition resolve (catalog : Catalog.t) (constraint : string)
    : outcome (query * (option call * option string)) :=
  (query <~ parse constraint ;;
   match query with
   | (Some index_name, search_name, arg) =>
       call <~ validate catalog index_name search_name arg ;;
       Return (query, call)
   | _ => Raise TypeError
   end)%py.

(** [Collection.__init__(self, constraint=None)]. *)
Definition init (catalog : Catalog.t) (constraint : option string) : outcome t :=
  (qc <~
     match constraint with
     | None => Return ((None, None, None), (None, None))
     | Some constraint => resolve catalog constraint
     end ;;
   Return {| data := None; constraints := [[(None, qc.1, qc.2)]] |})%py.

(** [self.constraints[-1].append(term)]. *)
Fixpoint append_last (cs : list (list term)) (x : term) : option (list (list term)) :=
  match cs with
  | [] => None
  | [grouping] => Some [(grouping ++ [x])%list]
  | grouping :: cs' => cons grouping <$> append_last cs' x
  end.

Definition constrain (op : operation) (catalog : Catalog.t) (constraint : string)
    : M t unit :=
  fun self =>
    match resolve catalog constraint with
    | Raise e => (Raise e, self)
    | Return (query, call) =>
        match append_last (constraints self) (Some op, query, call) with
        | None => (Raise IndexError, self)
        | Some cs => (Return tt, {| data := data self; constraints := cs |})
        end
    end.

(** [Collection.AND(self, constraint)]. *)
Definition AND : Catalog.t -> string -> M t unit := constrain Intersection.

(** [Collection.NOT(self, constraint)]. *)
Definition NOT : Catalog.t -> string -> M t unit := constrain Difference.

(** [Collection.OR(self, constraint='')]. *)
Definition OR (catalog : Catalog.t) (constraint : string) : M t unit :=
  fun self =>
    match (if String.eqb constraint ""
           then Return ((None, None, None), (None, None))
           else resolve catalog constraint) with
    | Raise e => (Raise e, self)
    | Return (query, call) =>
        (Return tt,
         {| data := data self;
            constraints := (constraints self ++ [[(None, query, call)]])%list |})
    end.

End Methods.

(** [call(arg)]. *)
Definition run (catalog : Catalog.t) (c : call) (arg : option string)
    : outcome (option ridset) :=
  match catalog_index catalog (im_self c) with
  | Some index => im_func c index arg
  | None => Raise KeyError
  end.

(** The inner loop of [refresh] over one grouping; [result] is the local
    variable, [None] while it is unbound. *)
Fixpoint refresh_grouping (catalog : Catalog.t) (grouping : list term)
    (result : option (option ridset)) : outcome (option (option ridset)) :=
  match grouping with
  | [] => Return result
  | (operation, _, (call, arg)) :: grouping' =>
      (result <~
         match operation, call with
         | None, None => Return (Some (Catalog.rids catalog))
         | None, Some call => run catalog call arg
         | Some operation, None => Raise AssertionError
         | Some operation, Some call =>
             match result with
             | None => Raise UnboundLocalError
             | Some result =>
                 r <~ run catalog call arg ;;
                 Return (apply_operation operation result r)
             end
         end ;;
       refresh_grouping catalog grouping' (Some result))%py
  end.

(** The outer loop: [if result is not None: results.append(result)]. *)
Fixpoint refresh_groupings (catalog : Catalog.t) (cs : list (list term))
    (result : option (option ridset)) (results : list ridset) : outcome (list ridset) :=
  match cs with
  | [] => Return results
  | grouping :: cs' =>
      (result <~ refresh_grouping catalog grouping result ;;
       match result with
       | None => Raise UnboundLocalError
       | Some None => refresh_groupings catalog cs' result results
       | Some (Some set) => refresh_groupings catalog cs' result (results ++ [set])%list
       end)%py
  end.

(** [Collection.refresh(self)]. *)
Definition refresh (catalog : Catalog.t) : M t unit :=
  fun self =>
    match refresh_groupings catalog (constraints self) None [] with
    | Raise e => (Raise e, self)
    | Return results =>
        (Return tt, {| data := Some (multiunion results); constraints := constraints self |})
    end.

End Collection.

(** The mappings held by the loop state of [StringIndex.learn]. *)
Definition acc_beginnings (a : gmap string ridset * gmap string ridset *
                               gmap string ridset * list okey) := a.1.1.1.
Definition acc_middles (a : gmap string ridset * gmap string ridset *
                            gmap string ridset * list okey) := a.1.1.2.
Definition acc_endings (a : gmap string ridset * gmap string ridset *
                            gmap string ridset * list okey) := a.1.2.

(** [m] occurs in [v] as a contiguous substring. *)
Definition occurs_in (m v : string) : Prop := ∃ a b : string, v = a ++ m ++ b.

Global Instance substring_index_eq_dec : EqDecision StringIndex.substring_index.
Proof. solve_decision. Defined.

(** The turn of the inner loop of [forget] for one mapping. *)
Definition forget_index (rid : Z) (substring : okey) (index : StringIndex.substring_index)
    : M StringIndex.t unit :=
  (StringIndex.remove_rid index substring rid ;;;
   _ <- StringIndex.self_substrings ;;
   ret tt)%py.

(** Two states of a String index that agree on [case_sensitive], on [rids]
    and on what the four mappings hold under [key]. *)
Definition same_under (key : string) (s1 s2 : StringIndex.t) : Prop :=
  StringIndex.case_sensitive s2 = StringIndex.case_sensitive s1 ∧
  StringIndex.rids s2 = StringIndex.rids s1 ∧
  ∀ index, StringIndex.get_index index s2 !! key = StringIndex.get_index index s1 !! key.

(** The two nested loops of [forget]. *)
Definition forget_loop (rid : Z) (substrings : list okey) : M StringIndex.t unit :=
  for_ substrings (fun substring =>
    for_ [StringIndex.Values; StringIndex.Beginnings; StringIndex.Middles;
          StringIndex.Endings] (forget_index rid substring)).

(** What [StringIndex.learn] puts in [rids[rid]]: a non-empty substring of
    [value]. *)
Definition recorded (value : string) (x : okey) : Prop :=
  ∃ m, x = KStr m ∧ m ≠ "" ∧ occurs_in m value.

(** The limits loops of [Path.below] reach level [i] from [level]: no level
    in between is missing from [self.levels]. *)
Definition level_reached (self : Path.t) (level i : Z) : Prop :=
  ∀ j, level ≤ j ≤ i → is_Some (Path.levels self !! j).

(** A case-sensitive Path index over the tree [/r], [/r/a.txt], [/r/sub],
    [/r/sub/c.txt], learned in that order as rids 1 to 4. *)
Definition example_tree : Path.t :=
  ((Path.learn 1 (PyStr "/r") ;;;
    Path.learn 2 (PyStr "/r/a.txt") ;;;
    Path.learn 3 (PyStr "/r/sub") ;;;
    Path.learn 4 (PyStr "/r/sub/c.txt"))%py (Path.init "/r" true)).2.

(** A case-sensitive Path index that holds the root [/] as rid 1 and [/a]
    as rid 2. *)
Definition example_rooted : Path.t :=
  ((Path.learn 1 (PyStr "/") ;;;
    Path.learn 2 (PyStr "/a"))%py (Path.init "/" true)).2.

(** The searches of the index classes modelled above, as [getattr] finds
    them by name; [in_] and [Path.is_] are left out.  With no argument
    [_substring] fails on [arg.lower()] or on its [isinstance] test. *)
Definition String_search (f : StringIndex.t → string → ridset) (s : StringIndex.t)
    (arg : option string) : outcome (option ridset) :=
  match arg with
  | Some arg => Return (Some (f s arg))
  | None => if StringIndex.case_sensitive s then Raise TypeError else Raise AttributeError
  end.

Definition String_method (f : StringIndex.t → string → ridset) : Collection.method :=
  fun index arg =>
    match index with
    | IString s => String_search f s arg
    | IPath p => String_search f (Path.base p) arg
    | IEnumeration _ => Raise AttributeError
    end.

Definition Path_method (f : Path.t → string → outcome (option ridset)) : Collection.method :=
  fun index arg =>
    match index, arg with
    | IPath p, Some arg => f p arg
    | _, _ => Raise AttributeError
    end.

Definition search_methods (index : Index) (name : string) : option Collection.method :=
  match index with
  | IString _ =>
      if String.eqb name "is_" then Some (String_method StringIndex.is_)
      else if String.eqb name "startswith" then Some (String_method StringIndex.startswith)
      else if String.eqb name "contains" then Some (String_method StringIndex.contains)
      else if String.eqb name "endswith" then Some (String_method StringIndex.endswith)
      else None
  | IPath _ =>
      if String.eqb name "startswith" then Some (String_method StringIndex.startswith)
      else if String.eqb name "contains" then Some (String_method StringIndex.contains)
      else if String.eqb name "endswith" then Some (String_method StringIndex.endswith)
      else if String.eqb name "below" then Some (Path_method Path.below)
      else if String.eqb name "above" then Some (Path_method Path.above)
      else None
  | IEnumeration _ =>
      if String.eqb name "is_"
      then Some (fun index arg =>
                   match index, arg with
                   | IEnumeration e, Some arg => Return (Some (Enumeration.is_ e (PyStr arg)))
                   | IEnumeration e, None => Return (Some (Enumeration.is_ e PyNone))
                   | _, _ => Raise AttributeError
                   end)
      else None
  end.

(** A filesystem with three files under [/r], and a Resource class whose
    only attribute is [name], the last segment of the path. *)
Definition example_fs : gmap string Z :=
  {[ "/r" := 5; "/r/a.txt" := 10; "/r/b.txt" := 20; "/r/c.md" := 30 ]}.

Definition example_Resource (fs : gmap string Z) (path : string) : Catalog.resource :=
  [("name", PyStr (List.last (split os_sep path) ""))].

Definition example_empty : Catalog.t :=
  Catalog.install "name" (IString (StringIndex.init false))
    (Catalog.init "/r" example_Resource).















(** The invariant of the catalog's three primary mappings. *)
Definition catalog_inv (c : Catalog.t) : Prop :=
  size (Catalog.resources c) = size (Catalog.rids c) ∧
  size (Catalog.rids c) = size (Catalog.ridtimes c) ∧
  ∀ path rid modtime,
    Catalog.ridtimes c !! path = Some (rid, modtime) →
    rid ∈ Catalog.rids c ∧ is_Some (Catalog.resources c !! rid).

(** What the steps preserve: [resources] is keyed by [rids], [ridtimes]
    names as many rids as there are, all of them in [rids], and no rid
    twice. *)
Definition maps_wf (ridtimes : gmap string (Z * Z)) (resources : gmap Z Catalog.resource)
    (rids : ridset) : Prop :=
  dom resources = rids ∧
  size rids = size ridtimes ∧
  (∀ path rid modtime, ridtimes !! path = Some (rid, modtime) → rid ∈ rids) ∧
  (∀ path1 path2 rid modtime1 modtime2,
     ridtimes !! path1 = Some (rid, modtime1) →
     ridtimes !! path2 = Some (rid, modtime2) → path1 = path2).

Definition catalog_wf (c : Catalog.t) : Prop :=
  maps_wf (Catalog.ridtimes c) (Catalog.resources c) (Catalog.rids c).

(** The catalog states the operations produce: a reset catalog, with any
    indices installed and the allocator anywhere, then calls of
    [_add_update] and unindex passes that complete, on any filesystem and
    with any draws.  A call that raises is not a step: [crawl] aborts the
    transaction and the mappings are those of the last commit. *)
Inductive reachable : Catalog.t → Prop :=
| reach_reset c :
    reachable (Catalog.reset c)
| reach_install c name index :
    reachable c → reachable (Catalog.install name index c)
| reach_nextrid c n :
    reachable c → reachable (Catalog.set_nextrid n c)
| reach_add_update c fs draws path c' draws' :
    reachable c →
    Catalog._add_update fs draws path c = Some (Return tt, c', draws') →
    reachable c'
| reach_unindex c fs c' :
    reachable c →
    Catalog.unindex fs c = (Return tt, c') →
    reachable c'.

(** A catalog with no index installed, after [_add_update] on two files. *)
Definition example_plain : Catalog.t :=
  match Catalog._add_update example_fs [7] "/r/a.txt"
          (Catalog.init "/r" example_Resource) with
  | Some (_, c1, draws) =>
      match Catalog._add_update example_fs draws "/r/b.txt" c1 with
      | Some (_, c2, _) => c2
      | None => c1
      end
  | None => Catalog.init "/r" example_Resource
  end.

(** A Resource class whose attribute [stamp] is read from the file: here
    its modification time, as a string. *)
Definition stamp_Resource (fs : gmap string Z) (path : string) : Catalog.resource :=
  [("stamp", PyStr (str (default 0 (fs !! path))))].

Definition example_stamped : Catalog.t :=
  Catalog.install "stamp" (IString (StringIndex.init true))
    (Catalog.init "/r" stamp_Resource).

(** A Resource class whose attribute [ext] is empty for [/r/a], and a
    catalog with a String index on it, after [_add_update] on [/r/a] and
    [/r/b.txt]. *)
Definition ext_Resource (fs : gmap string Z) (path : string) : Catalog.resource :=
  [("ext", PyStr (if String.eqb path "/r/a" then "" else "txt"))].

Definition example_ext : Catalog.t :=
  let c0 := Catalog.install "ext" (IString (StringIndex.init true))
              (Catalog.init "/r" ext_Resource) in
  let fs : gmap string Z := {[ "/r/a" := 1; "/r/b.txt" := 2 ]} in
  match Catalog._add_update fs [1] "/r/a" c0 with
  | Some (_, c1, draws) =>
      match Catalog._add_update fs draws "/r/b.txt" c1 with
      | Some (_, c2, _) => c2
      | None => c1
      end
  | None => c0
  end.

(** ** indices.py: String.in_ *)

(** [s.rstrip()] and [s.strip()]: whitespace off the ends. *)
Fixpoint rstrip_ws (s : string) : string :=
  match s with
  | EmptyString => EmptyString
  | String a s' =>
      match rstrip_ws s' with
      | EmptyString => if is_space a then EmptyString else String a EmptyString
      | r => String a r
      end
  end.

Definition strip (s : string) : string := rstrip_ws (lstrip_ws s).

(** [results.sort()] on the [(len(result), result)] pairs: smallest first.
    Python orders pairs of one length by their sets; here they keep their
    order, and the union that follows does not depend on it. *)
Definition shorter (a b : nat * ridset) : Prop := (a.1 ≤ b.1)%nat.

Global Instance shorter_dec : RelDecision shorter.
Proof. intros a b. unfold shorter. apply _. Defined.

Definition sort_results (results : list (nat * ridset)) : list (nat * ridset) :=
  merge_sort shorter results.

(** [String.in_(self, arg)] for a string [arg]. *)
Definition String_in_ (self : StringIndex.t) (arg : string) : outcome ridset :=
  if String.eqb arg "" then Raise ValueError
  else if (count "," arg =? 0)%nat then Raise ValueError
  else
    let arg := if StringIndex.case_sensitive self then arg else lower arg in
    let results :=
      (fun value =>
         let result := get_set (StringIndex.values self) value in
         (size result, result)) <$> (strip <$> split "," arg) in
    Return (multiunion (snd <$> sort_results results)).

(** ** catalog.py: Catalog.ignore and Catalog.crawl_once *)

(** [fnmatch.fnmatch(s, pattern)] for a pattern of literal characters, [*]
    and [?] (no bracket expression), on a platform whose [normcase] is the
    identity. *)
Fixpoint fnmatch_ (pattern : string) : string → bool :=
  match pattern with
  | EmptyString => fun s => String.eqb s ""
  | String c pattern' =>
      if Ascii.eqb c "*" then
        fix star (s : string) : bool :=
          fnmatch_ pattern' s
          || match s with
             | String _ s' => star s'
             | EmptyString => false
             end
      else if Ascii.eqb c "?" then
        fun s => match s with
                 | String _ s' => fnmatch_ pattern' s'
                 | EmptyString => false
                 end
      else
        fun s => match s with
                 | String a s' => Ascii.eqb a c && fnmatch_ pattern' s'
                 | EmptyString => false
                 end
  end.

(** [Catalog.ignore(self, path)]. *)
Definition ignore (path : string) : bool :=
  if fnmatch_ "*/.*" path then true
  else if fnmatch_ "*/_*" path then true
  else false.

(** The add/update loop of [crawl_once] over [walk], the paths
    [join(dirpath, name)] in the order [os.walk] gives them: an [OSError]
    is printed and the loop goes on, any other exception leaves it.  The
    checkpoint commits do not change the catalog. *)
Fixpoint add_update_walk (fs : gmap string Z) (draws : list Z) (walk : list string)
    (self : Catalog.t) : option (outcome unit * Catalog.t * list Z) :=
  match walk with
  | [] => Some (Return tt, self, draws)
  | path :: walk' =>
      if ignore path then add_update_walk fs draws walk' self
      else
        match Catalog._add_update fs draws path self with
        | None => None
        | Some (Return _, self, draws) => add_update_walk fs draws walk' self
        | Some (Raise OSError, self, draws) => add_update_walk fs draws walk' self
        | Some (Raise e, self, draws) => Some (Raise e, self, draws)
        end
  end.

(** [Catalog.crawl_once(self)]: the root, the walk, then the unindex pass. *)
Definition crawl_once (fs : gmap string Z) (draws : list Z) (walk : list string)
    (self : Catalog.t) : option (outcome unit * Catalog.t * list Z) :=
  match Catalog._add_update fs draws (Catalog.root self) self with
  | None => None
  | Some (Raise e, self, draws) => Some (Raise e, self, draws)
  | Some (Return _, self, draws) =>
      match add_update_walk fs draws walk self with
      | None => None
      | Some (Raise e, self, draws) => Some (Raise e, self, draws)
      | Some (Return _, self, draws) =>
          let '(r, self) := Catalog.unindex fs self in
          Some (r, self, draws)
      end
  end.

(** ** collection.py: limit, __len__ and __iter__ *)

(** [Collection.__set_limit(self, value)]: the limit that is stored. *)
Definition set_limit (value : pyobj) : outcome (option Z) :=
  match value with
  | PyNone => Return None
  | PyStr s =>
      if isdigit s
      then if int s <? 1 then Raise ValueError else Return (Some (int s))
      else Raise TypeError
  | PyInt v => if v <? 1 then Raise ValueError else Return (Some v)
  end.

(** [if self.data is None: self.refresh()], then [self.data]. *)
Definition loaded (catalog : Catalog.t) : M Collection.t ridset :=
  fun self =>
    match Collection.data self with
    | Some data => (Return data, self)
    | None =>
        match Collection.refresh catalog self with
        | (Raise e, self) => (Raise e, self)
        | (Return _, self) => (Return (default ∅ (Collection.data self)), self)
        end
    end.

(** [Collection.__len__(self)] for a collection whose limit is [limit]. *)
Definition Collection_len (catalog : Catalog.t) (limit : option Z) : M Collection.t Z :=
  (data <- loaded catalog ;;
   let ndata := Z.of_nat (size data) in
   ret (match limit with
        | Some limit =>
            if negb (limit =? 0) && (ndata >? limit) then limit else ndata
        | None => ndata
        end))%py.

(** The rids of an [IISet], in increasing order. *)
Definition sorted_rids (data : ridset) : list Z := merge_sort Z.le (elements data).

(** The loop [for rid in self.data] of [__iter__], from the count [i]: the
    resources it yields, and how it ends ([KeyError] when [resources] has
    no such rid). *)
Fixpoint iter_rids (resources : gmap Z Catalog.resource) (limit : option Z)
    (rids : list Z) (i : Z) : list Catalog.resource * outcome unit :=
  match rids with
  | [] => ([], Return tt)
  | rid :: rids' =>
      if decide (Some i = limit) then ([], Return tt)
      else
        match resources !! rid with
        | None => ([], Raise KeyError)
        | Some resource_ =>
            let '(yielded, r) := iter_rids resources limit rids' (i + 1) in
            (resource_ :: yielded, r)
        end
  end.

(** [Collection.__iter__(self)] with no sort: what the generator yields
    when it is run to its end. *)
Definition Collection_iter (catalog : Catalog.t) (limit : option Z)
    : M Collection.t (list Catalog.resource * outcome unit) :=
  (data <- loaded catalog ;;
   ret (iter_rids (Catalog.resources catalog) limit (sorted_rids data) 0))%py.

(** The case-sensitive Path indices that [learn] builds: from a fresh
    index, any calls of [learn], each taken with the index it leaves
    behind, whether it returned or raised. *)
Inductive Path_learned : Path.t → Prop :=
| learned_init root :
    Path_learned (Path.init root true)
| learned_learn self rid value o self' :
    Path_learned self →
    Path.learn rid value self = (o, self') →
    Path_learned self'.

(** Every path of [path2rid] has its rid under each of its
    [(level, segment)] keys. *)
Definition Path_filed (self : Path.t) : Prop :=
  ∀ path rid k segment,
    Path.path2rid self !! path = Some rid →
    split os_sep path !! k = Some segment →
    rid ∈ get_set (Path.parts self) (Z.of_nat k, segment).

(** The collections the constructor and the constraint methods build, with
    any refreshes in between; the catalog may change from call to call. *)
Inductive built (attributes : Index → string → option Collection.method)
    : Collection.t → Prop :=
| built_init catalog constraint self :
    Collection.init attributes catalog constraint = Return self →
    built attributes self
| built_AND catalog constraint self o self' :
    built attributes self →
    Collection.AND attributes catalog constraint self = (o, self') →
    built attributes self'
| built_NOT catalog constraint self o self' :
    built attributes self →
    Collection.NOT attributes catalog constraint self = (o, self') →
    built attributes self'
| built_OR catalog constraint self o self' :
    built attributes self →
    Collection.OR attributes catalog constraint self = (o, self') →
    built attributes self'
| built_refresh catalog self o self' :
    built attributes self →
    Collection.refresh catalog self = (o, self') →
    built attributes self'.

(** A grouping as the methods leave it: a first term with no operation,
    then terms that each carry an operation and a call. *)
Definition well_grouped (grouping : list Collection.term) : Prop :=
  ∃ q call rest,
    grouping = (None, q, call) :: rest ∧
    Forall (λ t : Collection.term, is_Some t.1.1 ∧ is_Some t.2.1) rest.

(** * Properties *)

(** ** Strings *)

Lemma substring_middle (a m b : string) :
  substring (String.length a) (String.length m) (a ++ m ++ b) = m.
Proof.
  induction a as [|c a IH]; simpl.
  - induction m as [|c m IH]; simpl.
    + destruct b; reflexivity.
    + f_equal. exact IH.
  - exact IH.
Qed.

Lemma length_app (a b : string) :
  String.length (a ++ b) = (String.length a + String.length b)%nat.
Proof. induction a; simpl; auto. Qed.

Lemma app_empty_r (a : string) : a ++ "" = a.
Proof.
  induction a as [|c a IH]; [reflexivity|].
  change (String c (a ++ "") = String c a). by rewrite IH.
Qed.

Lemma slice_prefix (p t : string) : slice (p ++ t) 0 (len p) = p.
Proof.
  unfold slice, len. rewrite Nat.sub_0_r.
  exact (substring_middle "" p t).
Qed.

Lemma slice_from_suffix (t s : string) : slice_from (t ++ s) (len t) = s.
Proof.
  unfold slice_from, len. rewrite length_app.
  replace (String.length t + String.length s - String.length t)%nat
    with (String.length s) by lia.
  rewrite <- (app_empty_r s) at 2.
  apply substring_middle.
Qed.

Lemma slice_middle (a m b : string) :
  slice (a ++ m ++ b) (len a) (len a + len m) = m.
Proof.
  unfold slice, len.
  replace (String.length a + String.length m - String.length a)%nat
    with (String.length m) by lia.
  apply substring_middle.
Qed.

Lemma lower_app (a b : string) : lower (a ++ b) = lower a ++ lower b.
Proof.
  induction a as [|c a IH]; [reflexivity|].
  change (String (lower_ascii c) (lower (a ++ b)) = String (lower_ascii c) (lower a ++ lower b)).
  by rewrite IH.
Qed.

Lemma lower_length (a : string) : String.length (lower a) = String.length a.
Proof. induction a; simpl; congruence. Qed.

Lemma length_pos (s : string) : s ≠ "" → (0 < String.length s)%nat.
Proof. destruct s; simpl; [congruence | lia]. Qed.

(** ** One-to-many mappings *)

Section AddRid.
Context {K : Type} {HeqK : EqDecision K} {HcK : Countable K}.
Implicit Types (index : gmap K ridset) (key : K) (rid : Z).

Lemma add_rid_lookup index key rid :
  add_rid index key rid !! key = Some ({[rid]} ∪ get_set index key).
Proof.
  unfold add_rid, get_set. destruct (index !! key) eqn:E; simpl.
  - by rewrite lookup_insert_eq.
  - rewrite lookup_insert_eq. f_equal. set_solver.
Qed.

Lemma add_rid_lookup_ne index key key' rid :
  key ≠ key' → add_rid index key rid !! key' = index !! key'.
Proof.
  intros Hne. unfold add_rid.
  destruct (index !! key); by rewrite lookup_insert_ne.
Qed.

Lemma add_rid_here index key rid : rid ∈ get_set (add_rid index key rid) key.
Proof. unfold get_set at 1. rewrite add_rid_lookup. simpl. set_solver. Qed.

Lemma add_rid_keeps index key key' rid r :
  r ∈ get_set index key' → r ∈ get_set (add_rid index key rid) key'.
Proof.
  intros Hr. destruct (decide (key = key')) as [->|Hne].
  - unfold get_set at 1. rewrite add_rid_lookup. simpl. set_solver.
  - unfold get_set at 1. rewrite add_rid_lookup_ne by done. exact Hr.
Qed.
End AddRid.

Lemma fold_left_establish {A B : Type} (f : A → B → A) (P : A → Prop)
    (l : list B) (x : B) (a : A) :
  x ∈ l → (∀ a, P (f a x)) → (∀ a y, P a → P (f a y)) → P (fold_left f l a).
Proof.
  intros Hx Hest Hkeep. revert a.
  induction l as [|y l IH]; intros a; [by apply elem_of_nil in Hx|].
  apply elem_of_cons in Hx as [->|Hx]; simpl.
  - clear IH. generalize (f a y) (Hest a). clear a.
    induction l as [|z l IH]; intros a Ha; simpl; auto.
  - auto.
Qed.

Lemma fold_left_keep {A B : Type} (f : A → B → A) (P : A → Prop) (l : list B) (a : A) :
  P a → (∀ a y, P a → P (f a y)) → P (fold_left f l a).
Proof. intros Ha Hkeep. revert a Ha. induction l; simpl; auto. Qed.

(** ** String.learn files every substring *)

Section StringLearn.
Variables (value : string) (rid : Z).

Lemma learn_middles_keeps i m subs key r :
  r ∈ get_set m key →
  r ∈ get_set (StringIndex.learn_middles value rid i (m, subs)).1 key.
Proof.
  intros Hr. unfold StringIndex.learn_middles.
  apply (fold_left_keep _ (fun a => r ∈ get_set a.1 key)); [exact Hr|].
  intros [m' s'] k Hk. simpl in *. by apply add_rid_keeps.
Qed.

Lemma learn_middles_files i m subs k :
  (k < len value - i)%nat →
  rid ∈ get_set (StringIndex.learn_middles value rid i (m, subs)).1
                (slice value k (k + (i + 1))).
Proof.
  intros Hk. unfold StringIndex.learn_middles.
  apply (fold_left_establish _
           (fun a => rid ∈ get_set a.1 (slice value k (k + (i + 1)))) _ k).
  - apply elem_of_seq. lia.
  - intros [m' s']. simpl. apply add_rid_here.
  - intros [m' s'] y Hy. simpl in *. by apply add_rid_keeps.
Qed.

Lemma learn_step_beginnings a i :
  acc_beginnings (StringIndex.learn_step value rid a i)
  = add_rid (acc_beginnings a) (slice value 0 (i + 1)) rid.
Proof.
  destruct a as [[[b m] e] subs]. unfold StringIndex.learn_step.
  destruct (StringIndex.learn_middles value rid i (m, subs)). reflexivity.
Qed.

Lemma learn_step_endings a i :
  acc_endings (StringIndex.learn_step value rid a i)
  = add_rid (acc_endings a) (slice_from value i) rid.
Proof.
  destruct a as [[[b m] e] subs]. unfold StringIndex.learn_step.
  destruct (StringIndex.learn_middles value rid i (m, subs)). reflexivity.
Qed.

Lemma learn_step_middles a i :
  acc_middles (StringIndex.learn_step value rid a i)
  = (StringIndex.learn_middles value rid i (acc_middles a, a.2)).1.
Proof.
  destruct a as [[[b m] e] subs]. unfold StringIndex.learn_step.
  unfold acc_middles. simpl.
  destruct (StringIndex.learn_middles value rid i (m, subs)). reflexivity.
Qed.

Lemma learn_loop_beginnings a j :
  (0 < j ≤ len value)%nat →
  rid ∈ get_set (acc_beginnings
                   (fold_left (StringIndex.learn_step value rid) (seq 0 (len value)) a))
                (slice value 0 j).
Proof.
  intros Hj.
  apply (fold_left_establish _
           (fun a => rid ∈ get_set (acc_beginnings a) (slice value 0 j)) _ (j - 1)%nat).
  - apply elem_of_seq. lia.
  - intros a'. rewrite learn_step_beginnings.
    replace (j - 1 + 1)%nat with j by lia. apply add_rid_here.
  - intros a' y Hy. rewrite learn_step_beginnings. by apply add_rid_keeps.
Qed.

Lemma learn_loop_endings a i :
  (i < len value)%nat →
  rid ∈ get_set (acc_endings
                   (fold_left (StringIndex.learn_step value rid) (seq 0 (len value)) a))
                (slice_from value i).
Proof.
  intros Hi.
  apply (fold_left_establish _
           (fun a => rid ∈ get_set (acc_endings a) (slice_from value i)) _ i).
  - apply elem_of_seq. lia.
  - intros a'. rewrite learn_step_endings. apply add_rid_here.
  - intros a' y Hy. rewrite learn_step_endings. by apply add_rid_keeps.
Qed.

Lemma learn_loop_middles a k j :
  (0 < j)%nat → (k + j ≤ len value)%nat →
  rid ∈ get_set (acc_middles
                   (fold_left (StringIndex.learn_step value rid) (seq 0 (len value)) a))
                (slice value k (k + j)).
Proof.
  intros Hj Hk.
  apply (fold_left_establish _
           (fun a => rid ∈ get_set (acc_middles a) (slice value k (k + j))) _ (j - 1)%nat).
  - apply elem_of_seq. lia.
  - intros a'. rewrite learn_step_middles.
    replace (k + j)%nat with (k + (j - 1 + 1))%nat by lia.
    apply learn_middles_files. lia.
  - intros a' y Hy. rewrite learn_step_middles. by apply learn_middles_keeps.
Qed.
End StringLearn.

(** What [learn] leaves in the index, field by field. *)
Lemma String_learn_run (self : StringIndex.t) (rid : Z) (v : string) :
  let value := StringIndex.normalize self v in
  let a := fold_left (StringIndex.learn_step value rid) (seq 0 (len value))
             (StringIndex.beginnings self, StringIndex.middles self,
              StringIndex.endings self, []) in
  StringIndex.learn rid (PyStr v) self
  = (Return tt,
     {| StringIndex.case_sensitive := StringIndex.case_sensitive self;
        StringIndex.rids := <[rid := a.2]> (StringIndex.rids self);
        StringIndex.values := add_rid (StringIndex.values self) value rid;
        StringIndex.beginnings := acc_beginnings a;
        StringIndex.endings := acc_endings a;
        StringIndex.middles := acc_middles a |}).
Proof.
  intros value a. unfold StringIndex.learn. fold value. fold a.
  destruct a as [[[b m] e] subs]. reflexivity.
Qed.

Lemma String_learn_files (self : StringIndex.t) (rid : Z) (v : string) :
  ∃ self',
    StringIndex.learn rid (PyStr v) self = (Return tt, self') ∧
    rid ∈ StringIndex.is_ self' v ∧
    (∀ p t, p ≠ "" → v = p ++ t → rid ∈ StringIndex.startswith self' p) ∧
    (∀ t s, s ≠ "" → v = t ++ s → rid ∈ StringIndex.endswith self' s) ∧
    (∀ a m b, m ≠ "" → v = a ++ m ++ b → rid ∈ StringIndex.contains self' m).
Proof.
  eexists. split; [apply String_learn_run|].
  unfold StringIndex.is_, StringIndex.startswith, StringIndex.endswith,
    StringIndex.contains, StringIndex._substring, StringIndex.normalize. simpl.
  repeat split.
  - apply add_rid_here.
  - intros p t Hp ->.
    destruct (StringIndex.case_sensitive self).
    + rewrite <- (slice_prefix p t) at 3.
      apply learn_loop_beginnings. pose proof (length_pos p Hp).
      unfold len. rewrite length_app. lia.
    + rewrite lower_app. rewrite <- (slice_prefix (lower p) (lower t)) at 3.
      apply learn_loop_beginnings. pose proof (length_pos p Hp).
      unfold len. rewrite length_app, !lower_length. lia.
  - intros t s Hs ->.
    destruct (StringIndex.case_sensitive self).
    + rewrite <- (slice_from_suffix t s) at 3.
      apply learn_loop_endings. pose proof (length_pos s Hs).
      unfold len. rewrite length_app. lia.
    + rewrite lower_app. rewrite <- (slice_from_suffix (lower t) (lower s)) at 3.
      apply learn_loop_endings. pose proof (length_pos s Hs).
      unfold len. rewrite length_app, !lower_length. lia.
  - intros a m b Hm ->.
    destruct (StringIndex.case_sensitive self).
    + rewrite <- (slice_middle a m b) at 3.
      apply learn_loop_middles; pose proof (length_pos m Hm); unfold len.
      * lia.
      * rewrite !length_app. lia.
    + rewrite !lower_app. rewrite <- (slice_middle (lower a) (lower m) (lower b)) at 3.
      apply learn_loop_middles; pose proof (length_pos m Hm); unfold len.
      * rewrite lower_length. lia.
      * rewrite !length_app, !lower_length. lia.
Qed.

(** ** Path.learn *)

Lemma String_learn_returns (self : StringIndex.t) (rid : Z) (v : string) :
  (StringIndex.learn rid (PyStr v) self).1 = Return tt.
Proof. by rewrite String_learn_run. Qed.

Lemma Path_learn_relative (self : Path.t) (rid : Z) (v : string) :
  v ≠ "" → startswith v os_sep = false →
  Path.learn rid (PyStr v) self
  = (Raise ValueError,
     Path.set_base (StringIndex.learn rid (PyStr v) (Path.base self)).2 self).
Proof.
  intros Hv Hs. unfold Path.learn, bind, Path.inherited.
  pose proof (String_learn_returns (Path.base self) rid v) as Hr.
  destruct (StringIndex.learn rid (PyStr v) (Path.base self)) as [r b].
  simpl in Hr. subst r. rewrite Hs.
  destruct (String.eqb_spec v ""); [done|]. reflexivity.
Qed.

Lemma Path_learn_absolute (self : Path.t) (rid : Z) (v : string) :
  v = "" ∨ startswith v os_sep = true →
  ∃ self', Path.learn rid (PyStr v) self = (Return tt, self') ∧
    Path.path2rid self'
    !! rstrip os_sep (if Path.case_sensitive self then v else lower v) = Some rid.
Proof.
  intros Hv. unfold Path.learn, bind, Path.inherited.
  pose proof (String_learn_run (Path.base self) rid v) as Hr. cbv zeta in Hr.
  rewrite Hr. clear Hr.
  assert (negb (String.eqb v "") && negb (startswith v os_sep) = false) as ->.
  { destruct Hv as [->| ->]; [reflexivity|]. by rewrite andb_false_r. }
  eexists. split; [reflexivity|]. simpl.
  unfold Path.case_sensitive at 2. simpl.
  set (P := fun s : Path.t =>
    Path.path2rid s !! rstrip os_sep
      (if Path.case_sensitive self then v else lower v) = Some rid).
  apply (fold_left_keep (Path.learn_token rid) P).
  - unfold P. simpl. apply lookup_insert_eq.
  - intros a y Ha. unfold P, Path.learn_token in *.
    destruct (Path.rids _ !! rid); exact Ha.
Qed.

(** ** The substrings String.learn records *)

Lemma OOSet_insert_elem (k x : okey) (s : list okey) :
  x ∈ OOSet_insert k s ↔ x = k ∨ x ∈ s.
Proof.
  induction s as [|y s IH]; simpl.
  - rewrite list_elem_of_singleton. set_solver.
  - destruct (decide (k = y)) as [->|Hne].
    + set_solver.
    + destruct (okey_ltb k y); rewrite !elem_of_cons; [tauto|].
      rewrite IH. tauto.
Qed.

Lemma substring_prefix (m : nat) (s : string) : ∃ b, s = substring 0 m s ++ b.
Proof.
  revert m. induction s as [|c s IH]; intros m.
  - exists "". by destruct m.
  - destruct m as [|m]; simpl.
    + by exists (String c s).
    + destruct (IH m) as [b Hb]. exists b.
      change (String c s = String c (substring 0 m s ++ b)). by f_equal.
Qed.

Lemma substring_occurs (n m : nat) (s : string) : occurs_in (substring n m s) s.
Proof.
  revert n m. induction s as [|c s IH]; intros n m.
  - exists "", "". by destruct n, m.
  - destruct n as [|n].
    + destruct (substring_prefix m (String c s)) as [b Hb]. by exists "", b.
    + destruct (IH n m) as (a & b & Hab).
      exists (String c a), b. simpl.
      change (String c s = String c (a ++ substring n m s ++ b)). by f_equal.
Qed.

Lemma substring_length (n m : nat) (s : string) :
  (n + m ≤ String.length s)%nat → String.length (substring n m s) = m.
Proof.
  revert n m. induction s as [|c s IH]; intros n m Hnm; simpl in *.
  - assert (n = 0 ∧ m = 0)%nat as [-> ->] by lia. reflexivity.
  - destruct n as [|n]; simpl.
    + destruct m as [|m]; simpl; [done|]. rewrite IH; lia.
    + apply IH. lia.
Qed.

Section StringSubstrings.
Variables (value : string) (rid : Z).

Lemma slice_recorded i k :
  (i < len value)%nat → (k < len value - i)%nat →
  recorded value (KStr (slice value k (k + (i + 1)))).
Proof.
  intros Hi Hk. eexists. split; [reflexivity|]. split.
  - intros Hnil.
    assert (String.length (slice value k (k + (i + 1))) = (i + 1)%nat) as Hlen.
    { unfold slice. replace (k + (i + 1) - k)%nat with (i + 1)%nat by lia.
      apply substring_length. unfold len in *. lia. }
    rewrite Hnil in Hlen. simpl in Hlen. lia.
  - apply substring_occurs.
Qed.

Lemma learn_middles_recorded i m subs :
  (i < len value)%nat →
  (∀ x, x ∈ subs → recorded value x) →
  ∀ x, x ∈ (StringIndex.learn_middles value rid i (m, subs)).2 → recorded value x.
Proof.
  intros Hi Hsubs. unfold StringIndex.learn_middles.
  assert (∀ l (a : gmap string ridset * list okey),
    (∀ k, k ∈ l → (k < len value - i)%nat) →
    (∀ x, x ∈ a.2 → recorded value x) →
    ∀ x, x ∈ (fold_left
                (fun '(m, substrings) k =>
                   let part := slice value k (k + (i + 1)) in
                   (add_rid m part rid, OOSet_insert (KStr part) substrings))
                l a).2 → recorded value x) as Hgen.
  { induction l as [|k l IH]; intros [m' s'] Hl Ha x; simpl; [apply Ha|].
    apply IH.
    - intros k' Hk'. apply Hl. by right.
    - simpl. intros y [->|Hy]%OOSet_insert_elem.
      + apply slice_recorded; [done|]. apply Hl. by left.
      + by apply Ha. }
  apply Hgen; [|exact Hsubs].
  intros k Hk%elem_of_seq. lia.
Qed.

Lemma learn_step_recorded a i :
  (i < len value)%nat →
  (∀ x, x ∈ a.2 → recorded value x) →
  ∀ x, x ∈ (StringIndex.learn_step value rid a i).2 → recorded value x.
Proof.
  destruct a as [[[b m] e] subs]. intros Hi Ha x. unfold StringIndex.learn_step.
  pose proof (learn_middles_recorded i m subs Hi Ha x) as Hm.
  destruct (StringIndex.learn_middles value rid i (m, subs)). exact Hm.
Qed.

Lemma learn_loop_recorded a :
  (∀ x, x ∈ a.2 → recorded value x) →
  ∀ x, x ∈ (fold_left (StringIndex.learn_step value rid) (seq 0 (len value)) a).2 →
       recorded value x.
Proof.
  assert (∀ l a, (∀ i, i ∈ l → (i < len value)%nat) →
    (∀ x, x ∈ a.2 → recorded value x) →
    ∀ x, x ∈ (fold_left (StringIndex.learn_step value rid) l a).2 → recorded value x) as Hgen.
  { induction l as [|i l IH]; intros a' Hl Ha; simpl; [exact Ha|].
    apply IH.
    - intros i' Hi'. apply Hl. by right.
    - apply learn_step_recorded; [|exact Ha]. apply Hl. by left. }
  apply Hgen. intros i Hi%elem_of_seq. lia.
Qed.
End StringSubstrings.

(** ** String.forget *)

Lemma for_invariant {S A : Type} (R : S → S → Prop) (l : list A) (body : A → M S unit) :
  (∀ s, R s s) → (∀ s1 s2 s3, R s1 s2 → R s2 s3 → R s1 s3) →
  (∀ x s o s', x ∈ l → body x s = (o, s') → R s s') →
  ∀ s o s', for_ l body s = (o, s') → R s s'.
Proof.
  intros Hrefl Htrans. induction l as [|x l IH]; intros Hbody s o s' Hrun; simpl in Hrun.
  - unfold ret in Hrun. injection Hrun as _ <-. apply Hrefl.
  - unfold bind in Hrun. destruct (body x s) as [[[]|e] s1] eqn:Hx.
    + apply (Htrans _ s1).
      * eapply Hbody; [by left|exact Hx].
      * eapply IH; [|exact Hrun]. intros y ? ? ? Hy. apply Hbody. by right.
    + injection Hrun as _ <-. eapply Hbody; [by left|exact Hx].
Qed.

Lemma same_under_refl key s : same_under key s s.
Proof. by repeat split. Qed.

Lemma same_under_trans key s1 s2 s3 :
  same_under key s1 s2 → same_under key s2 s3 → same_under key s1 s3.
Proof.
  intros (H1 & H2 & H3) (H4 & H5 & H6).
  split; [congruence|]. split; [congruence|].
  intros index. by rewrite H6, H3.
Qed.

Lemma get_set_index index index' m self :
  StringIndex.get_index index' (StringIndex.set_index index m self)
  = if decide (index' = index) then m else StringIndex.get_index index' self.
Proof. destruct index, index'; reflexivity. Qed.

Lemma remove_rid_same_under index substring rid key self o self' :
  substring ≠ KStr key →
  StringIndex.remove_rid index substring rid self = (o, self') →
  same_under key self self'.
Proof.
  intros Hne Hrun. unfold StringIndex.remove_rid in Hrun.
  destruct substring as [s|]; [|injection Hrun as _ <-; apply same_under_refl].
  destruct (StringIndex.get_index index self !! s) as [set|] eqn:Hs;
    [|injection Hrun as _ <-; apply same_under_refl].
  destruct (decide (rid ∈ set)); injection Hrun as _ <-; [|apply same_under_refl].
  repeat split; try by destruct index.
  intros index'. rewrite get_set_index. destruct (decide (index' = index)) as [->|]; [|done].
  apply lookup_insert_ne. congruence.
Qed.

Lemma forget_index_same_under rid substring index key self o self' :
  substring ≠ KStr key →
  forget_index rid substring index self = (o, self') →
  same_under key self self'.
Proof.
  intros Hne Hrun. unfold forget_index, bind in Hrun.
  destruct (StringIndex.remove_rid index substring rid self) as [[[]|e] s1] eqn:Hr.
  - unfold StringIndex.self_substrings, raise in Hrun. injection Hrun as _ <-.
    by eapply remove_rid_same_under.
  - injection Hrun as _ <-. by eapply remove_rid_same_under.
Qed.

(** A turn of the inner loop never returns: it raises [KeyError] from
    [remove] or [AttributeError] from [self.substrings]; [rids] is as before. *)
Lemma forget_index_raises rid substring index self :
  ∃ e self', forget_index rid substring index self = (Raise e, self') ∧
             StringIndex.rids self' = StringIndex.rids self.
Proof.
  unfold forget_index, bind, StringIndex.remove_rid.
  destruct substring as [s|]; [|by eexists _, _].
  destruct (StringIndex.get_index index self !! s) as [set|]; [|by eexists _, _].
  destruct (decide (rid ∈ set)); [|by eexists _, _].
  eexists _, _. split; [reflexivity|]. by destruct index.
Qed.

Lemma String_forget_run (rid : Z) (self : StringIndex.t) :
  StringIndex.forget rid self
  = match StringIndex.rids self !! rid with
    | None => (Raise KeyError, self)
    | Some substrings =>
        bind (forget_loop rid substrings) (fun _ => StringIndex.rids_delitem rid) self
    end.
Proof.
  unfold StringIndex.forget, bind at 1, StringIndex.rids_getitem.
  destruct (StringIndex.rids self !! rid); reflexivity.
Qed.

Lemma forget_loop_same_under rid substrings key self o self' :
  KStr key ∉ substrings →
  forget_loop rid substrings self = (o, self') →
  same_under key self self'.
Proof.
  intros Hkey. unfold forget_loop.
  apply (for_invariant (same_under key)); [apply same_under_refl|apply same_under_trans|].
  intros x s o' s' Hx.
  apply (for_invariant (same_under key)); [apply same_under_refl|apply same_under_trans|].
  intros index s1 o1 s1' _. apply forget_index_same_under.
  intros ->. contradiction.
Qed.

Lemma forget_loop_raises rid x substrings self :
  ∃ e self', forget_loop rid (x :: substrings) self = (Raise e, self') ∧
             StringIndex.rids self' = StringIndex.rids self.
Proof.
  unfold forget_loop. simpl. unfold bind at 1. unfold bind at 1.
  destruct (forget_index_raises rid x StringIndex.Values self) as (e & s' & -> & Hr).
  by exists e, s'.
Qed.

(** [forget] touches no entry filed under a key outside [rids[rid]]. *)
Lemma String_forget_frame rid key self substrings o self' :
  StringIndex.rids self !! rid = Some substrings →
  KStr key ∉ substrings →
  StringIndex.forget rid self = (o, self') →
  StringIndex.case_sensitive self' = StringIndex.case_sensitive self ∧
  ∀ index, StringIndex.get_index index self' !! key = StringIndex.get_index index self !! key.
Proof.
  intros Hr Hkey. rewrite String_forget_run, Hr. unfold bind.
  destruct (forget_loop rid substrings self) as [[[]|e] s1] eqn:Hloop; intros Hrun.
  - apply forget_loop_same_under with (key := key) in Hloop as (Hc & _ & Hm); [|done].
    unfold StringIndex.rids_delitem in Hrun.
    destruct (StringIndex.rids s1 !! rid); injection Hrun as _ <-; by split.
  - injection Hrun as _ <-.
    apply forget_loop_same_under with (key := key) in Hloop as (Hc & _ & Hm); [by split|done].
Qed.

(** With something recorded under [rid], [forget] raises and leaves
    [rids[rid]] in place. *)
Lemma String_forget_raises rid self x substrings :
  StringIndex.rids self !! rid = Some (x :: substrings) →
  ∃ e self', StringIndex.forget rid self = (Raise e, self') ∧
             StringIndex.rids self' !! rid = Some (x :: substrings).
Proof.
  intros Hr. rewrite String_forget_run, Hr. unfold bind.
  destruct (forget_loop_raises rid x substrings self) as (e & s' & -> & Hrids).
  exists e, s'. by rewrite Hrids.
Qed.

(** When [forget] returns, [rid] is gone from [rids]. *)
Lemma String_forget_returns rid self self' :
  StringIndex.forget rid self = (Return tt, self') →
  StringIndex.rids self' !! rid = None.
Proof.
  rewrite String_forget_run.
  destruct (StringIndex.rids self !! rid) as [subs|]; [|done].
  unfold bind. destruct (forget_loop rid subs self) as [[[]|e] s1]; [|done].
  unfold StringIndex.rids_delitem.
  destruct (StringIndex.rids s1 !! rid); [|done].
  intros [= <-]. simpl. apply lookup_delete_eq.
Qed.

(** ** Learning a rid twice *)

Lemma String_learn_rids (self : StringIndex.t) (rid : Z) (v : string) :
  let value := StringIndex.normalize self v in
  StringIndex.rids (StringIndex.learn rid (PyStr v) self).2 !! rid
  = Some (fold_left (StringIndex.learn_step value rid) (seq 0 (len value))
            (StringIndex.beginnings self, StringIndex.middles self,
             StringIndex.endings self, [])).2.
Proof.
  intros value. pose proof (String_learn_run self rid v) as Hr. cbv zeta in Hr.
  rewrite Hr. simpl. apply lookup_insert_eq.
Qed.

Lemma String_learn_case (self : StringIndex.t) (rid : Z) (v : string) :
  StringIndex.case_sensitive (StringIndex.learn rid (PyStr v) self).2
  = StringIndex.case_sensitive self.
Proof.
  pose proof (String_learn_run self rid v) as Hr. cbv zeta in Hr. by rewrite Hr.
Qed.

Lemma String_learn_values (self : StringIndex.t) (rid : Z) (v : string) :
  StringIndex.values (StringIndex.learn rid (PyStr v) self).2
  = add_rid (StringIndex.values self) (StringIndex.normalize self v) rid.
Proof.
  pose proof (String_learn_run self rid v) as Hr. cbv zeta in Hr. by rewrite Hr.
Qed.

(** The set [learn] records under [rid] holds non-empty substrings of the
    value and nothing else. *)
Lemma String_learn_recorded (self : StringIndex.t) (rid : Z) (v : string) :
  ∃ substrings,
    StringIndex.rids (StringIndex.learn rid (PyStr v) self).2 !! rid = Some substrings ∧
    ∀ x, x ∈ substrings → recorded (StringIndex.normalize self v) x.
Proof.
  eexists. split; [apply String_learn_rids|].
  apply learn_loop_recorded. simpl. intros x Hx. by apply elem_of_nil in Hx.
Qed.

(** The substrings recorded do not depend on the mappings the loop starts
    from. *)
Lemma learn_middles_substrings value rid i m m' subs :
  (StringIndex.learn_middles value rid i (m, subs)).2
  = (StringIndex.learn_middles value rid i (m', subs)).2.
Proof.
  unfold StringIndex.learn_middles. generalize (seq 0 (len value - i)).
  intros l. revert m m' subs. induction l as [|k l IH]; intros m m' subs; simpl; [done|].
  apply IH.
Qed.

Lemma learn_loop_substrings value rid l b m e b' m' e' subs :
  (fold_left (StringIndex.learn_step value rid) l (b, m, e, subs)).2
  = (fold_left (StringIndex.learn_step value rid) l (b', m', e', subs)).2.
Proof.
  revert b m e b' m' e' subs.
  induction l as [|i l IH]; intros b m e b' m' e' subs; simpl; [done|].
  pose proof (learn_middles_substrings value rid i m m' subs) as Hs.
  destruct (StringIndex.learn_middles value rid i (m, subs)) as [m1 s1].
  destruct (StringIndex.learn_middles value rid i (m', subs)) as [m2 s2].
  simpl in Hs. subst s2. apply IH.
Qed.

(** ** Claims about String *)

(** C6.  After [learn(rid, v)] on any String index, [is_(v)] holds [rid], and
    so do [startswith(p)] for every non-empty prefix [p] of [v],
    [endswith(s)] for every non-empty suffix [s] and [contains(m)] for every
    non-empty contiguous substring [m]; the index lowercases both the value
    and the search argument when it is case-insensitive. *)
Theorem String_learn_searches (self : StringIndex.t) (rid : Z) (v : string) :
  ∃ self',
    StringIndex.learn rid (PyStr v) self = (Return tt, self') ∧
    rid ∈ StringIndex.is_ self' v ∧
    (∀ p t, p ≠ "" → v = p ++ t → rid ∈ StringIndex.startswith self' p) ∧
    (∀ t s, s ≠ "" → v = t ++ s → rid ∈ StringIndex.endswith self' s) ∧
    (∀ a m b, m ≠ "" → v = a ++ m ++ b → rid ∈ StringIndex.contains self' m).
Proof. apply String_learn_files. Qed.

Lemma String_learn_searches_witness :
  ∃ self',
    StringIndex.learn 7 (PyStr "a.TXT") (StringIndex.init false) = (Return tt, self') ∧
    7 ∈ StringIndex.is_ self' "a.TXT" ∧
    7 ∈ StringIndex.startswith self' "a." ∧
    7 ∈ StringIndex.endswith self' "TXT" ∧
    7 ∈ StringIndex.contains self' ".T".
Proof.
  destruct (String_learn_searches (StringIndex.init false) 7 "a.TXT")
    as (self' & Hrun & His & Hstarts & Hends & Hcontains).
  exists self'. split; [exact Hrun|]. split; [exact His|]. split; [|split].
  - apply (Hstarts "a." "TXT"); [discriminate|reflexivity].
  - apply (Hends "a." "TXT"); [discriminate|reflexivity].
  - apply (Hcontains "a" ".T" "XT"); [discriminate|reflexivity].
Defined.

(** C9, as amended.  Learning [rid] with [v1] and then with [v2] leaves
    [rid] under [is_(v1)]; [rids[rid]] then holds what learning [v2] alone
    records, non-empty substrings of [v2] only; so a later [forget(rid)],
    whatever its outcome, leaves untouched every entry filed under a key
    that is empty or does not occur in [v2], and [is_(v1)] keeps [rid]
    whenever [v1] is such a key. *)
Theorem String_relearn_keeps_first (self : StringIndex.t) (rid : Z) (v1 v2 : string) :
  ∃ s1 s2,
    StringIndex.learn rid (PyStr v1) self = (Return tt, s1) ∧
    StringIndex.learn rid (PyStr v2) s1 = (Return tt, s2) ∧
    rid ∈ StringIndex.is_ s2 v1 ∧
    StringIndex.rids s2 !! rid
      = StringIndex.rids (StringIndex.learn rid (PyStr v2) self).2 !! rid ∧
    (∃ substrings,
       StringIndex.rids s2 !! rid = Some substrings ∧
       ∀ x, x ∈ substrings → recorded (StringIndex.normalize self v2) x) ∧
    (∀ key o s3,
       StringIndex.forget rid s2 = (o, s3) →
       key = "" ∨ ¬ occurs_in key (StringIndex.normalize self v2) →
       ∀ index, StringIndex.get_index index s3 !! key
                = StringIndex.get_index index s2 !! key) ∧
    (∀ o s3,
       StringIndex.forget rid s2 = (o, s3) →
       StringIndex.normalize self v1 = ""
       ∨ ¬ occurs_in (StringIndex.normalize self v1) (StringIndex.normalize self v2) →
       rid ∈ StringIndex.is_ s3 v1).
Proof.
  pose proof (String_learn_returns self rid v1) as Hr1.
  pose proof (String_learn_case self rid v1) as Hc1.
  pose proof (String_learn_values self rid v1) as Hv1.
  destruct (StringIndex.learn rid (PyStr v1) self) as [o1 s1] eqn:E1.
  simpl in Hr1, Hc1, Hv1. subst o1.
  assert (StringIndex.normalize s1 v2 = StringIndex.normalize self v2) as Hn2.
  { unfold StringIndex.normalize. by rewrite Hc1. }
  pose proof (String_learn_returns s1 rid v2) as Hr2.
  pose proof (String_learn_case s1 rid v2) as Hc2.
  pose proof (String_learn_values s1 rid v2) as Hv2.
  pose proof (String_learn_rids s1 rid v2) as Hrids2.
  pose proof (String_learn_recorded s1 rid v2) as (subs & Hsubs & Hrec).
  destruct (StringIndex.learn rid (PyStr v2) s1) as [o2 s2] eqn:E2.
  simpl in Hr2, Hc2, Hv2, Hrids2, Hsubs. subst o2.
  rewrite Hn2 in Hrec.
  assert (rid ∈ StringIndex.is_ s2 v1) as His.
  { unfold StringIndex.is_, StringIndex._substring.
    rewrite Hv2, Hv1, Hc2, Hc1. apply add_rid_keeps.
    unfold StringIndex.normalize. apply add_rid_here. }
  assert (∀ key, key = "" ∨ ¬ occurs_in key (StringIndex.normalize self v2) →
                 KStr key ∉ subs) as Hout.
  { intros key Hkey Hin. destruct (Hrec _ Hin) as (m & [= <-] & Hm & Hocc).
    destruct Hkey; contradiction. }
  exists s1, s2. split; [done|]. split; [done|]. split; [exact His|].
  split; [|split; [|split]].
  - rewrite Hrids2, String_learn_rids. cbv zeta. rewrite Hn2. f_equal.
    apply learn_loop_substrings.
  - by exists subs.
  - intros key o s3 Hf Hkey.
    by destruct (String_forget_frame rid key s2 subs o s3 Hsubs (Hout key Hkey) Hf).
  - intros o s3 Hf Hkey.
    destruct (String_forget_frame rid _ s2 subs o s3 Hsubs (Hout _ Hkey) Hf) as [Hc Hm].
    specialize (Hm StringIndex.Values). simpl in Hm.
    unfold StringIndex.is_, StringIndex._substring, get_set in *.
    rewrite Hc, Hc2, Hc1 in *. unfold StringIndex.normalize in Hm.
    by rewrite Hm.
Qed.

Lemma String_relearn_keeps_first_witness :
  ∃ s1 s2 o s3,
    StringIndex.learn 1 (PyStr "old.txt") (StringIndex.init true) = (Return tt, s1) ∧
    StringIndex.learn 1 (PyStr "new.txt") s1 = (Return tt, s2) ∧
    StringIndex.forget 1 s2 = (o, s3) ∧
    1 ∈ StringIndex.is_ s3 "old.txt".
Proof.
  destruct (String_relearn_keeps_first (StringIndex.init true) 1 "old.txt" "new.txt")
    as (s1 & s2 & H1 & H2 & _ & _ & _ & _ & Hkeep).
  exists s1, s2, (StringIndex.forget 1 s2).1, (StringIndex.forget 1 s2).2.
  split; [exact H1|]. split; [exact H2|]. split; [by destruct (StringIndex.forget 1 s2)|].
  apply (Hkeep (StringIndex.forget 1 s2).1); [by destruct (StringIndex.forget 1 s2)|].
  right. intros (a & b & Hab).
  do 7 (destruct a as [|? a]; [discriminate|injection Hab as _ Hab]).
  destruct a; discriminate.
Defined.

(** C9, the claim as stated fails: with [v1 = "a"] and [v2 = "ab"] the
    second [learn] records ["a"] among the substrings of ["ab"], and
    [forget] takes [rid] out of [values["a"]] before it raises. *)
Lemma String_relearn_forget_removes_first :
  "a" ≠ "ab" ∧
  1 ∈ StringIndex.is_
        (StringIndex.learn 1 (PyStr "ab")
           (StringIndex.learn 1 (PyStr "a") (StringIndex.init true)).2).2 "a" ∧
  (StringIndex.forget 1
     (StringIndex.learn 1 (PyStr "ab")
        (StringIndex.learn 1 (PyStr "a") (StringIndex.init true)).2).2).1
  = Raise AttributeError ∧
  1 ∉ StringIndex.is_
        (StringIndex.forget 1
           (StringIndex.learn 1 (PyStr "ab")
              (StringIndex.learn 1 (PyStr "a") (StringIndex.init true)).2).2).2 "a".
Proof.
  split; [discriminate|]. split; [by vm_compute|]. split; [by vm_compute|].
  vm_compute. discriminate.
Qed.

(** C2, at the failing input: on an empty String index, [learn(1, "a")]
    followed by [forget(1)] raises [AttributeError] and leaves an index that
    is not the one before [learn]: [values["a"]] is an empty set and
    [rids[1]] is still there. *)
Theorem String_learn_forget_not_restored :
  ∃ s1 s2,
    StringIndex.learn 1 (PyStr "a") (StringIndex.init false) = (Return tt, s1) ∧
    StringIndex.forget 1 s1 = (Raise AttributeError, s2) ∧
    s2 ≠ StringIndex.init false ∧
    StringIndex.values s2 !! "a" = Some ∅ ∧
    StringIndex.rids s2 !! 1 = Some [KStr "a"].
Proof.
  eexists _, _. split; [by vm_compute|]. split; [by vm_compute|].
  split; [|split; by vm_compute].
  intros Heq. apply (f_equal (fun s => StringIndex.rids s !! 1)) in Heq.
  vm_compute in Heq. discriminate.
Qed.

(** On every String index where [rid] has nothing recorded, [learn] and
    then [forget] never give the index back. *)
Lemma String_learn_forget_never_restores (self : StringIndex.t) (rid : Z) (v : string) :
  StringIndex.rids self !! rid = None →
  rid ∉ get_set (StringIndex.values self) (StringIndex.normalize self v) →
  ∀ o s2,
    StringIndex.forget rid (StringIndex.learn rid (PyStr v) self).2 = (o, s2) →
    s2 ≠ self.
Proof.
  intros Hnone Hfresh o s2 Hf Heq. subst s2.
  pose proof (String_learn_recorded self rid v) as (subs & Hsubs & _).
  pose proof (String_learn_values self rid v) as Hv.
  pose proof (String_learn_case self rid v) as Hc.
  destruct subs as [|x subs].
  - destruct (String_forget_frame rid (StringIndex.normalize self v) _ [] o self Hsubs)
      as [_ Hm]; [by intros ?%elem_of_nil|exact Hf|].
    specialize (Hm StringIndex.Values). unfold StringIndex.get_index in Hm.
    rewrite Hv, add_rid_lookup in Hm.
    apply Hfresh. unfold get_set at 1. rewrite Hm. simpl. set_solver.
  - destruct (String_forget_raises rid _ x subs Hsubs) as (e & s' & Hf' & Hr).
    rewrite Hf in Hf'. injection Hf' as _ <-. congruence.
Qed.

(** [Path.forget] never returns: when the inherited [forget] comes back it
    has deleted [rids[rid]], which [Path.forget] reads next. *)
Lemma Path_forget_raises (self : Path.t) (rid : Z) :
  ∃ e self', Path.forget rid self = (Raise e, self').
Proof.
  unfold Path.forget, bind at 1, Path.inherited at 1.
  destruct (StringIndex.forget rid (Path.base self)) as [[[]|e] b] eqn:Hf;
    [|by eexists _, _].
  apply String_forget_returns in Hf.
  unfold bind at 1, Path.inherited at 1, StringIndex.rids_getitem. simpl.
  rewrite Hf. by eexists _, _.
Qed.

(** The call [index.forget(rid)] on an Enumeration is a [TypeError]. *)
Lemma Enumeration_forget_arity (e : Enumeration.t) (rid : Z) :
  Index_forget rid (IEnumeration e) = (Raise TypeError, IEnumeration e).
Proof. reflexivity. Qed.

(** C7, at the missing value: [learn(rid, None)] reads the unbound global
    [MARKER] and raises [NameError], whatever the default; nothing is
    stored. *)
Theorem Enumeration_learn_missing_value (self : Enumeration.t) (rid : Z) :
  Enumeration.learn rid PyNone self = (Raise NameError, self) ∧
  (∃ e, Enumeration.init [PyStr "a"; PyStr "b"] (Some (PyStr "a")) = Return e ∧
        Enumeration.learn 1 PyNone e = (Raise NameError, e) ∧
        1 ∉ Enumeration.is_ e (PyStr "a")).
Proof.
  split; [reflexivity|]. eexists. split; [reflexivity|]. split; [reflexivity|].
  vm_compute. discriminate.
Qed.

(** A value outside the permitted list is a [ValueError]. *)
Lemma Enumeration_learn_not_allowed (self : Enumeration.t) (rid : Z) (value : pyobj) :
  value ≠ PyNone → value ∉ Enumeration.allowed self →
  Enumeration.learn rid value self = (Raise ValueError, self).
Proof.
  intros Hv Hno. unfold Enumeration.learn, bind.
  destruct value; [done| |]; unfold get_self; by rewrite decide_False.
Qed.

(** A permitted value is stored, and [is_] finds the rid under it. *)
Lemma Enumeration_learn_allowed (self : Enumeration.t) (rid : Z) (value : pyobj) :
  value ≠ PyNone → value ∈ Enumeration.allowed self →
  ∃ self', Enumeration.learn rid value self = (Return tt, self') ∧
           rid ∈ Enumeration.is_ self' value ∧
           Enumeration.values self' !! rid = Some value.
Proof.
  intros Hv Hin. unfold Enumeration.learn, bind.
  destruct value; [done| |]; unfold get_self; rewrite decide_True by done;
    (eexists; split; [reflexivity|]; split;
       [apply add_rid_here|apply lookup_insert_eq]).
Qed.

(** ** Claims about Path.learn *)

(** C10.  [Path.learn] calls [String.learn] before it checks the value: for
    a non-empty value that does not start with the separator it raises
    [ValueError] with the index left as [String.learn] made it, [rid] filed
    in [values], [beginnings], [middles] and [endings]; and the empty value
    passes the check and is learned. *)
Theorem Path_learn_not_atomic (self : Path.t) (rid : Z) (v : string) :
  (v ≠ "" → startswith v os_sep = false →
   ∃ base',
     StringIndex.learn rid (PyStr v) (Path.base self) = (Return tt, base') ∧
     Path.learn rid (PyStr v) self = (Raise ValueError, Path.set_base base' self) ∧
     rid ∈ StringIndex.is_ base' v ∧
     rid ∈ StringIndex.startswith base' v ∧
     rid ∈ StringIndex.contains base' v ∧
     rid ∈ StringIndex.endswith base' v ∧
     (rid ∉ StringIndex.is_ (Path.base self) v → Path.set_base base' self ≠ self)) ∧
  (∃ self', Path.learn rid (PyStr "") self = (Return tt, self') ∧
            Path.path2rid self' !! "" = Some rid).
Proof.
  split.
  - intros Hv Hs.
    destruct (String_learn_files (Path.base self) rid v)
      as (base' & Hrun & His & Hstarts & Hends & Hcontains).
    exists base'. split; [exact Hrun|]. split.
    { rewrite (Path_learn_relative self rid v Hv Hs), Hrun. reflexivity. }
    split; [exact His|]. split.
    { apply (Hstarts v ""); [done|by rewrite app_empty_r]. }
    split.
    { apply (Hcontains "" v ""); [done|]. change (v = v ++ ""). by rewrite app_empty_r. }
    split.
    { by apply (Hends "" v). }
    intros Hfresh Heq. apply Hfresh.
    apply (f_equal Path.base) in Heq. simpl in Heq. by rewrite <- Heq.
  - destruct (Path_learn_absolute self rid "") as (self' & Hrun & Hpath); [by left|].
    exists self'. split; [exact Hrun|].
    by destruct (Path.case_sensitive self).
Qed.

Lemma Path_learn_not_atomic_witness :
  ∃ base',
    Path.learn 1 (PyStr "a/b") (Path.init "/r" true)
    = (Raise ValueError, Path.set_base base' (Path.init "/r" true)) ∧
    1 ∈ StringIndex.contains base' "a/b" ∧
    Path.set_base base' (Path.init "/r" true) ≠ Path.init "/r" true.
Proof.
  destruct (Path_learn_not_atomic (Path.init "/r" true) 1 "a/b") as [Hrel _].
  destruct Hrel as (base' & _ & Hrun & _ & _ & Hcontains & _ & Hne);
    [discriminate|reflexivity|].
  exists base'. split; [exact Hrun|]. split; [exact Hcontains|].
  apply Hne. vm_compute. discriminate.
Defined.

(** ** Path.below and Path.above *)

Lemma range_nil (a b : Z) : b ≤ a → range a b = [].
Proof. intros Hab. unfold range. by replace (Z.to_nat (b - a)) with 0%nat by lia. Qed.

Lemma range_cons (a b : Z) : a < b → range a b = a :: range (a + 1) b.
Proof.
  intros Hab. unfold range.
  replace (Z.to_nat (b - a)) with (S (Z.to_nat (b - (a + 1)))) by lia.
  simpl. f_equal; [lia|].
  rewrite <- fmap_S_seq, <- list_fmap_compose. apply list_fmap_ext.
  intros i x _. simpl. lia.
Qed.

Lemma tokens_lookup (parts : list string) (k : nat) :
  Path.tokens parts !! k = (fun seg => (Z.of_nat k, seg)) <$> parts !! k.
Proof.
  unfold Path.tokens, range. rewrite lookup_zip_with, list_lookup_fmap.
  replace (Z.to_nat (Z.of_nat (length parts) - 0)) with (length parts) by lia.
  destruct (parts !! k) as [seg|] eqn:Hk.
  - rewrite lookup_seq_lt by (by eapply lookup_lt_Some). reflexivity.
  - destruct (seq 0 (length parts) !! k); reflexivity.
Qed.

Lemma tokens_elem (parts : list string) (token_ : Z * string) :
  token_ ∈ Path.tokens parts ↔
  ∃ k, parts !! k = Some token_.2 ∧ token_.1 = Z.of_nat k.
Proof.
  rewrite list_elem_of_lookup. split.
  - intros [k Hk]. rewrite tokens_lookup in Hk. exists k.
    destruct (parts !! k); simplify_eq/=. done.
  - intros (k & Hk & Hl). exists k. rewrite tokens_lookup, Hk.
    destruct token_; simpl in *. by subst.
Qed.

Lemma split_not_nil (c : ascii) (s : string) : split c s ≠ [].
Proof.
  induction s as [|a s IH]; simpl; [done|].
  destruct (decide (a = c)); [done|]. by destruct (split c s).
Qed.

Lemma below_parts_some (self : Path.t) (l : list (Z * string)) (A : ridset) :
  (∀ token_, token_ ∈ l → is_Some (Path.parts self !! token_)) →
  ∃ rids, Path.below_parts self (Some A) l = Return (Some rids) ∧
          ∀ r, r ∈ rids ↔
               r ∈ A ∧ ∀ token_, token_ ∈ l → r ∈ get_set (Path.parts self) token_.
Proof.
  revert A. induction l as [|token_ l IH]; intros A Hl; simpl.
  - exists A. split; [done|]. intros r. split; [|tauto].
    intros Hr. split; [done|]. by intros ? ?%elem_of_nil.
  - destruct (Hl token_) as [set Hset]; [by left|]. rewrite Hset. simpl.
    destruct (IH (A ∩ set)) as (rids & Hrun & Hrids).
    { intros t Ht. apply Hl. by right. }
    exists rids. split; [exact Hrun|]. intros r. rewrite Hrids, elem_of_intersection.
    split.
    + intros [[HA Hs] Hrest]. split; [done|].
      intros t [->|Ht]%elem_of_cons; [|by apply Hrest].
      unfold get_set. by rewrite Hset.
    + intros [HA Hall]. split; [split; [done|]|].
      * specialize (Hall token_). unfold get_set in Hall. rewrite Hset in Hall.
        apply Hall. by left.
      * intros t Ht. apply Hall. by right.
Qed.

Lemma below_parts_tokens (self : Path.t) (l : list (Z * string)) :
  l ≠ [] →
  (∀ token_, token_ ∈ l → is_Some (Path.parts self !! token_)) →
  ∃ rids, Path.below_parts self None l = Return (Some rids) ∧
          ∀ r, r ∈ rids ↔ ∀ token_, token_ ∈ l → r ∈ get_set (Path.parts self) token_.
Proof.
  destruct l as [|token_ l]; [done|]. intros _ Hl. simpl.
  destruct (Hl token_) as [set Hset]; [by left|]. rewrite Hset. simpl.
  destruct (below_parts_some self l set) as (rids & Hrun & Hrids).
  { intros t Ht. apply Hl. by right. }
  exists rids. split; [exact Hrun|]. intros r. rewrite Hrids. split.
  - intros [Hs Hrest] t [->|Ht]%elem_of_cons; [|by apply Hrest].
    unfold get_set. by rewrite Hset.
  - intros Hall. split.
    + specialize (Hall token_). unfold get_set in Hall. rewrite Hset in Hall.
      apply Hall. by left.
    + intros t Ht. apply Hall. by right.
Qed.

(** A missing [(level, part)] key is a [KeyError]. *)
Lemma below_parts_KeyError (self : Path.t) (l : list (Z * string)) (acc : option ridset) :
  (∃ token_, token_ ∈ l ∧ Path.parts self !! token_ = None) →
  Path.below_parts self acc l = Raise KeyError.
Proof.
  revert acc. induction l as [|t l IH]; intros acc (token_ & Hin & Hnone).
  - by apply elem_of_nil in Hin.
  - simpl. destruct (Path.parts self !! t) as [set|] eqn:Ht; [|done].
    apply IH. apply elem_of_cons in Hin as [->|Hin]; [congruence|]. by exists token_.
Qed.

Lemma visited_levels_elem (self : Path.t) (a b : Z) (r : Z) :
  r ∈ multiunion (Path.visited_levels self (range a b)) ↔
  ∃ i, a ≤ i < b ∧ level_reached self a i ∧ r ∈ get_set (Path.levels self) i.
Proof.
  remember (Z.to_nat (b - a)) as n eqn:Hn. revert a Hn.
  induction n as [|n IH]; intros a Hn.
  - rewrite range_nil by lia. simpl. unfold multiunion. simpl.
    split; [by intros ?%elem_of_empty|]. intros (i & ? & _). lia.
  - rewrite range_cons by lia. simpl.
    destruct (Path.levels self !! a) as [set|] eqn:Ha.
    + unfold multiunion in *. simpl. rewrite elem_of_union, (IH (a + 1)) by lia.
      split.
      * intros [Hr|(i & Hi & Hreach & Hr)].
        -- exists a. split; [lia|]. split.
           ++ intros j Hj. replace j with a by lia. by rewrite Ha.
           ++ unfold get_set. by rewrite Ha.
        -- exists i. split; [lia|]. split; [|done].
           intros j Hj. destruct (decide (j = a)) as [->|]; [by rewrite Ha|].
           apply Hreach. lia.
      * intros (i & Hi & Hreach & Hr).
        destruct (decide (i = a)) as [->|Hne].
        -- left. unfold get_set in Hr. by rewrite Ha in Hr.
        -- right. exists i. split; [lia|]. split; [|done].
           intros j Hj. apply Hreach. lia.
    + unfold multiunion. simpl. split; [by intros ?%elem_of_empty|].
      intros (i & Hi & Hreach & _). destruct (Hreach a) as [x Hx]; [lia|]. congruence.
Qed.

Lemma fold_difference (l : list ridset) (A : ridset) :
  fold_left (fun rids set => difference rids (Some set)) l (Some A)
  = Some (A ∖ multiunion l).
Proof.
  revert A. induction l as [|set l IH]; intros A; simpl.
  - f_equal. unfold multiunion. simpl. set_solver.
  - rewrite IH. f_equal. unfold multiunion. simpl. set_solver.
Qed.

(** C5, as amended.  For an argument that parses to [(path, upper, lower)]:
    when [path] is not in [path2rid], [below] returns [None]; when it is and
    every [(l, segments[l])] is a key of [parts], [below] returns the rids
    that lie in [parts[(l, segments[l])]] for every level [l], without
    those of [levels[i]] for the [i] in [[level, level+upper)] that the loop
    reaches when [upper] is given, and only those of some such [levels[i]]
    with [i] in [[level, level+lower)] when [lower] is given. *)
Theorem Path_below_spec (self : Path.t) (arg path : string) (upper lower_ : option Z) :
  Path._path_and_limits self arg = Return (path, upper, lower_) →
  (Path.path2rid self !! path = None → Path.below self arg = Return None) ∧
  (is_Some (Path.path2rid self !! path) →
   (∀ l segment, split os_sep path !! l = Some segment →
                 is_Some (Path.parts self !! (Z.of_nat l, segment))) →
   ∃ rids,
     Path.below self arg = Return (Some rids) ∧
     ∀ r, r ∈ rids ↔
       (∀ l segment, split os_sep path !! l = Some segment →
                     r ∈ get_set (Path.parts self) (Z.of_nat l, segment)) ∧
       (∀ u, upper = Some u →
             ∀ i, Z.of_nat (length (split os_sep path)) - 1 ≤ i
                  < u + (Z.of_nat (length (split os_sep path)) - 1) →
                  level_reached self (Z.of_nat (length (split os_sep path)) - 1) i →
                  r ∉ get_set (Path.levels self) i) ∧
       (∀ lo, lower_ = Some lo →
              ∃ i, Z.of_nat (length (split os_sep path)) - 1 ≤ i
                   < lo + (Z.of_nat (length (split os_sep path)) - 1) ∧
                   level_reached self (Z.of_nat (length (split os_sep path)) - 1) i ∧
                   r ∈ get_set (Path.levels self) i)).
Proof.
  intros Hparse. unfold Path.below. rewrite Hparse. simpl. split.
  - by intros ->.
  - intros [rid Hrid] Hparts. rewrite Hrid.
    set (segments := split os_sep path) in *.
    set (level := Z.of_nat (length segments) - 1).
    destruct (below_parts_tokens self (Path.tokens segments)) as (S0 & Hrun & HS0).
    { pose proof (split_not_nil os_sep path) as Hne. fold segments in Hne.
      destruct segments as [|seg segs]; [done|].
      intros Hnil. pose proof (tokens_lookup (seg :: segs) 0) as Hl.
      rewrite Hnil in Hl. discriminate. }
    { intros [l seg] (k & Hk & Hl)%tokens_elem. simpl in *. subst l. by apply Hparts. }
    rewrite Hrun. simpl.
    assert (∀ r, r ∈ S0 ↔
              ∀ l segment, segments !! l = Some segment →
                           r ∈ get_set (Path.parts self) (Z.of_nat l, segment)) as HS0'.
    { intros r. rewrite HS0. split.
      - intros Hall l seg Hl. apply Hall, tokens_elem. by exists l.
      - intros Hall [l seg] (k & Hk & Hl)%tokens_elem. simpl in *. subst l.
        by apply Hall. }
    clear HS0 Hrun.
    destruct upper as [u|], lower_ as [lo|]; simpl.
    + rewrite fold_difference. simpl. eexists. split; [reflexivity|].
      intros r. rewrite elem_of_intersection, elem_of_difference, HS0', !visited_levels_elem.
      split.
      * intros [[H1 H2] H3]. split; [done|]. split.
        -- intros ? [= <-] i Hi Hreach Hr. apply H2. by exists i.
        -- by intros ? [= <-].
      * intros (H1 & H2 & H3). split; [split; [done|]|by apply H3].
        intros (i & Hi & Hreach & Hr). by eapply (H2 u).
    + rewrite fold_difference. eexists. split; [reflexivity|].
      intros r. rewrite elem_of_difference, HS0', visited_levels_elem.
      split.
      * intros [H1 H2]. split; [done|]. split; [|done].
        intros ? [= <-] i Hi Hreach Hr. apply H2. by exists i.
      * intros (H1 & H2 & _). split; [done|].
        intros (i & Hi & Hreach & Hr). by eapply (H2 u).
    + eexists. split; [reflexivity|].
      intros r. rewrite elem_of_intersection, HS0', visited_levels_elem.
      split.
      * intros [H1 H2]. split; [done|]. split; [done|]. by intros ? [= <-].
      * intros (H1 & _ & H3). split; [done|]. by apply H3.
    + exists S0. split; [reflexivity|]. intros r. rewrite HS0'.
      split; [|tauto]. intros H1. by repeat split.
Qed.

Lemma Path_below_spec_witness :
  ∃ rids,
    Path.below example_tree "/r 0:2" = Return (Some rids) ∧
    ∀ r, r ∈ rids →
         r ∈ get_set (Path.parts example_tree) (1, "r") ∧
         ∃ i, 1 ≤ i < 3 ∧ r ∈ get_set (Path.levels example_tree) i.
Proof.
  destruct (Path_below_spec example_tree "/r 0:2" "/r" (Some 0) (Some 2)) as [_ Hknown];
    [by vm_compute|].
  destruct Hknown as (rids & Hrun & Hrids).
  - vm_compute. eauto.
  - intros [|[|l]] segment; [intros [= <-]; vm_compute; eauto..|].
    intros Hl. by destruct l.
  - exists rids. split; [exact Hrun|]. intros r Hr.
    apply Hrids in Hr as (Hparts & _ & Hlower). split.
    + by apply (Hparts 1%nat "r").
    + destruct (Hlower 2 eq_refl) as (i & Hi & _ & Hlev).
      exists i. split; [|exact Hlev]. vm_compute in Hi. exact Hi.
Defined.

(** C5, the claim as stated fails: on a path that is not indexed [below]
    returns [None], not an empty rid-set. *)
Lemma Path_below_unknown_not_empty :
  Path.below (Path.init "/r" true) "/x" = Return None ∧
  Path.below (Path.init "/r" true) "/x" ≠ Return (Some ∅).
Proof. split; [by vm_compute|]. vm_compute. discriminate. Qed.

(** [None] is not the empty set for a Collection: [intersection] reads it as
    "no constraint". *)
Lemma intersection_None (A : ridset) :
  intersection (Some A) None = Some A ∧ intersection (Some A) (Some ∅) = Some ∅.
Proof. split; [done|]. simpl. f_equal. set_solver. Qed.

(** A case-insensitive index files the segments of the value as given and
    looks them up lowercased: [below] on an indexed path is a [KeyError]. *)
Lemma Path_below_case_insensitive_KeyError :
  ∃ self,
    Path.learn 1 (PyStr "/A") (Path.init "/" false) = (Return tt, self) ∧
    Path.path2rid self !! "/a" = Some 1 ∧
    Path.below self "/A" = Raise KeyError.
Proof. eexists. split; [by vm_compute|]. split; by vm_compute. Qed.

(** With [/a] at level 1 and [/a/b/c] at level 3 and nothing at level 2, the
    [upper] loop of [below("/a 3:")] stops at level 2: rid 2, at level 3,
    stays in the result. *)
Lemma Path_below_stops_at_missing_level :
  ∃ self,
    (Path.learn 1 (PyStr "/a") ;;; Path.learn 2 (PyStr "/a/b/c"))%py (Path.init "/" true)
    = (Return tt, self) ∧
    Path.below self "/a 3:" = Return (Some {[2]}).
Proof. eexists. split; by vm_compute. Qed.

(** [above] returns no rid-set on any index and any argument. *)
Lemma Path_above_no_set (self : Path.t) (arg : string) (rids : ridset) :
  Path.above self arg ≠ Return (Some rids).
Proof.
  unfold Path.above.
  destruct (Path._path_and_limits self arg) as [[[path upper] lower_]|e]; simpl; [|done].
  destruct (Path.path2rid self !! path); [|done].
  destruct (Path.above_ancestors self _ _ _) as [results|e]; simpl; [|done].
  by destruct (Path.multiunion_results results).
Qed.

(** C4, at the failing input: with [/] and [/a] indexed, [below] gives the
    rid-set [{2}] for the ancestor [/a] and the empty one for [/], and
    [above("/a")] returns [None]; on the tree under [/r], where the ancestor
    [/] is not indexed, it raises [TypeError]. *)
Theorem Path_above_returns_None :
  Path.path2rid example_rooted !! "/a" = Some 2 ∧
  Path.below example_rooted "/ 0:1" = Return (Some ∅) ∧
  Path.below example_rooted "/a 0:1" = Return (Some {[2]}) ∧
  Path.above example_rooted "/a" = Return None ∧
  Path.above example_tree "/r/sub" = Raise TypeError.
Proof. repeat split; by vm_compute. Qed.

(** ** Catalog._generate_rid *)

Lemma generate_rid_random_fresh (draws : list Z) (self : Catalog.t) rid draws' self' :
  Catalog._generate_rid_random draws self = Some (rid, draws', self') →
  (rid ∉ Catalog.rids self) ∧ rid ∈ draws ∧
  self' = Catalog.set_nextrid (Some (rid + 1)) self.
Proof.
  revert self. induction draws as [|d draws IH]; intros self Hrun; simpl in Hrun; [done|].
  destruct (decide (d ∉ Catalog.rids self)) as [Hd|Hd].
  - injection Hrun as <- <- <-. split; [done|]. split; [by left|done].
  - apply IH in Hrun as (Hfresh & Hin & ->). split; [done|]. split; [by right|done].
Qed.

(** The rid [_generate_rid] returns is not in [self.rids], and the next
    call starts from its successor. *)
Lemma generate_rid_fresh (draws : list Z) (self : Catalog.t) rid draws' self' :
  Catalog._generate_rid draws self = Some (rid, draws', self') →
  (rid ∉ Catalog.rids self) ∧
  self' = Catalog.set_nextrid (Some (rid + 1)) self.
Proof.
  unfold Catalog._generate_rid. destruct (Catalog._v_nextrid self) as [n|].
  - destruct (decide (n ∉ Catalog.rids self)).
    + by intros [= <- <- <-].
    + intros (H1 & _ & H2)%generate_rid_random_fresh. by split.
  - intros (H1 & _ & H2)%generate_rid_random_fresh. by split.
Qed.

(** Allocation is sequential while the next rid is free: no draw is used. *)
Lemma generate_rid_sequential (draws : list Z) (self : Catalog.t) (n : Z) :
  Catalog._v_nextrid self = Some n → n ∉ Catalog.rids self →
  Catalog._generate_rid draws self
  = Some (n, draws, Catalog.set_nextrid (Some (n + 1)) self).
Proof.
  intros Hn Hfree. unfold Catalog._generate_rid. rewrite Hn. by rewrite decide_True.
Qed.

(** On a taken rid the allocator draws again; it returns as soon as a draw is
    free. *)
Lemma generate_rid_random_returns (draws : list Z) (self : Catalog.t) :
  (∃ d, d ∈ draws ∧ d ∉ Catalog.rids self) →
  ∃ rid draws' self', Catalog._generate_rid_random draws self = Some (rid, draws', self').
Proof.
  revert self. induction draws as [|d draws IH]; intros self (x & Hin & Hfree).
  - by apply elem_of_nil in Hin.
  - simpl. destruct (decide (d ∉ Catalog.rids self)); [by eexists _, _, _|].
    apply IH. exists x. split; [|done].
    apply elem_of_cons in Hin as [->|Hin]; [contradiction|done].
Qed.

Lemma generate_rid_returns (draws : list Z) (self : Catalog.t) :
  (∃ d, d ∈ draws ∧ d ∉ Catalog.rids self) →
  ∃ rid draws' self', Catalog._generate_rid draws self = Some (rid, draws', self').
Proof.
  intros Hd. unfold Catalog._generate_rid. destruct (Catalog._v_nextrid self) as [n|].
  - destruct (decide (n ∉ Catalog.rids self)); [by eexists _, _, _|].
    by apply generate_rid_random_returns.
  - by apply generate_rid_random_returns.
Qed.

(** From a fresh start the rid is one of the draws, so within [[0, 2**31]],
    both ends included. *)
Lemma generate_rid_drawn (draws : list Z) (self : Catalog.t) rid draws' self' :
  Catalog._v_nextrid self = None →
  Forall Catalog.randint_0_2_31 draws →
  Catalog._generate_rid draws self = Some (rid, draws', self') →
  0 ≤ rid ≤ 2 ^ 31.
Proof.
  intros Hn Hdraws. unfold Catalog._generate_rid. rewrite Hn.
  intros (_ & Hin & _)%generate_rid_random_fresh.
  rewrite Forall_forall in Hdraws. by apply Hdraws.
Qed.

(** C8, at the failing input: on an empty catalog whose first draw is
    [2**31], a value [random.randint(0, 2**31)] can return, the rid is
    [2**31], outside [[0, 2**31)]; and from [_v_nextrid = 2**31 - 1] two
    sequential allocations give [2**31 - 1] and then [2**31]. *)
Theorem generate_rid_out_of_range :
  Catalog.randint_0_2_31 (2 ^ 31) ∧
  (∃ self',
     Catalog._generate_rid [2 ^ 31] (Catalog.init "/r" (fun _ _ => []))
     = Some (2 ^ 31, [], self') ∧
     ¬ (0 ≤ 2 ^ 31 < 2 ^ 31)) ∧
  (∃ self1 self2,
     Catalog._generate_rid []
       (Catalog.set_nextrid (Some (2 ^ 31 - 1)) (Catalog.init "/r" (fun _ _ => [])))
     = Some (2 ^ 31 - 1, [], self1) ∧
     Catalog._generate_rid [] self1 = Some (2 ^ 31, [], self2)).
Proof.
  split; [unfold Catalog.randint_0_2_31; lia|]. split.
  - eexists. split; [reflexivity|lia].
  - eexists _, _. split; reflexivity.
Qed.

(** ** Collection.refresh *)

Section CollectionDNF.
Variable attributes : Index → string → option Collection.method.
Variable catalog : Catalog.t.


End CollectionDNF.











(** ** The catalog invariant *)

Lemma maps_wf_inv (c : Catalog.t) : catalog_wf c → catalog_inv c.
Proof.
  intros (Hdom & Hsize & Hin & _). unfold catalog_inv.
  split; [by rewrite <- Hdom, size_dom|]. split; [done|].
  intros path rid modtime Hp. split; [by eapply Hin|].
  apply elem_of_dom. rewrite Hdom. by eapply Hin.
Qed.

Lemma maps_wf_empty : maps_wf ∅ ∅ ∅.
Proof.
  split; [apply dom_empty_L|]. split; [by rewrite size_empty, map_size_empty|].
  split; intros *; by rewrite lookup_empty.
Qed.

(** A new path with a rid that is not in [rids]. *)
Lemma maps_wf_add ridtimes resources rids path rid modtime resource_ :
  maps_wf ridtimes resources rids →
  ridtimes !! path = None → rid ∉ rids →
  maps_wf (<[path := (rid, modtime)]> ridtimes) (<[rid := resource_]> resources)
          ({[rid]} ∪ rids).
Proof.
  intros (Hdom & Hsize & Hin & Hinj) Hpath Hrid.
  split; [by rewrite dom_insert_L, Hdom|]. split.
  { rewrite size_union by set_solver. rewrite size_singleton.
    rewrite map_size_insert_None by done. lia. }
  split.
  - intros p r m. rewrite lookup_insert. case_decide.
    + intros [= <- <-]. set_solver.
    + intros Hp. apply elem_of_union_r. by eapply Hin.
  - intros p1 p2 r m1 m2. rewrite !lookup_insert.
    repeat case_decide; subst.
    + done.
    + intros [= <- <-] Hp2. destruct Hrid. by eapply Hin.
    + intros Hp1 [= <- <-]. destruct Hrid. by eapply Hin.
    + apply Hinj.
Qed.

(** A known path keeps its rid. *)
Lemma maps_wf_update ridtimes resources rids path rid oldtime modtime resource_ :
  maps_wf ridtimes resources rids →
  ridtimes !! path = Some (rid, oldtime) →
  maps_wf (<[path := (rid, modtime)]> ridtimes) (<[rid := resource_]> resources)
          ({[rid]} ∪ rids).
Proof.
  intros (Hdom & Hsize & Hin & Hinj) Hpath.
  assert (rid ∈ rids) as Hrid by by eapply Hin.
  assert ({[rid]} ∪ rids = rids) as -> by set_solver.
  split; [rewrite dom_insert_L, Hdom; set_solver|]. split.
  { by rewrite map_size_insert_Some. }
  split.
  - intros p r m. rewrite lookup_insert. case_decide.
    + by intros [= <- <-].
    + apply Hin.
  - intros p1 p2 r m1 m2. rewrite !lookup_insert.
    repeat case_decide; subst.
    + done.
    + intros [= <- <-] Hp2. by eapply Hinj.
    + intros Hp1 [= <- <-]. by eapply Hinj.
    + apply Hinj.
Qed.

(** A path that goes, with its rid. *)
Lemma maps_wf_delete ridtimes resources rids path rid modtime :
  maps_wf ridtimes resources rids →
  ridtimes !! path = Some (rid, modtime) →
  maps_wf (delete path ridtimes) (delete rid resources) (rids ∖ {[rid]}).
Proof.
  intros (Hdom & Hsize & Hin & Hinj) Hpath.
  assert (rid ∈ rids) as Hrid by by eapply Hin.
  split; [by rewrite dom_delete_L, Hdom|]. split.
  { rewrite size_difference by set_solver. rewrite size_singleton.
    rewrite map_size_delete_Some by done. lia. }
  split.
  - intros p r m. rewrite lookup_delete. case_decide; [done|].
    intros Hp. apply elem_of_difference. split; [by eapply Hin|].
    intros ->%elem_of_singleton. by eapply H, Hinj.
  - intros p1 p2 r m1 m2. rewrite !lookup_delete.
    repeat case_decide; try done. apply Hinj.
Qed.

Lemma index_resource_wf (fs : gmap string Z) (path : string) (rid modtime : Z)
    (c : Catalog.t) c' :
  catalog_wf c →
  (Catalog.ridtimes c !! path = None ∧ rid ∉ Catalog.rids c)
  ∨ (∃ oldtime, Catalog.ridtimes c !! path = Some (rid, oldtime)) →
  Catalog.index_resource fs path rid modtime c = (Return tt, c') →
  catalog_wf c'.
Proof.
  intros Hwf Hcase. unfold Catalog.index_resource.
  destruct (Catalog.learn_all _ rid (Catalog.indices c)) as [[[]|e] l]; [|done].
  destruct (int32 rid); [|done]. intros [= <-].
  unfold catalog_wf. simpl. destruct Hcase as [[Hnew Hfresh]|[oldtime Hold]].
  - by apply maps_wf_add.
  - by eapply maps_wf_update.
Qed.

Lemma add_update_wf (fs : gmap string Z) (draws : list Z) (path : string)
    (c : Catalog.t) c' draws' :
  catalog_wf c →
  Catalog._add_update fs draws path c = Some (Return tt, c', draws') →
  catalog_wf c'.
Proof.
  intros Hwf. unfold Catalog._add_update.
  destruct (Catalog.ridtimes c !! path) as [[rid oldtime]|] eqn:Hpath.
  - destruct (Catalog.stat_mtime fs path) as [modtime|e]; [|done].
    destruct (decide (modtime ≠ oldtime)); [|by intros [= <- <-]].
    destruct (Catalog.index_resource fs path rid modtime c) as [o1 c1] eqn:Hidx.
    intros [= -> <- <-]. eapply index_resource_wf; [exact Hwf| |exact Hidx].
    right. by exists oldtime.
  - destruct (Catalog._generate_rid draws c) as [[[rid draws1] c1]|] eqn:Hgen; [|done].
    apply generate_rid_fresh in Hgen as [Hfresh ->].
    destruct (Catalog.stat_mtime fs path) as [modtime|e]; [|done].
    destruct (Catalog.index_resource fs path rid modtime _) as [o1 c1] eqn:Hidx.
    intros [= -> <- <-]. eapply index_resource_wf; [|left|exact Hidx]; done.
Qed.

(** What a turn of the unindex loop that completes has done. *)
Lemma unindex_path_returns (fs : gmap string Z) (path : string) (to_delete : list string)
    (c : Catalog.t) to_delete' c' :
  Catalog.unindex_path fs path to_delete c = (Return to_delete', c') →
  (to_delete' = to_delete ∧ c' = c)
  ∨ (∃ rid modtime,
       fs !! path = None ∧
       Catalog.ridtimes c !! path = Some (rid, modtime) ∧
       to_delete' = (to_delete ++ [path])%list ∧
       Catalog.ridtimes c' = Catalog.ridtimes c ∧
       Catalog.resources c' = delete rid (Catalog.resources c) ∧
       Catalog.rids c' = Catalog.rids c ∖ {[rid]}).
Proof.
  unfold Catalog.unindex_path.
  destruct (fs !! path) as [mtime|] eqn:Hfs; [intros [= <- <-]; by left|].
  destruct (Catalog.ridtimes c !! path) as [[rid modtime]|] eqn:Hpath; [|done].
  destruct (Catalog.forget_all rid (Catalog.indices c)) as [[[]|e] l]; [|done].
  simpl. destruct (Catalog.resources c !! rid); [|done].
  destruct (decide (rid ∈ Catalog.rids c)); [|done].
  intros [= <- <-]. right. by exists rid, modtime.
Qed.

Lemma unindex_loop_wf (fs : gmap string Z) (paths : list string) :
  ∀ (to_delete : list string) (c : Catalog.t) to_delete' c',
    NoDup paths → (∀ p, p ∈ paths → p ∉ to_delete) →
    maps_wf (foldr delete (Catalog.ridtimes c) to_delete)
            (Catalog.resources c) (Catalog.rids c) →
    Catalog.unindex_loop fs paths to_delete c = (Return to_delete', c') →
    Catalog.ridtimes c' = Catalog.ridtimes c ∧
    maps_wf (foldr delete (Catalog.ridtimes c) to_delete')
            (Catalog.resources c') (Catalog.rids c').
Proof.
  induction paths as [|path paths IH]; intros td c td' c' Hnodup Hnew Hwf Hrun.
  - by injection Hrun as <- <-.
  - simpl in Hrun. unfold bind in Hrun.
    destruct (Catalog.unindex_path fs path td c) as [[td1|e] c1] eqn:Hpath; [|done].
    apply NoDup_cons in Hnodup as [Hfirst Hnodup].
    apply unindex_path_returns in Hpath
      as [[Htd Hc]|(rid & modtime & _ & Hp & Htd & Hrt & Hrs & Hids)]; subst td1.
    + subst c1. apply (IH td c); [done| |done..]. intros p Hp. apply Hnew. by right.
    + destruct (IH (td ++ [path])%list c1 td' c') as [Hrt' Hwf']; [done| | |done|].
      * intros p Hin [Htd|Heq%list_elem_of_singleton]%elem_of_app.
        -- eapply Hnew; [by right|done].
        -- by subst p.
      * rewrite Hrt, Hrs, Hids, foldr_app. simpl. rewrite <- delete_foldr_delete.
        eapply maps_wf_delete; [exact Hwf|].
        rewrite lookup_foldr_delete_not_elem_of; [exact Hp|]. apply Hnew. by left.
      * rewrite Hrt in Hrt', Hwf'. by split.
Qed.

Lemma unindex_wf (fs : gmap string Z) (c c' : Catalog.t) :
  catalog_wf c → Catalog.unindex fs c = (Return tt, c') → catalog_wf c'.
Proof.
  intros Hwf. unfold Catalog.unindex, bind, get_self, modify.
  destruct (Catalog.unindex_loop fs (Catalog.ridtimes_keys c) [] c)
    as [[td|e] c1] eqn:Hloop; [|done].
  intros [= <-]. apply unindex_loop_wf in Hloop as [Hrt Hwf1]; [| |by intros ? _ ?%elem_of_nil|done].
  - unfold catalog_wf. simpl. by rewrite Hrt.
  - unfold Catalog.ridtimes_keys. rewrite merge_sort_Permutation. apply NoDup_elements.
Qed.

Lemma reachable_wf (c : Catalog.t) : reachable c → catalog_wf c.
Proof.
  induction 1 as [c|c name index _ IH|c n _ IH|c fs draws path c' draws' _ IH Hstep
                 |c fs c' _ IH Hstep].
  - apply maps_wf_empty.
  - exact IH.
  - exact IH.
  - by eapply add_update_wf.
  - by eapply unindex_wf.
Qed.

(** C1.  On every reachable catalog the invariant holds:
    [|resources| = |rids| = |ridtimes|], and every rid stored in [ridtimes]
    is in [rids] and a key of [resources]; [_add_update] on any path and
    the unindex pass, when they complete, give a catalog on which it holds
    again. *)
Theorem catalog_invariant_preserved (c : Catalog.t) :
  reachable c →
  catalog_inv c ∧
  (∀ fs draws path c' draws',
     Catalog._add_update fs draws path c = Some (Return tt, c', draws') →
     catalog_inv c') ∧
  (∀ fs c', Catalog.unindex fs c = (Return tt, c') → catalog_inv c').
Proof.
  intros Hreach. pose proof (reachable_wf c Hreach) as Hwf.
  split; [by apply maps_wf_inv|]. split.
  - intros fs draws path c' draws' Hstep. by eapply maps_wf_inv, add_update_wf.
  - intros fs c' Hstep. by eapply maps_wf_inv, unindex_wf.
Qed.

Lemma example_plain_reachable : reachable example_plain.
Proof.
  unfold example_plain.
  assert (reachable (Catalog.init "/r" example_Resource)) as H0 by apply reach_reset.
  destruct (Catalog._add_update example_fs [7] "/r/a.txt" (Catalog.init "/r" example_Resource))
    as [[[o1 c1] draws1]|] eqn:H1; [|exact H0].
  assert (o1 = Return tt) as -> by (vm_compute in H1; congruence).
  pose proof (reach_add_update _ _ _ _ _ _ H0 H1) as Hc1.
  destruct (Catalog._add_update example_fs draws1 "/r/b.txt" c1)
    as [[[o2 c2] draws2]|] eqn:H2; [|exact Hc1].
  assert (o2 = Return tt) as ->.
  { vm_compute in H1. injection H1 as <- <-. vm_compute in H2. congruence. }
  exact (reach_add_update _ _ _ _ _ _ Hc1 H2).
Qed.

Lemma catalog_invariant_preserved_witness :
  ∃ c',
    Catalog.unindex (delete "/r/b.txt" example_fs) example_plain = (Return tt, c') ∧
    catalog_inv c' ∧
    size (Catalog.rids c') = 1%nat ∧
    Catalog.ridtimes c' !! "/r/b.txt" = None.
Proof.
  exists (Catalog.unindex (delete "/r/b.txt" example_fs) example_plain).2.
  assert (Catalog.unindex (delete "/r/b.txt" example_fs) example_plain
          = (Return tt, (Catalog.unindex (delete "/r/b.txt" example_fs) example_plain).2))
    as Hrun by (by vm_compute).
  split; [exact Hrun|]. split.
  - destruct (catalog_invariant_preserved example_plain example_plain_reachable)
      as (_ & _ & Hunindex).
    exact (Hunindex _ _ Hrun).
  - split; by vm_compute.
Defined.


(** The tail of [_add_update], when it raises: [learn] raised and the
    three mappings are untouched, or the [resources] write refused the rid
    and [ridtimes] alone is written. *)
Lemma index_resource_raises (fs : gmap string Z) (path : string) (rid modtime : Z)
    (c : Catalog.t) e c' :
  Catalog.index_resource fs path rid modtime c = (Raise e, c') →
  Catalog.resources c' = Catalog.resources c ∧
  Catalog.rids c' = Catalog.rids c ∧
  ((Catalog.ridtimes c' = Catalog.ridtimes c ∧
    ∃ l, Catalog.learn_all (Catalog.Resource c fs path) rid (Catalog.indices c)
         = (Raise e, l))
   ∨ (e = TypeError ∧ int32 rid = false ∧
      Catalog.ridtimes c' = <[path := (rid, modtime)]> (Catalog.ridtimes c))).
Proof.
  unfold Catalog.index_resource.
  destruct (Catalog.learn_all _ rid (Catalog.indices c)) as [[[]|e'] l] eqn:Hlearn.
  - destruct (int32 rid) eqn:Hrange; [done|]. intros [= <- <-].
    split; [done|]. split; [done|]. by right.
  - intros [= <- <-]. split; [done|]. split; [done|]. left. split; [done|]. by exists l.
Qed.

(** A call of [_add_update] that raises has left [resources] and [rids] as
    they were, and [ridtimes] too unless the [resources] write refused the
    rid. *)
Lemma add_update_raise_maps (fs : gmap string Z) (draws : list Z) (path : string)
    (c : Catalog.t) e c' draws' :
  Catalog._add_update fs draws path c = Some (Raise e, c', draws') →
  Catalog.resources c' = Catalog.resources c ∧
  Catalog.rids c' = Catalog.rids c ∧
  (Catalog.ridtimes c' = Catalog.ridtimes c
   ∨ ∃ rid modtime,
       e = TypeError ∧ int32 rid = false ∧ fs !! path = Some modtime ∧
       Catalog.ridtimes c' = <[path := (rid, modtime)]> (Catalog.ridtimes c)).
Proof.
  unfold Catalog._add_update, Catalog.stat_mtime.
  destruct (Catalog.ridtimes c !! path) as [[rid oldtime]|].
  - destruct (fs !! path) as [modtime|] eqn:Hfs; [|intros [= <- <- <-]; by auto].
    destruct (decide (modtime ≠ oldtime)); [|done].
    destruct (Catalog.index_resource fs path rid modtime c) as [o c1] eqn:Hidx.
    intros [= -> <- <-].
    apply index_resource_raises in Hidx as (Hrs & Hids & [[Hrt _]|(-> & Hrange & Hrt)]).
    + by auto.
    + split; [done|]. split; [done|]. right. by exists rid, modtime.
  - destruct (Catalog._generate_rid draws c) as [[[rid draws1] c1]|] eqn:Hgen; [|done].
    apply generate_rid_fresh in Hgen as [_ ->].
    destruct (fs !! path) as [modtime|] eqn:Hfs; [|intros [= <- <- <-]; by auto].
    destruct (Catalog.index_resource fs path rid modtime _) as [o c1] eqn:Hidx.
    intros [= -> <- <-].
    apply index_resource_raises in Hidx as (Hrs & Hids & [[Hrt _]|(-> & Hrange & Hrt)]).
    + by auto.
    + split; [done|]. split; [done|]. right. by exists rid, modtime.
Qed.

(** An unindex pass that raises midway: with both files gone, [forget]
    returns for the rid of [/r/a], whose value is empty, and raises for the
    rid of [/r/b.txt]; [rids] has lost a rid that [ridtimes] still names.
    This is the state that [crawl] aborts. *)
Lemma unindex_raises_midway :
  ∃ c',
    Catalog.unindex ∅ example_ext = (Raise KeyError, c') ∧
    size (Catalog.rids c') = 1%nat ∧
    size (Catalog.ridtimes c') = 2%nat.
Proof. eexists. split; [by vm_compute|]. split; by vm_compute. Qed.

(** The re-index path of [_add_update] learns again without forgetting:
    when the file changes from stamp 10 to stamp 15 the rid keeps answering
    [is_("10")]. *)
Lemma Catalog_reindex_leaves_stale :
  ∃ c1 draws1 c2 draws2 s,
    Catalog._add_update {[ "/r/a" := 10 ]} [1] "/r/a" example_stamped
    = Some (Return tt, c1, draws1) ∧
    Catalog._add_update {[ "/r/a" := 15 ]} draws1 "/r/a" c1
    = Some (Return tt, c2, draws2) ∧
    Catalog.ridtimes c2 !! "/r/a" = Some (1, 15) ∧
    Collection.catalog_index c2 "stamp" = Some (IString s) ∧
    1 ∈ StringIndex.is_ s "15" ∧
    1 ∈ StringIndex.is_ s "10".
Proof.
  eexists _, _, _, _, _. split; [by vm_compute|]. split; [by vm_compute|].
  split; [by vm_compute|]. split; [by vm_compute|]. split; by vm_compute.
Qed.

(** ** String.in_ *)

Lemma multiunion_elem (l : list ridset) (rid : Z) :
  rid ∈ multiunion l ↔ ∃ X, X ∈ l ∧ rid ∈ X.
Proof. unfold multiunion. rewrite elem_of_union_list. naive_solver. Qed.

(** X1.  [String.in_] raises [ValueError] on an argument without a comma
    (the empty one included); otherwise it returns the rids filed in
    [values] under some comma-separated token of the argument, stripped of
    surrounding whitespace, the argument being lowercased first by a
    case-insensitive index. *)
Theorem String_in__spec (self : StringIndex.t) (arg : string) :
  (count "," arg = 0%nat → String_in_ self arg = Raise ValueError) ∧
  (count "," arg ≠ 0%nat →
   ∃ rids,
     String_in_ self arg = Return rids ∧
     ∀ rid, rid ∈ rids ↔
       ∃ token,
         token ∈ split "," (if StringIndex.case_sensitive self then arg else lower arg) ∧
         rid ∈ get_set (StringIndex.values self) (strip token)).
Proof.
  unfold String_in_. split.
  - intros ->. by destruct (String.eqb arg "").
  - intros Hc. destruct (String.eqb_spec arg "") as [->|_]; [done|].
    destruct (Nat.eqb_spec (count "," arg) 0) as [|_]; [done|].
    eexists. split; [reflexivity|]. intros rid.
    rewrite multiunion_elem. unfold sort_results. split.
    + intros (X & HX & Hrid).
      apply list_elem_of_fmap in HX as ([n Y] & -> & HY).
      rewrite merge_sort_Permutation in HY.
      apply list_elem_of_fmap in HY as (value & [= -> ->] & Hvalue).
      apply list_elem_of_fmap in Hvalue as (token & -> & Htoken).
      by exists token.
    + intros (token & Htoken & Hrid).
      exists (get_set (StringIndex.values self) (strip token)). split; [|done].
      apply list_elem_of_fmap.
      exists (size (get_set (StringIndex.values self) (strip token)),
              get_set (StringIndex.values self) (strip token)).
      split; [done|]. rewrite merge_sort_Permutation.
      apply list_elem_of_fmap. exists (strip token). split; [done|].
      apply list_elem_of_fmap. by exists token.
Qed.

Lemma String_in__spec_witness :
  ∃ self rids,
    StringIndex.learn 2 (PyStr "b.txt") (StringIndex.learn 1 (PyStr "a.txt")
      (StringIndex.init false)).2 = (Return tt, self) ∧
    String_in_ self "A.txt, b.txt" = Return rids ∧
    1 ∈ rids ∧ 2 ∈ rids.
Proof.
  eexists. 
  destruct (String_in__spec
              (StringIndex.learn 2 (PyStr "b.txt")
                 (StringIndex.learn 1 (PyStr "a.txt") (StringIndex.init false)).2).2
              "A.txt, b.txt") as [_ Hsome].
  destruct Hsome as (rids & Hrun & Hrids); [by vm_compute|].
  exists rids. split; [by vm_compute|]. split; [exact Hrun|]. split.
  - apply Hrids. exists "a.txt". split; [|by vm_compute].
    apply list_elem_of_In. vm_compute. by left.
  - apply Hrids. exists " b.txt". split; [|by vm_compute].
    apply list_elem_of_In. vm_compute. right. by left.
Defined.

(** ** What String.learn records and String.forget does with it *)

Lemma learn_middles_inserts (value : string) (rid : Z) (i : nat)
    (m : gmap string ridset) (subs : list okey) (x : okey) :
  x ∈ subs ∨ (∃ k, (k < len value - i)%nat ∧ x = KStr (slice value k (k + (i + 1)))) →
  x ∈ (StringIndex.learn_middles value rid i (m, subs)).2.
Proof.
  unfold StringIndex.learn_middles. intros [Hx|(k & Hk & ->)].
  - apply (fold_left_keep _ (fun a : gmap string ridset * list okey => x ∈ a.2)); [done|].
    intros [m' s'] y Hy. simpl in *. apply OOSet_insert_elem. by right.
  - apply (fold_left_establish _
             (fun a : gmap string ridset * list okey =>
                KStr (slice value k (k + (i + 1))) ∈ a.2) _ k).
    + apply elem_of_seq. lia.
    + intros [m' s']. simpl. apply OOSet_insert_elem. by left.
    + intros [m' s'] y Hy. simpl in *. apply OOSet_insert_elem. by right.
Qed.

Lemma learn_step_substrings (value : string) (rid : Z) a i :
  (StringIndex.learn_step value rid a i).2
  = (StringIndex.learn_middles value rid i (acc_middles a, a.2)).2.
Proof.
  destruct a as [[[b m] e] subs]. unfold StringIndex.learn_step, acc_middles. simpl.
  by destruct (StringIndex.learn_middles value rid i (m, subs)).
Qed.

Lemma learn_loop_inserts (value : string) (rid : Z) a (k j : nat) :
  (0 < j)%nat → (k + j ≤ len value)%nat →
  KStr (slice value k (k + j))
  ∈ (fold_left (StringIndex.learn_step value rid) (seq 0 (len value)) a).2.
Proof.
  intros Hj Hk.
  apply (fold_left_establish _
           (fun a => KStr (slice value k (k + j)) ∈ a.2) _ (j - 1)%nat).
  - apply elem_of_seq. lia.
  - intros a'. rewrite learn_step_substrings. apply learn_middles_inserts. right.
    exists k. split; [lia|]. by replace (j - 1 + 1)%nat with j by lia.
  - intros a' y Hy. rewrite learn_step_substrings. apply learn_middles_inserts. by left.
Qed.

(** X2.  After [learn(rid, v)], [rids[rid]] holds exactly the non-empty
    contiguous substrings of the value as the index files it (lowercased
    unless case-sensitive), whatever the index held before. *)
Theorem String_learn_records (self : StringIndex.t) (rid : Z) (v : string) :
  ∃ substrings,
    StringIndex.rids (StringIndex.learn rid (PyStr v) self).2 !! rid = Some substrings ∧
    ∀ x, x ∈ substrings ↔
         ∃ m, x = KStr m ∧ m ≠ "" ∧ occurs_in m (StringIndex.normalize self v).
Proof.
  destruct (String_learn_recorded self rid v) as (substrings & Hsubs & Honly).
  exists substrings. split; [exact Hsubs|]. intros x. split; [apply Honly|].
  intros (m & -> & Hm & a & b & Hv).
  rewrite String_learn_rids in Hsubs. injection Hsubs as <-.
  cbv zeta. rewrite Hv. rewrite <- (slice_middle a m b) at 1.
  apply learn_loop_inserts.
  - apply length_pos in Hm. unfold len. lia.
  - unfold len. rewrite !length_app. lia.
Qed.

(** X3.  [String.forget(rid)] raises [KeyError] on a rid the index has no
    record of, returns (deleting the record) only when the record is empty,
    and otherwise raises [KeyError] or [AttributeError] with the record
    still in place: it never completes for a rid learned with a non-empty
    value. *)
Theorem String_forget_outcomes (self : StringIndex.t) (rid : Z) :
  match StringIndex.rids self !! rid with
  | None => StringIndex.forget rid self = (Raise KeyError, self)
  | Some [] =>
      ∃ self', StringIndex.forget rid self = (Return tt, self') ∧
               StringIndex.rids self' = delete rid (StringIndex.rids self) ∧
               ∀ index, StringIndex.get_index index self' = StringIndex.get_index index self
  | Some (x :: substrings) =>
      ∃ e self', StringIndex.forget rid self = (Raise e, self') ∧
                 (e = KeyError ∨ e = AttributeError) ∧
                 StringIndex.rids self' !! rid = Some (x :: substrings)
  end.
Proof.
  rewrite String_forget_run.
  destruct (StringIndex.rids self !! rid) as [[|x substrings]|] eqn:Hr; [| |done].
  - unfold bind, forget_loop. simpl. unfold StringIndex.rids_delitem. rewrite Hr.
    eexists. split; [reflexivity|]. split; [done|]. by intros [].
  - unfold bind, forget_loop. simpl. unfold bind at 1. unfold bind at 1.
    unfold forget_index at 1, bind at 1, StringIndex.remove_rid.
    destruct x as [s|l p]; [|by eexists _, _; split; [|split; [left|]]].
    simpl. destruct (StringIndex.values self !! s) as [set|];
      [|by eexists _, _; split; [|split; [left|]]].
    destruct (decide (rid ∈ set)); [|by eexists _, _; split; [|split; [left|]]].
    eexists _, _. split; [reflexivity|]. split; [by right|]. exact Hr.
Qed.

(** ** Enumeration *)

(** X4.  On an Enumeration where [rid] is not learned and no empty set is
    stored under [value], [learn(rid, value)] followed by
    [forget(rid, anything)] gives back the index as it was. *)
Theorem Enumeration_learn_forget (self : Enumeration.t) (rid : Z) (value spurious : pyobj) :
  value ≠ PyNone → value ∈ Enumeration.allowed self →
  Enumeration.values self !! rid = None →
  rid ∉ get_set (Enumeration.rids self) value →
  Enumeration.rids self !! value ≠ Some ∅ →
  (Enumeration.learn rid value ;;; Enumeration.forget rid spurious)%py self
  = (Return tt, self).
Proof.
  intros Hv Hin Hrid Hfresh Hne.
  destruct (Enumeration_learn_allowed self rid value Hv Hin) as (self' & Hrun & _ & _).
  unfold bind. rewrite Hrun.
  assert (self' = {| Enumeration.allowed := Enumeration.allowed self;
                     Enumeration.default := Enumeration.default self;
                     Enumeration.values := <[rid := value]> (Enumeration.values self);
                     Enumeration.rids := add_rid (Enumeration.rids self) value rid |}) as ->.
  { unfold Enumeration.learn, bind, get_self, modify in Hrun.
    destruct value; [done| |]; rewrite decide_True in Hrun by done; by injection Hrun. }
  unfold Enumeration.forget. simpl. rewrite lookup_insert_eq, add_rid_lookup.
  rewrite decide_True by set_solver.
  assert (({[rid]} ∪ get_set (Enumeration.rids self) value) ∖ {[rid]}
          = get_set (Enumeration.rids self) value) as -> by set_solver.
  rewrite delete_insert_id by done.
  unfold get_set, add_rid in *.
  destruct (Enumeration.rids self !! value) as [set|] eqn:Hset; simpl.
  - rewrite decide_False.
    + rewrite insert_insert_eq, insert_id by done. by destruct self.
    + intros Hsize. apply size_empty_inv in Hsize. apply Hne. f_equal.
      by apply leibniz_equiv.
  - rewrite decide_True by reflexivity.
    rewrite delete_insert_id by done. by destruct self.
Qed.

Lemma Enumeration_learn_forget_witness :
  ∃ e,
    Enumeration.init [PyStr "file"; PyStr "dir"] None = Return e ∧
    (Enumeration.learn 4 (PyStr "dir") ;;; Enumeration.forget 4 PyNone)%py e
    = (Return tt, e).
Proof.
  eexists. split; [reflexivity|].
  apply Enumeration_learn_forget; [discriminate| |reflexivity| |].
  - apply list_elem_of_In. simpl. tauto.
  - vm_compute. discriminate.
  - vm_compute. discriminate.
Defined.

(** X5.  [Enumeration.learn] with a value that is not [None]: outside the
    permitted list it raises [ValueError] and the index is unchanged; inside
    it, [rid] is stored under the value, [is_(value)] holds it and the
    answers for the other values are as before. *)
Theorem Enumeration_learn_checks (self : Enumeration.t) (rid : Z) (value : pyobj) :
  value ≠ PyNone →
  (value ∉ Enumeration.allowed self →
   Enumeration.learn rid value self = (Raise ValueError, self)) ∧
  (value ∈ Enumeration.allowed self →
   ∃ self', Enumeration.learn rid value self = (Return tt, self') ∧
            rid ∈ Enumeration.is_ self' value ∧
            Enumeration.values self' !! rid = Some value ∧
            ∀ other, other ≠ value →
                     Enumeration.is_ self' other = Enumeration.is_ self other).
Proof.
  intros Hv. split; [by apply Enumeration_learn_not_allowed|].
  intros Hin. unfold Enumeration.learn, bind.
  destruct value; [done| |]; unfold get_self; rewrite decide_True by done;
    (eexists; split; [reflexivity|]; split; [apply add_rid_here|];
     split; [apply lookup_insert_eq|];
     intros other Hother; unfold Enumeration.is_, get_set; simpl;
     by rewrite add_rid_lookup_ne).
Qed.

Lemma Enumeration_learn_checks_witness :
  ∃ e e',
    Enumeration.init [PyStr "file"; PyStr "dir"] None = Return e ∧
    Enumeration.learn 1 (PyStr "link") e = (Raise ValueError, e) ∧
    Enumeration.learn 1 (PyStr "dir") e = (Return tt, e') ∧
    1 ∈ Enumeration.is_ e' (PyStr "dir").
Proof.
  eexists.
  edestruct (Enumeration_learn_checks
               (Enumeration.reset {| Enumeration.allowed := [PyStr "file"; PyStr "dir"];
                                     Enumeration.default := None;
                                     Enumeration.values := ∅; Enumeration.rids := ∅ |})
               1 (PyStr "dir")) as [_ Hok]; [discriminate|].
  destruct Hok as (e' & Hrun & His & _); [apply list_elem_of_In; simpl; tauto|].
  exists e'. split; [reflexivity|]. split; [reflexivity|]. by split.
Defined.

(** ** Path.forget and Path.above *)

(** X6.  [Path.forget] never returns, on any index and any rid: what it
    inherits from [String] deletes [rids[rid]] when it completes, and the
    next statement reads [rids[rid]]. *)
Theorem Path_forget_never_returns (self self' : Path.t) (rid : Z) :
  Path.forget rid self ≠ (Return tt, self').
Proof.
  destruct (Path_forget_raises self rid) as (e & s & ->). discriminate.
Qed.

(** X7.  [Path.above] returns no rid-set, on any index and any argument:
    its result is [None] or an exception. *)
Theorem Path_above_never_a_set (self : Path.t) (arg : string) (rids : ridset) :
  Path.above self arg ≠ Return (Some rids).
Proof. apply Path_above_no_set. Qed.

(** ** Path._path_and_limits *)

Lemma int_go_nonneg (s : string) (acc : Z) :
  0 ≤ acc → all_digits s = true → 0 ≤ int_go acc s.
Proof.
  revert acc. induction s as [|a s IH]; intros acc Hacc Hs; simpl in *; [done|].
  apply andb_prop in Hs as [Ha Hs]. apply IH; [|done].
  unfold is_digit in Ha. apply andb_prop in Ha as [Ha _].
  apply N.leb_le in Ha. lia.
Qed.

Lemma parse_limit_nonneg (s : string) (n : Z) :
  Path.parse_limit s = Return (Some n) → 0 ≤ n.
Proof.
  unfold Path.parse_limit. destruct (String.eqb s ""); [done|].
  destruct (isdigit s) eqn:Hd; [|done]. intros [= <-].
  apply int_go_nonneg; [done|]. by destruct s.
Qed.

Lemma lower_ascii_sep (c : ascii) : lower_ascii c = os_sep → c = os_sep.
Proof. destruct c as [[] [] [] [] [] [] [] []]; vm_compute; congruence. Qed.

Lemma lower_sep (s : string) : lower s = String os_sep "" → s = String os_sep "".
Proof.
  destruct s as [|c [|d s]]; simpl; try done.
  intros [= Hc]. by rewrite (lower_ascii_sep c Hc).
Qed.

(** X8.  When [_path_and_limits] returns, the limits it gives are
    non-negative, the upper one is at most the lower one when both are
    given, and the path is never the bare separator: the root is looked up
    as the empty string. *)
Theorem path_and_limits_bounds (self : Path.t) (arg path : string)
    (upper lower_ : option Z) :
  Path._path_and_limits self arg = Return (path, upper, lower_) →
  (∀ u, upper = Some u → 0 ≤ u) ∧
  (∀ l, lower_ = Some l → 0 ≤ l) ∧
  (∀ u l, upper = Some u → lower_ = Some l → u ≤ l) ∧
  path ≠ String os_sep "".
Proof.
  unfold Path._path_and_limits.
  assert (∀ p, (if Path.case_sensitive self
                then (if String.eqb p (String os_sep "") then "" else p)
                else lower (if String.eqb p (String os_sep "") then "" else p))
               ≠ String os_sep "") as Hroot.
  { intros p. destruct (String.eqb_spec p (String os_sep "")) as [->|Hp];
      destruct (Path.case_sensitive self); try done.
    intros Hl. by apply lower_sep in Hl. }
  destruct (split_ws None arg) as [|p [|limits [|x l]]]; simpl; [done| |  |done].
  - intros [= <- <- <-]. split; [done|]. split; [done|]. split; [done|]. apply Hroot.
  - destruct (negb (count ":" limits =? 1)%nat); [done|].
    destruct (split ":" limits) as [|su [|sl [|y l]]]; try done.
    destruct (Path.parse_limit su) as [[u|]|e] eqn:Hu; simpl; [| |done];
      (destruct (Path.parse_limit sl) as [[lo|]|e] eqn:Hl; simpl; [| |done]).
    + destruct (u >? lo) eqn:Hcmp; simpl; [done|].
      intros [= <- <- <-]. split; [|split; [|split]].
      * intros ? [= <-]. by eapply parse_limit_nonneg.
      * intros ? [= <-]. by eapply parse_limit_nonneg.
      * intros ? ? [= <-] [= <-]. lia.
      * apply Hroot.
    + intros [= <- <- <-]. split; [|split; [done|split; [done|apply Hroot]]].
      intros ? [= <-]. by eapply parse_limit_nonneg.
    + intros [= <- <- <-]. split; [done|]. split; [|split; [done|apply Hroot]].
      intros ? [= <-]. by eapply parse_limit_nonneg.
    + intros [= <- <- <-]. split; [done|]. split; [done|]. split; [done|]. apply Hroot.
Qed.

Lemma path_and_limits_bounds_witness :
  Path._path_and_limits example_tree "/r/sub 1:3" = Return ("/r/sub", Some 1, Some 3) ∧
  1 ≤ 3.
Proof.
  assert (Path._path_and_limits example_tree "/r/sub 1:3"
          = Return ("/r/sub", Some 1, Some 3)) as Hrun by (by vm_compute).
  split; [exact Hrun|].
  destruct (path_and_limits_bounds _ _ _ _ _ Hrun) as (_ & _ & Hle & _).
  by apply Hle.
Defined.

(** ** Path.below *)

(** X9.  On an indexed path one of whose [(level, segment)] pairs is not a
    key of [parts], [below] raises [KeyError]. *)
Theorem Path_below_missing_part (self : Path.t) (arg path : string)
    (upper lower_ : option Z) (k : nat) (segment : string) :
  Path._path_and_limits self arg = Return (path, upper, lower_) →
  is_Some (Path.path2rid self !! path) →
  split os_sep path !! k = Some segment →
  Path.parts self !! (Z.of_nat k, segment) = None →
  Path.below self arg = Raise KeyError.
Proof.
  intros Hparse [rid Hrid] Hk Hnone. unfold Path.below. rewrite Hparse. simpl.
  rewrite Hrid. rewrite below_parts_KeyError; [done|].
  exists (Z.of_nat k, segment). split; [|done]. apply tokens_elem. by exists k.
Qed.

Lemma Path_below_missing_part_witness :
  Path.below (Path.learn 1 (PyStr "/Docs") (Path.init "/" false)).2 "/Docs"
  = Raise KeyError.
Proof.
  apply (Path_below_missing_part _ "/Docs" "/docs" None None 1 "docs").
  - by vm_compute.
  - vm_compute. eauto.
  - reflexivity.
  - by vm_compute.
Defined.

(** ** What Path.learn files *)

Lemma learn_token_fields (rid : Z) (self : Path.t) (token_ : Z * string) :
  Path.path2rid (Path.learn_token rid self token_) = Path.path2rid self ∧
  Path.rid2path (Path.learn_token rid self token_) = Path.rid2path self ∧
  Path.levels (Path.learn_token rid self token_) = Path.levels self ∧
  Path.case_sensitive (Path.learn_token rid self token_) = Path.case_sensitive self ∧
  Path.parts (Path.learn_token rid self token_) = add_rid (Path.parts self) token_ rid.
Proof.
  unfold Path.learn_token. by destruct (Path.rids _ !! rid).
Qed.

Lemma learn_tokens_fields (rid : Z) (l : list (Z * string)) (self : Path.t) :
  Path.path2rid (fold_left (Path.learn_token rid) l self) = Path.path2rid self ∧
  Path.rid2path (fold_left (Path.learn_token rid) l self) = Path.rid2path self ∧
  Path.levels (fold_left (Path.learn_token rid) l self) = Path.levels self ∧
  Path.case_sensitive (fold_left (Path.learn_token rid) l self) = Path.case_sensitive self ∧
  (∀ t r, r ∈ get_set (Path.parts self) t →
          r ∈ get_set (Path.parts (fold_left (Path.learn_token rid) l self)) t) ∧
  (∀ t, t ∈ l → rid ∈ get_set (Path.parts (fold_left (Path.learn_token rid) l self)) t).
Proof.
  revert self. induction l as [|token_ l IH]; intros self; simpl.
  - repeat split; try done. by intros t ?%elem_of_nil.
  - destruct (IH (Path.learn_token rid self token_)) as (H1 & H2 & H3 & H4 & H5 & H6).
    destruct (learn_token_fields rid self token_) as (G1 & G2 & G3 & G4 & G5).
    split; [congruence|]. split; [congruence|]. split; [congruence|].
    split; [congruence|]. split.
    + intros t r Hr. apply H5. rewrite G5. by apply add_rid_keeps.
    + intros t [->|Ht]%elem_of_cons; [|by apply H6].
      apply H5. rewrite G5. apply add_rid_here.
Qed.

(** The index an accepted [learn] leaves, written out. *)
Lemma Path_learn_accepted (self : Path.t) (rid : Z) (v : string) :
  v = "" ∨ startswith v os_sep = true →
  let base' := (StringIndex.learn rid (PyStr v) (Path.base self)).2 in
  let path := rstrip os_sep (if Path.case_sensitive self then v else lower v) in
  let self1 :=
    fold_left (Path.learn_token rid) (Path.tokens (split os_sep v))
      {| Path.base := base'; Path.root := Path.root self;
         Path.path2rid := <[path := rid]> (Path.path2rid self);
         Path.rid2path := <[rid := path]> (Path.rid2path self);
         Path.parts := Path.parts self; Path.levels := Path.levels self |} in
  Path.learn rid (PyStr v) self
  = (Return tt,
     {| Path.base := Path.base self1; Path.root := Path.root self1;
        Path.path2rid := Path.path2rid self1; Path.rid2path := Path.rid2path self1;
        Path.parts := Path.parts self1;
        Path.levels :=
          add_rid (Path.levels self1) (Z.of_nat (length (split os_sep v)) - 1) rid |}).
Proof.
  intros Hv. cbv zeta. unfold Path.learn, bind, Path.inherited.
  pose proof (String_learn_returns (Path.base self) rid v) as Hr.
  pose proof (String_learn_case (Path.base self) rid v) as Hc.
  destruct (StringIndex.learn rid (PyStr v) (Path.base self)) as [r b].
  simpl in Hr, Hc. subst r.
  assert (negb (String.eqb v "") && negb (startswith v os_sep) = false) as ->.
  { destruct Hv as [->| ->]; [reflexivity|]. by rewrite andb_false_r. }
  unfold modify.
  assert (Path.case_sensitive (Path.set_base b self) = Path.case_sensitive self) as ->
    by exact Hc.
  reflexivity.
Qed.

(** What an accepted [learn] files. *)
Lemma Path_learn_returns (self : Path.t) (rid : Z) (v : string) :
  v = "" ∨ startswith v os_sep = true →
  ∃ self',
    Path.learn rid (PyStr v) self = (Return tt, self') ∧
    Path.path2rid self'
      !! rstrip os_sep (if Path.case_sensitive self then v else lower v) = Some rid ∧
    Path.rid2path self' !! rid
      = Some (rstrip os_sep (if Path.case_sensitive self then v else lower v)) ∧
    (∀ k segment, split os_sep v !! k = Some segment →
                  rid ∈ get_set (Path.parts self') (Z.of_nat k, segment)) ∧
    rid ∈ get_set (Path.levels self') (Z.of_nat (length (split os_sep v)) - 1).
Proof.
  intros Hv. eexists. split; [by apply Path_learn_accepted|]. simpl.
  match goal with
  | |- context [fold_left (Path.learn_token rid) ?l ?s] =>
      destruct (learn_tokens_fields rid l s) as (H1 & H2 & H3 & H4 & H5 & H6)
  end.
  rewrite H1, H2. simpl. split; [apply lookup_insert_eq|]. split; [apply lookup_insert_eq|].
  split.
  - intros k segment Hk. apply H6, tokens_elem. by exists k.
  - apply add_rid_here.
Qed.

(** X10.  [Path.learn] of the empty value or of a value that starts with
    the separator returns, and then [path2rid] maps the path (the value
    lowercased by a case-insensitive index, trailing separators off) to the
    rid, [rid2path] maps the rid back, the rid lies in [parts] under every
    [(level, segment)] of the value as it was given, and in [levels] at its
    last level. *)
Theorem Path_learn_files (self : Path.t) (rid : Z) (v : string) :
  v = "" ∨ startswith v os_sep = true →
  ∃ self',
    Path.learn rid (PyStr v) self = (Return tt, self') ∧
    Path.path2rid self'
      !! rstrip os_sep (if Path.case_sensitive self then v else lower v) = Some rid ∧
    Path.rid2path self' !! rid
      = Some (rstrip os_sep (if Path.case_sensitive self then v else lower v)) ∧
    (∀ k segment, split os_sep v !! k = Some segment →
                  rid ∈ get_set (Path.parts self') (Z.of_nat k, segment)) ∧
    rid ∈ get_set (Path.levels self') (Z.of_nat (length (split os_sep v)) - 1).
Proof. apply Path_learn_returns. Qed.

Lemma Path_learn_files_witness :
  ∃ self',
    Path.learn 9 (PyStr "/Docs/Notes/") (Path.init "/" false) = (Return tt, self') ∧
    Path.path2rid self' !! "/docs/notes" = Some 9 ∧
    9 ∈ get_set (Path.parts self') (1, "Docs") ∧
    9 ∈ get_set (Path.levels self') 3.
Proof.
  destruct (Path_learn_files (Path.init "/" false) 9 "/Docs/Notes/")
    as (self' & Hrun & Hpath & _ & Hparts & Hlevel); [by right|].
  exists self'. split; [exact Hrun|]. split; [exact Hpath|]. split; [|exact Hlevel].
  by apply (Hparts 1%nat "Docs").
Defined.

(** ** Path.below holds the path's own rid *)

Lemma rstrip_empty_head (c : ascii) (s : string) :
  rstrip c s = "" → ∃ t, split c s = "" :: t.
Proof.
  destruct s as [|a s]; simpl; [by exists []|].
  destruct (rstrip c s) eqn:Hr; [|done].
  destruct (decide (a = c)); [|done]. intros _. by eexists.
Qed.

Lemma split_cons (c a : ascii) (s : string) :
  split c (String a s)
  = if decide (a = c) then "" :: split c s
    else match split c s with
         | h :: t => String a h :: t
         | [] => [String a ""]
         end.
Proof. reflexivity. Qed.

Lemma rstrip_cons_empty (c a : ascii) (s : string) :
  rstrip c s = "" →
  rstrip c (String a s) = if decide (a = c) then "" else String a "".
Proof. intros Hr. simpl. by rewrite Hr. Qed.

Lemma rstrip_cons_nonempty (c a : ascii) (s : string) :
  rstrip c s ≠ "" → rstrip c (String a s) = String a (rstrip c s).
Proof. intros Hr. simpl. by destruct (rstrip c s). Qed.

(** The segments of a path without its trailing separators are the first
    segments of the path. *)
Lemma split_rstrip_lookup (c : ascii) (s : string) (k : nat) (segment : string) :
  split c (rstrip c s) !! k = Some segment → split c s !! k = Some segment.
Proof.
  revert k segment. induction s as [|a s IH]; intros k segment; [done|].
  destruct (decide (rstrip c s = "")) as [Hr|Hr].
  - rewrite (rstrip_cons_empty c a s Hr), (split_cons c a s).
    destruct (rstrip_empty_head c s Hr) as [t Ht]. rewrite Ht.
    destruct (decide (a = c)) as [->|Hne].
    + destruct k as [|k]; [done|]. by destruct k.
    + rewrite split_cons, decide_False by done. simpl.
      destruct k as [|k]; [done|]. by destruct k.
  - rewrite (rstrip_cons_nonempty c a s Hr), !split_cons.
    destruct (decide (a = c)) as [->|Hne].
    + destruct k as [|k]; [done|]. simpl. apply IH.
    + destruct (split c (rstrip c s)) as [|h' t'] eqn:Hs';
        [by destruct (split_not_nil c (rstrip c s))|].
      destruct (split c s) as [|h t] eqn:Hs; [by destruct (split_not_nil c s)|].
      pose proof (IH 0%nat h' eq_refl) as H0. simpl in H0. injection H0 as ->.
      destruct k as [|k]; [done|]. simpl. intros Hk. exact (IH (S k) segment Hk).
Qed.

Lemma Path_learn_case_sensitive (self : Path.t) (rid : Z) (value : pyobj) o self' :
  Path.learn rid value self = (o, self') →
  Path.case_sensitive self' = Path.case_sensitive self.
Proof.
  destruct value as [|v|z].
  - by intros [= _ <-].
  - assert (v = "" ∨ startswith v os_sep = true ∨
            (v ≠ "" ∧ startswith v os_sep = false)) as [Hv|[Hv|[Hv Hs]]].
    { destruct (String.eqb_spec v ""); [by left|right].
      destruct (startswith v os_sep); [by left|by right]. }
    3: { rewrite Path_learn_relative by done. intros [= _ <-].
         apply String_learn_case. }
    all: rewrite Path_learn_accepted by tauto; cbv zeta; intros [= _ <-];
      match goal with
      | |- context [fold_left (Path.learn_token ?r) ?l ?s] =>
          pose proof (learn_tokens_fields r l s) as (_ & _ & _ & H4 & _)
      end;
      (etrans; [exact H4|]); apply String_learn_case.
  - by intros [= _ <-].
Qed.

Lemma Path_learn_filed (self : Path.t) (rid : Z) (value : pyobj) o self' :
  Path.case_sensitive self = true → Path_filed self →
  Path.learn rid value self = (o, self') → Path_filed self'.
Proof.
  intros Hcs Hfiled. destruct value as [|v|z].
  - by intros [= _ <-].
  - assert (v = "" ∨ startswith v os_sep = true ∨
            (v ≠ "" ∧ startswith v os_sep = false)) as [Hv|[Hv|[Hv Hs]]].
    { destruct (String.eqb_spec v ""); [by left|right].
      destruct (startswith v os_sep); [by left|by right]. }
    3: { rewrite Path_learn_relative by done. intros [= _ <-]. exact Hfiled. }
    all: rewrite Path_learn_accepted by tauto; cbv zeta; intros [= _ <-];
      rewrite Hcs;
      match goal with
      | |- context [fold_left (Path.learn_token ?r) ?l ?s] =>
          destruct (learn_tokens_fields r l s) as (H1 & _ & _ & _ & H5 & H6)
      end;
      intros path r k segment; simpl; rewrite H1; simpl;
      rewrite lookup_insert; case_decide as Hp;
      [intros [= <-] Hk; subst path; apply H6, tokens_elem; exists k;
       split; [by apply split_rstrip_lookup|done]
      |intros Hr Hk; apply H5; by eapply Hfiled].
  - by intros [= _ <-].
Qed.

Lemma Path_learned_filed (self : Path.t) :
  Path_learned self → Path.case_sensitive self = true ∧ Path_filed self.
Proof.
  induction 1 as [root|self rid value o self' _ [IHc IHf] Hstep].
  - split; [done|]. intros path rid k segment Hp.
    change ((∅ : gmap string Z) !! path = Some rid) in Hp. by rewrite lookup_empty in Hp.
  - split.
    + by rewrite (Path_learn_case_sensitive _ _ _ _ _ Hstep).
    + by eapply Path_learn_filed.
Qed.

(** X11.  On a case-sensitive Path index built by [learn], [below] of an
    indexed path, with no limits, returns a rid-set that holds the rid
    [path2rid] gives for the path. *)
Theorem Path_below_holds_own_rid (self : Path.t) (arg path : string) (rid : Z) :
  Path_learned self →
  Path._path_and_limits self arg = Return (path, None, None) →
  Path.path2rid self !! path = Some rid →
  ∃ rids, Path.below self arg = Return (Some rids) ∧ rid ∈ rids.
Proof.
  intros [_ Hfiled]%Path_learned_filed Hparse Hrid.
  assert (∀ l segment, split os_sep path !! l = Some segment →
                       rid ∈ get_set (Path.parts self) (Z.of_nat l, segment)) as Hin.
  { intros l segment Hl. by eapply Hfiled. }
  unfold Path.below. rewrite Hparse. simpl. rewrite Hrid.
  destruct (below_parts_tokens self (Path.tokens (split os_sep path)))
    as (rids & Hrun & Hrids).
  - pose proof (split_not_nil os_sep path) as Hne.
    destruct (split os_sep path) as [|seg segs]; [done|].
    intros Hnil. pose proof (tokens_lookup (seg :: segs) 0) as Hl.
    rewrite Hnil in Hl. discriminate.
  - intros [l segment] (k & Hk & Hl)%tokens_elem. simpl in *. subst l.
    specialize (Hin k segment Hk). unfold get_set in Hin.
    destruct (Path.parts self !! (Z.of_nat k, segment)); [done|].
    by apply elem_of_empty in Hin.
  - rewrite Hrun. simpl. exists rids. split; [done|]. apply Hrids.
    intros [l segment] (k & Hk & Hl)%tokens_elem. simpl in *. subst l. by apply Hin.
Qed.

Lemma Path_learned_step (self : Path.t) (rid : Z) (value : pyobj) :
  Path_learned self → Path_learned (Path.learn rid value self).2.
Proof.
  intros Hself.
  apply (learned_learn self rid value (Path.learn rid value self).1); [exact Hself|].
  apply surjective_pairing.
Qed.

Lemma Path_below_holds_own_rid_witness :
  ∃ rids,
    Path.below
      (Path.learn 2 (PyStr "/r/a.txt")
         (Path.learn 1 (PyStr "/r") (Path.init "/r" true)).2).2 "/r"
    = Return (Some rids) ∧
    1 ∈ rids.
Proof.
  apply (Path_below_holds_own_rid _ "/r" "/r" 1).
  - apply Path_learned_step, Path_learned_step, learned_init.
  - by vm_compute.
  - by vm_compute.
Defined.

(** X12.  After [learn(rid, v)] of a value that starts with the separator,
    is a single word and is its own path (no trailing separator, and
    lowercase for a case-insensitive index), [is_(v)] returns [rid]. *)
Theorem Path_is__after_learn (self : Path.t) (rid : Z) (v : string) :
  startswith v os_sep = true →
  split_ws None v = [v] →
  rstrip os_sep (if Path.case_sensitive self then v else lower v) = v →
  ∃ self',
    Path.learn rid (PyStr v) self = (Return tt, self') ∧
    Path.is_ self' v = Return (Some rid).
Proof.
  intros Hs Hword Hpath.
  destruct (Path_learn_returns self rid v) as (self' & Hrun & Hp & _); [by right|].
  exists self'. split; [exact Hrun|].
  unfold Path.is_, Path._path_and_limits. rewrite Hword. simpl.
  rewrite Hpath in Hp. by rewrite Hp.
Qed.

Lemma Path_is__after_learn_witness :
  ∃ self',
    Path.learn 3 (PyStr "/r/sub") (Path.init "/r" true) = (Return tt, self') ∧
    Path.is_ self' "/r/sub" = Return (Some 3).
Proof. by apply Path_is__after_learn. Defined.

(** ** Catalog._generate_rid *)

(** X13.  The rid [_generate_rid] returns is not in [self.rids]; the call
    changes nothing of the catalog but [_v_nextrid], which becomes the
    successor of the rid; and while that successor is free the next call
    returns it without a draw. *)
Theorem generate_rid_allocates (draws : list Z) (self : Catalog.t) rid draws' self' :
  Catalog._generate_rid draws self = Some (rid, draws', self') →
  (rid ∉ Catalog.rids self) ∧
  self' = Catalog.set_nextrid (Some (rid + 1)) self ∧
  (rid + 1 ∉ Catalog.rids self' →
   ∀ more, Catalog._generate_rid more self'
           = Some (rid + 1, more, Catalog.set_nextrid (Some (rid + 1 + 1)) self')).
Proof.
  intros [Hfresh ->]%generate_rid_fresh. split; [done|]. split; [done|].
  intros Hnext more. by apply generate_rid_sequential.
Qed.

Lemma generate_rid_allocates_witness :
  ∃ self',
    Catalog._generate_rid [41] example_plain = Some (9, [41], self') ∧
    (9 ∉ Catalog.rids example_plain) ∧
    Catalog._v_nextrid self' = Some 10.
Proof.
  assert (Catalog._generate_rid [41] example_plain
          = Some (9, [41], Catalog.set_nextrid (Some 10) example_plain)) as Hrun
    by (by vm_compute).
  destruct (generate_rid_allocates _ _ _ _ _ Hrun) as (Hfresh & _ & _).
  eexists. split; [exact Hrun|]. split; [exact Hfresh|reflexivity].
Defined.

(** X14.  [_generate_rid] returns as soon as a draw is not in [self.rids]:
    with such a draw among [draws], it returns a rid, and the rid is the
    next sequential one or one of the draws. *)
Theorem generate_rid_terminates (draws : list Z) (self : Catalog.t) (d : Z) :
  d ∈ draws → d ∉ Catalog.rids self →
  ∃ rid draws' self',
    Catalog._generate_rid draws self = Some (rid, draws', self') ∧
    (Catalog._v_nextrid self = Some rid ∨ rid ∈ draws).
Proof.
  intros Hd Hfree.
  destruct (generate_rid_returns draws self) as (rid & draws' & self' & Hrun);
    [by exists d|].
  exists rid, draws', self'. split; [exact Hrun|].
  unfold Catalog._generate_rid in Hrun.
  destruct (Catalog._v_nextrid self) as [n|].
  - destruct (decide (n ∉ Catalog.rids self)).
    + injection Hrun as <- _ _. by left.
    + apply generate_rid_random_fresh in Hrun as (_ & Hin & _). by right.
  - apply generate_rid_random_fresh in Hrun as (_ & Hin & _). by right.
Qed.

Lemma generate_rid_terminates_witness :
  ∃ rid draws' self',
    Catalog._generate_rid [7; 8; 30]
      (Catalog.set_nextrid (Some 7) example_plain) = Some (rid, draws', self') ∧
    (Catalog._v_nextrid (Catalog.set_nextrid (Some 7) example_plain) = Some rid
     ∨ rid ∈ [7; 8; 30]).
Proof.
  apply (generate_rid_terminates _ _ 30).
  - apply list_elem_of_In. simpl. tauto.
  - vm_compute. discriminate.
Defined.

(** ** Catalog._add_update *)

Lemma index_resource_returns (fs : gmap string Z) (path : string) (rid modtime : Z)
    (c c' : Catalog.t) :
  Catalog.index_resource fs path rid modtime c = (Return tt, c') →
  Catalog.ridtimes c' = <[path := (rid, modtime)]> (Catalog.ridtimes c) ∧
  Catalog.resources c' = <[rid := Catalog.Resource c fs path]> (Catalog.resources c) ∧
  Catalog.rids c' = {[rid]} ∪ Catalog.rids c.
Proof.
  unfold Catalog.index_resource.
  destruct (Catalog.learn_all _ rid (Catalog.indices c)) as [[[]|e] l]; [|done].
  destruct (int32 rid); [|done]. by intros [= <-].
Qed.

(** What a call of [_add_update] that returns has done. *)
Lemma add_update_returns (fs : gmap string Z) (draws : list Z) (path : string)
    (c c' : Catalog.t) (draws' : list Z) :
  Catalog._add_update fs draws path c = Some (Return tt, c', draws') →
  ∃ rid modtime,
    fs !! path = Some modtime ∧
    Catalog.ridtimes c' !! path = Some (rid, modtime) ∧
    (∀ other, other ≠ path →
              Catalog.ridtimes c' !! other = Catalog.ridtimes c !! other) ∧
    match Catalog.ridtimes c !! path with
    | Some (old, oldtime) =>
        rid = old ∧ draws' = draws ∧ (oldtime = modtime → c' = c)
    | None => (rid ∉ Catalog.rids c) ∧ rid ∈ Catalog.rids c'
    end.
Proof.
  unfold Catalog._add_update, Catalog.stat_mtime.
  destruct (Catalog.ridtimes c !! path) as [[old oldtime]|] eqn:Hpath.
  - destruct (fs !! path) as [modtime|] eqn:Hfs; [|done].
    destruct (decide (modtime ≠ oldtime)) as [Hne|Heq].
    + destruct (Catalog.index_resource fs path old modtime c) as [o c1] eqn:Hidx.
      intros [= -> <- <-]. apply index_resource_returns in Hidx as (Hrt & _ & _).
      exists old, modtime. rewrite Hrt. split; [done|].
      split; [apply lookup_insert_eq|]. split.
      * intros other Hother. by apply lookup_insert_ne.
      * split; [done|]. split; [done|]. intros ->. done.
    + intros [= <- <-]. apply dec_stable in Heq. subst oldtime.
      exists old, modtime. by repeat split.
  - destruct (Catalog._generate_rid draws c) as [[[rid draws1] c1]|] eqn:Hgen; [|done].
    apply generate_rid_fresh in Hgen as [Hfresh ->].
    destruct (fs !! path) as [modtime|] eqn:Hfs; [|done].
    destruct (Catalog.index_resource fs path rid modtime _) as [o c1] eqn:Hidx.
    intros [= -> <- <-]. apply index_resource_returns in Hidx as (Hrt & _ & Hids).
    exists rid, modtime. rewrite Hrt, Hids. simpl. split; [done|].
    split; [apply lookup_insert_eq|]. split.
    + intros other Hother. by apply lookup_insert_ne.
    + split; [done|]. set_solver.
Qed.

(** X15.  When [_add_update(path)] returns, the file exists and [ridtimes]
    maps the path to a rid and the file's current modification time; the
    rid is the one the path had, or one that was not in [rids]; the entries
    of the other paths are untouched; and when the stored time was already
    the file's, the catalog is unchanged and no draw is used. *)
Theorem add_update_effect (fs : gmap string Z) (draws : list Z) (path : string)
    (c c' : Catalog.t) (draws' : list Z) :
  Catalog._add_update fs draws path c = Some (Return tt, c', draws') →
  ∃ rid modtime,
    fs !! path = Some modtime ∧
    Catalog.ridtimes c' !! path = Some (rid, modtime) ∧
    (∀ other, other ≠ path →
              Catalog.ridtimes c' !! other = Catalog.ridtimes c !! other) ∧
    match Catalog.ridtimes c !! path with
    | Some (old, oldtime) =>
        rid = old ∧ draws' = draws ∧ (oldtime = modtime → c' = c)
    | None => (rid ∉ Catalog.rids c) ∧ rid ∈ Catalog.rids c'
    end.
Proof. apply add_update_returns. Qed.

Lemma add_update_effect_witness :
  ∃ c' draws' rid,
    Catalog._add_update example_fs [50] "/r/c.md" example_plain
    = Some (Return tt, c', draws') ∧
    Catalog.ridtimes c' !! "/r/c.md" = Some (rid, 30) ∧
    Catalog.ridtimes c' !! "/r/a.txt" = Catalog.ridtimes example_plain !! "/r/a.txt".
Proof.
  assert (∃ c' draws', Catalog._add_update example_fs [50] "/r/c.md" example_plain
                       = Some (Return tt, c', draws')) as (c' & draws' & Hrun)
    by (eexists _, _; by vm_compute).
  destruct (add_update_effect _ _ _ _ _ _ Hrun) as (rid & modtime & Hfs & Hp & Hother & _).
  exists c', draws', rid. split; [exact Hrun|]. split.
  - assert (modtime = 30) as <-; [|exact Hp].
    vm_compute in Hfs. congruence.
  - by apply Hother.
Defined.

(** X16.  A call of [_add_update] that raises leaves [resources] and
    [rids] as they were.  It leaves [ridtimes] as it was too, unless the
    exception is the [TypeError] of the [resources] write for a rid outside
    32 bits: then [ridtimes[path]] is already written, with that rid and
    the file's modification time. *)
Theorem add_update_raise_effect (fs : gmap string Z) (draws : list Z) (path : string)
    (c c' : Catalog.t) (e : exn) (draws' : list Z) :
  Catalog._add_update fs draws path c = Some (Raise e, c', draws') →
  Catalog.resources c' = Catalog.resources c ∧
  Catalog.rids c' = Catalog.rids c ∧
  (Catalog.ridtimes c' = Catalog.ridtimes c
   ∨ ∃ rid modtime,
       e = TypeError ∧ int32 rid = false ∧ fs !! path = Some modtime ∧
       Catalog.ridtimes c' = <[path := (rid, modtime)]> (Catalog.ridtimes c)).
Proof. apply add_update_raise_maps. Qed.

(** Both cases occur: a file that is gone raises [OSError] with nothing
    written; on a catalog with no index, the draw [2**31] raises
    [TypeError] with [ridtimes] written and [resources] and [rids] not. *)
Lemma add_update_raise_effect_witness :
  (∃ c' draws',
     Catalog._add_update example_fs [50] "/r/gone" example_plain
     = Some (Raise OSError, c', draws') ∧
     Catalog.ridtimes c' = Catalog.ridtimes example_plain ∧
     Catalog.rids c' = Catalog.rids example_plain) ∧
  (∃ c' draws',
     Catalog._add_update example_fs [2 ^ 31] "/r/a.txt" (Catalog.init "/r" example_Resource)
     = Some (Raise TypeError, c', draws') ∧
     Catalog.ridtimes c' !! "/r/a.txt" = Some (2 ^ 31, 10) ∧
     Catalog.resources c' = ∅ ∧
     Catalog.rids c' = ∅).
Proof.
  split.
  - assert (∃ c' draws', Catalog._add_update example_fs [50] "/r/gone" example_plain
                         = Some (Raise OSError, c', draws')) as (c' & draws' & Hrun)
      by (eexists _, _; by vm_compute).
    exists c', draws'. split; [exact Hrun|].
    destruct (add_update_raise_effect _ _ _ _ _ _ _ Hrun)
      as (_ & Hids & [Hrt|(rid & modtime & He & _)]); [done|discriminate].
  - assert (∃ c' draws',
              Catalog._add_update example_fs [2 ^ 31] "/r/a.txt"
                (Catalog.init "/r" example_Resource)
              = Some (Raise TypeError, c', draws')) as (c' & draws' & Hrun)
      by (eexists _, _; by vm_compute).
    exists c', draws'. split; [exact Hrun|].
    destruct (add_update_raise_effect _ _ _ _ _ _ _ Hrun) as (Hrs & Hids & _).
    split; [|by split].
    vm_compute in Hrun. by injection Hrun as <- _.
Defined.

(** ** The unindex pass *)

Lemma unindex_path_cases (fs : gmap string Z) (path : string) (to_delete : list string)
    (c : Catalog.t) to_delete' c' :
  Catalog.unindex_path fs path to_delete c = (Return to_delete', c') →
  Catalog.ridtimes c' = Catalog.ridtimes c ∧
  Catalog.rids c' ⊆ Catalog.rids c ∧
  ((is_Some (fs !! path) ∧ to_delete' = to_delete)
   ∨ (fs !! path = None ∧ to_delete' = (to_delete ++ [path])%list)).
Proof.
  unfold Catalog.unindex_path.
  destruct (fs !! path) as [mtime|] eqn:Hfs.
  - intros [= <- <-]. split; [done|]. split; [done|]. left. by split; [eexists|].
  - destruct (Catalog.ridtimes c !! path) as [[rid modtime]|]; [|done].
    destruct (Catalog.forget_all rid (Catalog.indices c)) as [[[]|e] l]; [|done].
    simpl. destruct (Catalog.resources c !! rid); [|done].
    destruct (decide (rid ∈ Catalog.rids c)); [|done].
    intros [= <- <-]. simpl. split; [done|]. split; [set_solver|]. by right.
Qed.

Lemma unindex_loop_deleted (fs : gmap string Z) (paths : list string) :
  ∀ (to_delete : list string) (c : Catalog.t) to_delete' c',
    Catalog.unindex_loop fs paths to_delete c = (Return to_delete', c') →
    Catalog.ridtimes c' = Catalog.ridtimes c ∧
    Catalog.rids c' ⊆ Catalog.rids c ∧
    ∀ p, p ∈ to_delete' ↔ p ∈ to_delete ∨ (p ∈ paths ∧ fs !! p = None).
Proof.
  induction paths as [|path paths IH]; intros td c td' c' Hrun.
  - injection Hrun as <- <-. split; [done|]. split; [done|].
    intros p. split; [by left|]. intros [|[?%elem_of_nil _]]; done.
  - simpl in Hrun. unfold bind in Hrun.
    destruct (Catalog.unindex_path fs path td c) as [[td1|e] c1] eqn:Hpath; [|done].
    apply unindex_path_cases in Hpath as (Hrt & Hids & Hcase).
    apply IH in Hrun as (Hrt' & Hids' & Htd).
    split; [congruence|]. split; [set_solver|].
    intros p. rewrite Htd, elem_of_cons.
    destruct Hcase as [[[m Hm] ->]|[Hnone ->]].
    + split; [|naive_solver]. intros [?|[? ?]]; [by left|right].
      split; [by right|done].
    + rewrite elem_of_app, list_elem_of_singleton. split.
      * intros [[?| ->]|[? ?]]; [by left|right; by split; [left|]|right; by split; [right|]].
      * intros [?|[[ ->|?] ?]]; [by left; left|by left; right|by right].
Qed.

(** The entries an unindex pass that completes leaves. *)
Lemma unindex_entries (fs : gmap string Z) (c c' : Catalog.t) :
  Catalog.unindex fs c = (Return tt, c') →
  (∀ path, Catalog.ridtimes c' !! path
           = match fs !! path with
             | Some _ => Catalog.ridtimes c !! path
             | None => None
             end) ∧
  Catalog.rids c' ⊆ Catalog.rids c.
Proof.
  unfold Catalog.unindex, bind, get_self, modify.
  destruct (Catalog.unindex_loop fs (Catalog.ridtimes_keys c) [] c)
    as [[td|e] c1] eqn:Hloop; [|done].
  intros [= <-]. apply unindex_loop_deleted in Hloop as (Hrt & Hids & Htd).
  split; [|exact Hids]. intros path. simpl. rewrite Hrt.
  assert (path ∈ td ↔ is_Some (Catalog.ridtimes c !! path) ∧ fs !! path = None) as Hin.
  { rewrite Htd. unfold Catalog.ridtimes_keys.
    rewrite merge_sort_Permutation, elem_of_elements, elem_of_dom.
    split; [intros [?%elem_of_nil|]; done|by right]. }
  destruct (fs !! path) as [m|] eqn:Hfs.
  - apply lookup_foldr_delete_not_elem_of. rewrite Hin. by intros [_ ?].
  - destruct (Catalog.ridtimes c !! path) as [x|] eqn:Hp.
    + apply lookup_foldr_delete, Hin. by split; [eexists|].
    + destruct (decide (path ∈ td)).
      * by apply lookup_foldr_delete.
      * by rewrite lookup_foldr_delete_not_elem_of.
Qed.

(** X17.  An unindex pass that completes leaves in [ridtimes] exactly the
    entries of the paths that exist on the filesystem, each as it was, and
    adds no rid to [rids]. *)
Theorem unindex_keeps_existing (fs : gmap string Z) (c c' : Catalog.t) :
  Catalog.unindex fs c = (Return tt, c') →
  (∀ path, Catalog.ridtimes c' !! path
           = match fs !! path with
             | Some _ => Catalog.ridtimes c !! path
             | None => None
             end) ∧
  Catalog.rids c' ⊆ Catalog.rids c.
Proof. apply unindex_entries. Qed.

Lemma unindex_keeps_existing_witness :
  ∃ c',
    Catalog.unindex (delete "/r/a.txt" example_fs) example_plain = (Return tt, c') ∧
    Catalog.ridtimes c' !! "/r/a.txt" = None ∧
    Catalog.ridtimes c' !! "/r/b.txt" = Catalog.ridtimes example_plain !! "/r/b.txt".
Proof.
  assert (∃ c', Catalog.unindex (delete "/r/a.txt" example_fs) example_plain
                = (Return tt, c')) as [c' Hrun] by (eexists; by vm_compute).
  destruct (unindex_keeps_existing _ _ _ Hrun) as [Hrt _].
  exists c'. split; [exact Hrun|]. split.
  - by rewrite Hrt.
  - by rewrite Hrt.
Defined.

(** ** Catalog.ignore *)

Lemma fnmatch_star_unfold (pattern s : string) :
  fnmatch_ (String "*" pattern) s
  = fnmatch_ pattern s
    || match s with
       | String _ s' => fnmatch_ (String "*" pattern) s'
       | EmptyString => false
       end.
Proof. by destruct s. Qed.

Lemma fnmatch_literal_unfold (c : ascii) (pattern s : string) :
  Ascii.eqb c "*" = false → Ascii.eqb c "?" = false →
  fnmatch_ (String c pattern) s
  = match s with
    | String a s' => Ascii.eqb a c && fnmatch_ pattern s'
    | EmptyString => false
    end.
Proof. intros H1 H2. simpl. by rewrite H1, H2. Qed.

Lemma fnmatch_star_all (s : string) : fnmatch_ "*" s = true.
Proof.
  induction s as [|a s IH]; [done|].
  rewrite fnmatch_star_unfold. rewrite IH. apply orb_true_r.
Qed.

(** [*/c*] matches the strings in which [/c] occurs. *)
Lemma fnmatch_component (c : ascii) (s : string) :
  Ascii.eqb c "*" = false → Ascii.eqb c "?" = false →
  fnmatch_ (String "*" (String "/" (String c "*"))) s = true
  ↔ occurs_in (String "/" (String c "")) s.
Proof.
  intros H1 H2. induction s as [|a s IH]; rewrite fnmatch_star_unfold.
  - split; [done|]. intros (x & y & Hs). destruct x; discriminate.
  - rewrite orb_true_iff, IH, fnmatch_literal_unfold by done. split.
    + intros [Hhere|(x & y & ->)].
      * apply andb_prop in Hhere as [Ha Hrest]. apply Ascii.eqb_eq in Ha as ->.
        rewrite fnmatch_literal_unfold in Hrest by done.
        destruct s as [|b s]; [done|].
        apply andb_prop in Hrest as [Hb _]. apply Ascii.eqb_eq in Hb as ->.
        by exists "", s.
      * by exists (String a x), y.
    + intros (x & y & Hs). destruct x as [|a' x].
      * left. change (String a s = String "/" (String c y)) in Hs.
        injection Hs as -> ->.
        rewrite Ascii.eqb_refl, andb_true_l, fnmatch_literal_unfold by done.
        by rewrite Ascii.eqb_refl, fnmatch_star_all.
      * right. change (String a s = String a' (x ++ String "/" (String c "") ++ y)) in Hs.
        injection Hs as -> ->. by exists x, y.
Qed.

(** X18.  [ignore] hides exactly the paths in which a separator is
    followed by a dot or an underscore; so whatever lies below a hidden
    directory is hidden with it, and a leading dot with no separator before
    it does not hide a path. *)
Theorem ignore_hidden (path : string) :
  (ignore path = true ↔ occurs_in "/." path ∨ occurs_in "/_" path) ∧
  (ignore path = true → ∀ rest, ignore (path ++ rest) = true).
Proof.
  assert (∀ p, ignore p = true ↔ occurs_in "/." p ∨ occurs_in "/_" p) as Hiff.
  { intros p. rewrite <- !fnmatch_component by done. unfold ignore.
    destruct (fnmatch_ "*/.*" p); [tauto|].
    destruct (fnmatch_ "*/_*" p); intuition congruence. }
  split; [apply Hiff|]. intros Hp rest. apply Hiff. apply Hiff in Hp.
  assert (∀ m, occurs_in m path → occurs_in m (path ++ rest)) as Happ.
  { intros m (x & y & ->). exists x, (y ++ rest).
    clear. induction x as [|a x IH].
    - change ((m ++ y) ++ rest = m ++ y ++ rest).
      induction m as [|b m IHm]; [done|].
      change (String b ((m ++ y) ++ rest) = String b (m ++ y ++ rest)). by rewrite IHm.
    - change (String a ((x ++ m ++ y) ++ rest) = String a (x ++ m ++ y ++ rest)).
      by rewrite IH. }
  destruct Hp as [Hp|Hp]; [left|right]; by apply Happ.
Qed.

Lemma ignore_hidden_witness :
  ignore "/r/.git" = true ∧ ignore "/r/.git/config" = true ∧ ignore ".profile" = false.
Proof.
  destruct (ignore_hidden "/r/.git") as [_ Hbelow].
  split; [reflexivity|]. split; [|reflexivity].
  exact (Hbelow eq_refl "/config").
Defined.

(** ** Catalog.crawl_once *)

(** No index raises [OSError] from [learn]. *)
Lemma Index_learn_not_OSError (rid : Z) (value : pyobj) (index index' : Index) (e : exn) :
  Index_learn rid value index = (Raise e, index') → e ≠ OSError.
Proof.
  destruct index as [s|en|p]; unfold Index_learn.
  - unfold StringIndex.learn. destruct value as [|v|n]; try by intros [= <- _].
    destruct (fold_left _ _ _) as [[[b m] en] subs]. done.
  - unfold Enumeration.learn, bind, Enumeration.MARKER, raise, get_self, modify, ret.
    destruct value as [|v|n]; [by intros [= <- _]| |].
    + destruct (decide (PyStr v ∈ Enumeration.allowed en)); [done|by intros [= <- _]].
    + destruct (decide (PyInt n ∈ Enumeration.allowed en)); [done|by intros [= <- _]].
  - unfold Path.learn, bind, Path.inherited, StringIndex.learn, raise, modify.
    destruct value as [|v|n]; try by intros [= <- _].
    destruct (fold_left _ _ _) as [[[b m] en] subs].
    destruct (negb (String.eqb v "") && negb (startswith v os_sep)); [|done].
    by intros [= <- _].
Qed.

Lemma learn_all_not_OSError (resource_ : Catalog.resource) (rid : Z)
    (l l' : list (string * Index)) (e : exn) :
  Catalog.learn_all resource_ rid l = (Raise e, l') → e ≠ OSError.
Proof.
  revert l'. induction l as [|[name index] l IH]; intros l'; [done|]. simpl.
  destruct (Catalog.getattr resource_ name) as [value|].
  - destruct (Index_learn rid value index) as [[[]|e'] index'] eqn:Hlearn.
    + destruct (Catalog.learn_all resource_ rid l) as [[[]|e'] l1]; [done|].
      intros [= <- _]. by eapply IH.
    + intros [= <- _]. by eapply Index_learn_not_OSError.
  - destruct (Catalog.learn_all resource_ rid l) as [[[]|e'] l1]; [done|].
    intros [= <- _]. by eapply IH.
Qed.

(** The [OSError] that [crawl_once] catches comes from [os.stat]: the path
    is not there, and nothing of the three mappings is written. *)
Lemma add_update_OSError (fs : gmap string Z) (draws : list Z) (path : string)
    (c c' : Catalog.t) (draws' : list Z) :
  Catalog._add_update fs draws path c = Some (Raise OSError, c', draws') →
  fs !! path = None ∧
  Catalog.ridtimes c' = Catalog.ridtimes c ∧
  Catalog.resources c' = Catalog.resources c ∧
  Catalog.rids c' = Catalog.rids c.
Proof.
  intros Hrun.
  destruct (add_update_raise_maps _ _ _ _ _ _ _ Hrun)
    as (Hrs & Hids & [Hrt|(rid & modtime & He & _)]); [|discriminate].
  split; [|done]. revert Hrun.
  unfold Catalog._add_update, Catalog.stat_mtime.
  destruct (fs !! path) as [modtime|]; [|done]. intros Hrun. exfalso.
  destruct (Catalog.ridtimes c !! path) as [[rid oldtime]|].
  - destruct (decide (modtime ≠ oldtime)); [|done].
    destruct (Catalog.index_resource fs path rid modtime c) as [o c1] eqn:Hidx.
    injection Hrun as -> _ _.
    apply index_resource_raises in Hidx as (_ & _ & [[_ [l Hl]]|[? _]]); [|done].
    by eapply learn_all_not_OSError.
  - destruct (Catalog._generate_rid draws c) as [[[rid draws1] c1]|]; [|done].
    destruct (Catalog.index_resource fs path rid modtime c1) as [o c2] eqn:Hidx.
    injection Hrun as -> _ _.
    apply index_resource_raises in Hidx as (_ & _ & [[_ [l Hl]]|[? _]]); [|done].
    by eapply learn_all_not_OSError.
Qed.

(** The add/update loop keeps the mappings well formed, keeps the entries
    that are current, and gives a current entry to every path it walks
    that is not ignored and exists. *)
Lemma add_update_walk_current (fs : gmap string Z) (walk : list string) :
  ∀ (draws : list Z) (c c' : Catalog.t) (draws' : list Z),
    catalog_wf c →
    add_update_walk fs draws walk c = Some (Return tt, c', draws') →
    catalog_wf c' ∧
    ∀ path modtime,
      fs !! path = Some modtime →
      (path ∈ walk ∧ ignore path = false)
      ∨ (∃ rid, Catalog.ridtimes c !! path = Some (rid, modtime)) →
      ∃ rid, Catalog.ridtimes c' !! path = Some (rid, modtime).
Proof.
  induction walk as [|x walk IH]; intros draws c c' draws' Hwf Hrun.
  - injection Hrun as <- _. split; [done|].
    intros path modtime _ [[Hin _]|Hold]; [by apply elem_of_nil in Hin|done].
  - simpl in Hrun. destruct (ignore x) eqn:Hignore.
    { apply IH in Hrun as [Hwf' Hcur]; [|done]. split; [done|].
      intros path modtime Hfs [[Hin Hpath]|Hold]; apply (Hcur _ _ Hfs); [|by right].
      left. apply elem_of_cons in Hin as [->|Hin]; [congruence|done]. }
    destruct (Catalog._add_update fs draws x c) as [[[[[]|e] c1] draws1]|] eqn:Hx; [| |done].
    + pose proof (add_update_wf _ _ _ _ _ _ Hwf Hx) as Hwf1.
      apply add_update_returns in Hx as (rid & mx & Hfsx & Hentry & Hother & _).
      apply IH in Hrun as [Hwf' Hcur]; [|done]. split; [done|].
      intros path modtime Hfs Hcase. apply (Hcur _ _ Hfs).
      destruct (decide (path = x)) as [->|Hne].
      * right. exists rid. congruence.
      * destruct Hcase as [[Hin Hpath]|[r Hold]].
        -- left. apply elem_of_cons in Hin as [->|Hin]; done.
        -- right. exists r. by rewrite Hother.
    + destruct e; try discriminate Hrun.
      apply add_update_OSError in Hx as (Hgone & Hrt & Hrs & Hids).
      assert (catalog_wf c1) as Hwf1.
      { unfold catalog_wf. by rewrite Hrt, Hrs, Hids. }
      apply IH in Hrun as [Hwf' Hcur]; [|done]. split; [done|].
      intros path modtime Hfs Hcase. apply (Hcur _ _ Hfs).
      destruct Hcase as [[Hin Hpath]|[r Hold]].
      * left. apply elem_of_cons in Hin as [->|Hin]; [congruence|done].
      * right. exists r. by rewrite Hrt.
Qed.

(** X19.  When [crawl_once] completes on a reachable catalog, the
    invariant of the three mappings holds, every path of [ridtimes] exists
    on the filesystem, the root exists, and the root and every walked path
    that is not ignored and exists are in [ridtimes] with their current
    modification time. *)
Theorem crawl_once_result (fs : gmap string Z) (draws : list Z) (walk : list string)
    (c c' : Catalog.t) (draws' : list Z) :
  reachable c →
  crawl_once fs draws walk c = Some (Return tt, c', draws') →
  catalog_inv c' ∧
  (∀ path, is_Some (Catalog.ridtimes c' !! path) → is_Some (fs !! path)) ∧
  is_Some (fs !! Catalog.root c) ∧
  (∀ path modtime,
     path = Catalog.root c ∨ (path ∈ walk ∧ ignore path = false) →
     fs !! path = Some modtime →
     ∃ rid, Catalog.ridtimes c' !! path = Some (rid, modtime)).
Proof.
  intros Hwf%reachable_wf. unfold crawl_once.
  destruct (Catalog._add_update fs draws (Catalog.root c) c)
    as [[[[[]|e] c1] draws1]|] eqn:Hroot; [|done|done].
  pose proof (add_update_wf _ _ _ _ _ _ Hwf Hroot) as Hwf1.
  apply add_update_returns in Hroot as (rid & mroot & Hfsroot & Hentry & _ & _).
  destruct (add_update_walk fs draws1 walk c1) as [[[[[]|e] c2] draws2]|] eqn:Hwalk;
    [|done|done].
  apply add_update_walk_current in Hwalk as [Hwf2 Hcur]; [|done].
  destruct (Catalog.unindex fs c2) as [[[]|e] c3] eqn:Hun; [|done].
  intros [= <- <-]. pose proof (unindex_wf _ _ _ Hwf2 Hun) as Hwf3.
  apply unindex_entries in Hun as [Hrt _].
  split; [by apply maps_wf_inv|]. split; [|split; [by eexists|]].
  - intros path. rewrite Hrt. destruct (fs !! path); [by eexists|by intros [? ?]].
  - intros path modtime Hcase Hfs. rewrite Hrt, Hfs. apply (Hcur _ _ Hfs).
    destruct Hcase as [->|Hin]; [right|by left].
    exists rid. congruence.
Qed.

Lemma crawl_once_result_witness :
  ∃ c' draws',
    crawl_once (delete "/r/a.txt" example_fs) [50]
      ["/r/.hg"; "/r/a.txt"; "/r/b.txt"; "/r/c.md"] example_plain
    = Some (Return tt, c', draws') ∧
    catalog_inv c' ∧
    Catalog.ridtimes c' !! "/r/a.txt" = None ∧
    ∃ rid, Catalog.ridtimes c' !! "/r/c.md" = Some (rid, 30).
Proof.
  assert (∃ c' draws',
            crawl_once (delete "/r/a.txt" example_fs) [50]
              ["/r/.hg"; "/r/a.txt"; "/r/b.txt"; "/r/c.md"] example_plain
            = Some (Return tt, c', draws')) as (c' & draws' & Hrun)
    by (eexists _, _; by vm_compute).
  destruct (crawl_once_result _ _ _ _ _ _ example_plain_reachable Hrun)
    as (Hinv & Hexists & _ & Hcur).
  exists c', draws'. split; [exact Hrun|]. split; [exact Hinv|]. split.
  - destruct (Catalog.ridtimes c' !! "/r/a.txt") eqn:Hgone; [|done].
    destruct (Hexists "/r/a.txt") as [m Hm]; [by rewrite Hgone|].
    by vm_compute in Hm.
  - apply Hcur; [|by vm_compute]. right. split; [|by vm_compute].
    apply list_elem_of_In. simpl. tauto.
Defined.

(** ** Collection: limit, __len__ and __iter__ *)

(** A limit the setter stores is at least 1. *)
Lemma set_limit_positive (value : pyobj) (n : Z) :
  set_limit value = Return (Some n) → 1 ≤ n.
Proof.
  unfold set_limit. destruct value as [|s|v]; [done| |].
  - destruct (isdigit s); [|done]. destruct (int s <? 1) eqn:Hlt; [done|].
    intros [= <-]. lia.
  - destruct (v <? 1) eqn:Hlt; [done|]. intros [= <-]. lia.
Qed.

Lemma sorted_rids_length (data : ridset) : length (sorted_rids data) = size data.
Proof. unfold sorted_rids. by rewrite merge_sort_Permutation. Qed.

Lemma sorted_rids_elem (data : ridset) (rid : Z) : rid ∈ sorted_rids data ↔ rid ∈ data.
Proof. unfold sorted_rids. by rewrite merge_sort_Permutation, elem_of_elements. Qed.

Lemma iter_rids_limited (resources : gmap Z Catalog.resource) (n : Z) (rids : list Z) :
  ∀ i, i ≤ n →
    Forall (λ rid, is_Some (resources !! rid)) rids →
    ∃ yielded,
      iter_rids resources (Some n) rids i = (yielded, Return tt) ∧
      Some <$> yielded = (resources !!.) <$> take (Z.to_nat (n - i)) rids.
Proof.
  induction rids as [|rid rids IH]; intros i Hi Hall.
  - exists []. by rewrite take_nil.
  - cbn [iter_rids]. destruct (decide (Some i = Some n)) as [[= ->]|Hne].
    + exists []. by replace (n - n) with 0 by lia.
    + apply Forall_cons in Hall as [[r Hr] Hall]. rewrite Hr.
      destruct (IH (i + 1)) as (yielded & -> & Hy); [|done|].
      { assert (i ≠ n) by congruence. lia. }
      exists (r :: yielded). split; [done|].
      replace (Z.to_nat (n - i)) with (S (Z.to_nat (n - (i + 1)))).
      * by rewrite firstn_cons, !fmap_cons, Hr, Hy.
      * assert (i ≠ n) by congruence. lia.
Qed.

Lemma iter_rids_unlimited (resources : gmap Z Catalog.resource) (rids : list Z) :
  ∀ i,
    Forall (λ rid, is_Some (resources !! rid)) rids →
    ∃ yielded,
      iter_rids resources None rids i = (yielded, Return tt) ∧
      Some <$> yielded = (resources !!.) <$> rids.
Proof.
  induction rids as [|rid rids IH]; intros i Hall.
  - by exists [].
  - cbn [iter_rids]. apply Forall_cons in Hall as [[r Hr] Hall]. rewrite Hr.
    destruct (IH (i + 1)) as (yielded & -> & Hy); [done|].
    exists (r :: yielded). split; [done|]. by rewrite !fmap_cons, Hr, Hy.
Qed.

(** X20.  For a loaded collection whose rids all have a resource, with a
    limit the setter accepted and no sort: iterating yields the resources of
    the smallest rids in increasing order, as many as [__len__] returns,
    which is the limit or the size of the data, whichever is less; neither
    call changes the collection. *)
Theorem Collection_iter_len (catalog : Catalog.t) (value : pyobj) (limit : option Z)
    (self : Collection.t) (data : ridset) :
  set_limit value = Return limit →
  Collection.data self = Some data →
  data ⊆ dom (Catalog.resources catalog) →
  ∃ yielded,
    Collection_iter catalog limit self = (Return (yielded, Return tt), self) ∧
    Collection_len catalog limit self = (Return (Z.of_nat (length yielded)), self) ∧
    Some <$> yielded
    = (Catalog.resources catalog !!.) <$> take (length yielded) (sorted_rids data) ∧
    length yielded = match limit with
                     | Some n => (Z.to_nat n `min` size data)%nat
                     | None => size data
                     end.
Proof.
  intros Hlimit Hdata Hsub.
  assert (Forall (λ rid, is_Some (Catalog.resources catalog !! rid)) (sorted_rids data))
    as Hall.
  { apply Forall_forall. intros rid Hrid%sorted_rids_elem. apply elem_of_dom. set_solver. }
  unfold Collection_iter, Collection_len, bind, loaded, ret. rewrite Hdata.
  destruct limit as [n|].
  - apply set_limit_positive in Hlimit.
    destruct (iter_rids_limited (Catalog.resources catalog) n (sorted_rids data) 0)
      as (yielded & -> & Hy); [lia|done|].
    replace (n - 0) with n in Hy by lia.
    assert (length yielded = (Z.to_nat n `min` size data)%nat) as Hlen.
    { apply (f_equal length) in Hy.
      by rewrite !length_fmap, length_take, sorted_rids_length in Hy. }
    exists yielded. split; [done|]. split; [|split; [|done]].
    + f_equal. f_equal. rewrite Hlen.
      destruct (n =? 0) eqn:H0; [lia|]. simpl.
      destruct (Z.of_nat (size data) >? n) eqn:Hgt; lia.
    + rewrite Hy, Hlen. f_equal. rewrite <- sorted_rids_length.
      destruct (Nat.min_spec (Z.to_nat n) (length (sorted_rids data))) as [[_ ->]|[? ->]];
        [done|].
      by rewrite firstn_all, take_ge by lia.
  - destruct (iter_rids_unlimited (Catalog.resources catalog) (sorted_rids data) 0)
      as (yielded & -> & Hy); [done|].
    assert (length yielded = size data) as Hlen.
    { apply (f_equal length) in Hy.
      by rewrite !length_fmap, sorted_rids_length in Hy. }
    exists yielded. split; [done|]. split; [by rewrite Hlen|]. split; [|done].
    by rewrite Hy, Hlen, <- sorted_rids_length, firstn_all.
Qed.

Lemma Collection_iter_len_witness :
  ∃ yielded,
    Collection_iter example_plain (Some 1)
      {| Collection.data := Some (Catalog.rids example_plain);
         Collection.constraints := [] |}
    = (Return (yielded, Return tt),
       {| Collection.data := Some (Catalog.rids example_plain);
          Collection.constraints := [] |}) ∧
    length yielded = 1%nat.
Proof.
  destruct (Collection_iter_len example_plain (PyStr "1") (Some 1)
              {| Collection.data := Some (Catalog.rids example_plain);
                 Collection.constraints := [] |}
              (Catalog.rids example_plain) eq_refl eq_refl)
    as (yielded & Hiter & _ & _ & Hlen).
  - intros rid Hrid. vm_compute in Hrid. vm_compute.
    revert rid Hrid. by vm_compute.
  - exists yielded. split; [exact Hiter|]. rewrite Hlen. by vm_compute.
Defined.

Lemma iter_rids_missing (resources : gmap Z Catalog.resource) (rid : Z) (rids : list Z) :
  StronglySorted Z.le rids → NoDup rids → rid ∈ rids →
  resources !! rid = None →
  (∀ r, r ∈ rids → r < rid → is_Some (resources !! r)) →
  ∀ i, ∃ yielded,
    iter_rids resources None rids i = (yielded, Raise KeyError) ∧
    Some <$> yielded = (resources !!.) <$> filter (λ r, r < rid) rids.
Proof.
  intros Hsorted Hnodup Hin Hnone.
  induction rids as [|r rids IH]; intros Hsm i; [by apply elem_of_nil in Hin|].
  apply NoDup_cons in Hnodup as [Hfresh Hnodup].
  apply StronglySorted_inv in Hsorted as [Hsorted Hle].
  cbn [iter_rids]. destruct (decide (Some i = None)) as [|_]; [done|].
  destruct (decide (r = rid)) as [->|Hne].
  - rewrite Hnone. exists []. split; [done|].
    rewrite filter_cons_False by lia.
    assert (filter (λ x, x < rid) rids = []) as ->; [|done].
    clear -Hle. induction Hle as [|x l Hx _ IHl]; [done|].
    by rewrite filter_cons_False by lia.
  - apply elem_of_cons in Hin as [->|Hin]; [done|].
    rewrite Forall_forall in Hle. pose proof (Hle rid Hin).
    destruct (Hsm r) as [res Hres]; [by left|lia|]. rewrite Hres.
    destruct (IH Hsorted Hnodup Hin) with (i := i + 1) as (yielded & -> & Hy).
    { intros x Hx. apply Hsm. by right. }
    exists (res :: yielded). split; [done|].
    rewrite filter_cons_True by lia. by rewrite !fmap_cons, Hres, Hy.
Qed.

(** X21.  With no limit, a rid of the data that has no resource ends the
    iteration with [KeyError], after the resources of the smaller rids have
    been yielded. *)
Theorem Collection_iter_missing (catalog : Catalog.t) (self : Collection.t)
    (data : ridset) (rid : Z) :
  Collection.data self = Some data →
  rid ∈ data →
  Catalog.resources catalog !! rid = None →
  (∀ r, r ∈ data → r < rid → is_Some (Catalog.resources catalog !! r)) →
  ∃ yielded,
    Collection_iter catalog None self = (Return (yielded, Raise KeyError), self) ∧
    Some <$> yielded
    = (Catalog.resources catalog !!.) <$> filter (λ r, r < rid) (sorted_rids data).
Proof.
  intros Hdata Hrid Hnone Hsmaller.
  unfold Collection_iter, bind, loaded, ret. rewrite Hdata.
  destruct (iter_rids_missing (Catalog.resources catalog) rid (sorted_rids data))
    with (i := 0) as (yielded & -> & Hy).
  - apply (Sorted_StronglySorted _), (Sorted_merge_sort Z.le).
  - unfold sorted_rids. rewrite merge_sort_Permutation. apply NoDup_elements.
  - by apply sorted_rids_elem.
  - done.
  - intros r Hr%sorted_rids_elem. by apply Hsmaller.
  - by exists yielded.
Qed.

Lemma Collection_iter_missing_witness :
  ∃ yielded,
    Collection_iter example_plain None
      {| Collection.data := Some {[7; 8; 9]}; Collection.constraints := [] |}
    = (Return (yielded, Raise KeyError),
       {| Collection.data := Some {[7; 8; 9]}; Collection.constraints := [] |}) ∧
    length yielded = 2%nat.
Proof.
  destruct (Collection_iter_missing example_plain
              {| Collection.data := Some {[7; 8; 9]}; Collection.constraints := [] |}
              {[7; 8; 9]} 9 eq_refl) as (yielded & Hiter & Hy).
  - set_solver.
  - by vm_compute.
  - intros r Hr Hlt.
    apply elem_of_union in Hr as [[Hr|Hr]%elem_of_union|Hr];
      apply elem_of_singleton in Hr; subst r; [| |lia]; vm_compute; by eexists.
  - exists yielded. split; [exact Hiter|].
    apply (f_equal length) in Hy. rewrite !length_fmap in Hy. rewrite Hy. by vm_compute.
Defined.

(** ** Collection: constraints *)

Section Constraints.
Variable attributes : Index → string → option Collection.method.
Variable catalog : Catalog.t.

Lemma special_not_reserved (search : string) :
  (if String.eqb search "is" then "is_"
   else if String.eqb search "in" then "in_" else search) ≠ "is" ∧
  (if String.eqb search "is" then "is_"
   else if String.eqb search "in" then "in_" else search) ≠ "in".
Proof.
  destruct (String.eqb search "is") eqn:His; [done|].
  destruct (String.eqb search "in") eqn:Hin; [done|].
  apply String.eqb_neq in His, Hin. done.
Qed.

(** X22.  A constraint resolves only when it has two or three words; then
    its first word names an installed index, the search is its second word,
    with [is] and [in] read as [is_] and [in_], and is an attribute of that
    index, the argument is its third word if there is one, and the call is
    that attribute, bound to the index of that name.  A constraint of one
    word never resolves. *)
Theorem Collection_resolve_spec (constraint : string)
    (q : Collection.query) (c : option Collection.call * option string) :
  Collection.resolve attributes catalog constraint = Return (q, c) →
  ∃ index_name word index f,
    split_ws (Some 2%nat) constraint !! 0%nat = Some index_name ∧
    split_ws (Some 2%nat) constraint !! 1%nat = Some word ∧
    (length (split_ws (Some 2%nat) constraint) ≤ 3)%nat ∧
    let search_name :=
      if String.eqb word "is" then "is_"
      else if String.eqb word "in" then "in_" else word in
    let arg := split_ws (Some 2%nat) constraint !! 2%nat in
    q = (Some index_name, Some search_name, arg) ∧
    c = (Some (Collection.mkcall index_name f), arg) ∧
    Collection.catalog_index catalog index_name = Some index ∧
    attributes index search_name = Some f ∧
    search_name ≠ "is" ∧ search_name ≠ "in".
Proof.
  unfold Collection.resolve, Collection.parse, obind, Collection.validate.
  destruct (split_ws (Some 2%nat) constraint) as [|w1 [|w2 [|w3 [|w4 ws]]]]; try done.
  - destruct (Collection.catalog_index catalog w1); done.
  - destruct (Collection.catalog_index catalog w1) as [index|] eqn:Hindex; [|done].
    destruct (attributes index _) as [f|] eqn:Hf; [|done].
    intros [= <- <-]. exists w1, w2, index, f.
    destruct (special_not_reserved w2) as [? ?].
    split; [done|]. split; [done|]. split; [simpl; lia|]. by cbv zeta.
  - destruct (Collection.catalog_index catalog w1) as [index|] eqn:Hindex; [|done].
    destruct (attributes index _) as [f|] eqn:Hf; [|done].
    intros [= <- <-]. exists w1, w2, index, f.
    destruct (special_not_reserved w2) as [? ?].
    split; [done|]. split; [done|]. split; [simpl; lia|]. by cbv zeta.
Qed.

Lemma append_last_spec (cs : list (list Collection.term)) (x : Collection.term) cs' :
  Collection.append_last cs x = Some cs' →
  ∃ groupings last,
    cs = (groupings ++ [last])%list ∧ cs' = (groupings ++ [(last ++ [x])%list])%list.
Proof.
  revert cs'. induction cs as [|g cs IH]; intros cs'; [done|].
  destruct cs as [|g' cs].
  - intros [= <-]. by exists [], g.
  - change (Collection.append_last (g :: g' :: cs) x)
      with (cons g <$> Collection.append_last (g' :: cs) x).
    destruct (Collection.append_last (g' :: cs) x) as [cs1|]; [|done].
    intros [= <-]. destruct (IH cs1 eq_refl) as (groupings & last & -> & ->).
    by exists (g :: groupings), last.
Qed.

Lemma constrain_spec (op : Collection.operation) (constraint : string)
    (self self' : Collection.t) (o : outcome unit) :
  Collection.constrain attributes op catalog constraint self = (o, self') →
  Collection.data self' = Collection.data self ∧
  match o with
  | Raise _ => self' = self
  | Return _ =>
      ∃ groupings last q c,
        Collection.resolve attributes catalog constraint = Return (q, c) ∧
        Collection.constraints self = (groupings ++ [last])%list ∧
        Collection.constraints self'
        = (groupings ++ [(last ++ [(Some op, q, c)])%list])%list
  end.
Proof.
  unfold Collection.constrain.
  destruct (Collection.resolve attributes catalog constraint) as [[q c]|e]; [|by intros [= <- <-]].
  destruct (Collection.append_last _ _) as [cs|] eqn:Happ; [|by intros [= <- <-]].
  intros [= <- <-]. split; [done|].
  apply append_last_spec in Happ as (groupings & last & Hcs & ->).
  by exists groupings, last, q, c.
Qed.

Lemma OR_spec (constraint : string) (self self' : Collection.t) (o : outcome unit) :
  Collection.OR attributes catalog constraint self = (o, self') →
  Collection.data self' = Collection.data self ∧
  match o with
  | Raise _ => self' = self
  | Return _ =>
      ∃ q c,
        Collection.constraints self'
        = (Collection.constraints self ++ [[(None, q, c)]])%list ∧
        if String.eqb constraint ""
        then c = (None, None)
        else Collection.resolve attributes catalog constraint = Return (q, c)
  end.
Proof.
  unfold Collection.OR. destruct (String.eqb constraint "").
  - intros [= <- <-]. split; [done|]. by eexists _, _.
  - destruct (Collection.resolve attributes catalog constraint) as [[q c]|e];
      intros [= <- <-]; [|done].
    split; [done|]. by exists q, c.
Qed.

(** X23.  [AND] and [NOT] add one term, carrying [intersection] or
    [difference], at the end of the last grouping, and [OR] adds one
    grouping of one term after the others ([OR('')] one that stands for
    every rid); the terms already there stay as they are, a call that
    raises leaves the collection unchanged, and none of the three touches
    the loaded data. *)
Theorem Collection_builders (constraint : string) (self self' : Collection.t)
    (o : outcome unit) :
  (Collection.AND attributes catalog constraint self = (o, self') →
   Collection.data self' = Collection.data self ∧
   match o with
   | Raise _ => self' = self
   | Return _ =>
       ∃ groupings last q c,
         Collection.resolve attributes catalog constraint = Return (q, c) ∧
         Collection.constraints self = (groupings ++ [last])%list ∧
         Collection.constraints self'
         = (groupings ++ [(last ++ [(Some Collection.Intersection, q, c)])%list])%list
   end) ∧
  (Collection.NOT attributes catalog constraint self = (o, self') →
   Collection.data self' = Collection.data self ∧
   match o with
   | Raise _ => self' = self
   | Return _ =>
       ∃ groupings last q c,
         Collection.resolve attributes catalog constraint = Return (q, c) ∧
         Collection.constraints self = (groupings ++ [last])%list ∧
         Collection.constraints self'
         = (groupings ++ [(last ++ [(Some Collection.Difference, q, c)])%list])%list
   end) ∧
  (Collection.OR attributes catalog constraint self = (o, self') →
   Collection.data self' = Collection.data self ∧
   match o with
   | Raise _ => self' = self
   | Return _ =>
       ∃ q c,
         Collection.constraints self'
         = (Collection.constraints self ++ [[(None, q, c)]])%list ∧
         if String.eqb constraint ""
         then c = (None, None)
         else Collection.resolve attributes catalog constraint = Return (q, c)
   end).
Proof.
  split; [apply constrain_spec|]. split; [apply constrain_spec|apply OR_spec].
Qed.

(** X24.  Once a collection is loaded, [AND], [NOT] and [OR] do not change
    what [__len__] returns, whether they return or raise: the data is not
    loaded again. *)
Theorem Collection_loaded_stays (constraint : string) (self self' : Collection.t)
    (data : ridset) (o : outcome unit) (limit : option Z) :
  Collection.data self = Some data →
  Collection.AND attributes catalog constraint self = (o, self')
  ∨ Collection.NOT attributes catalog constraint self = (o, self')
  ∨ Collection.OR attributes catalog constraint self = (o, self') →
  ∀ later : Catalog.t,
    (Collection_len later limit self').1 = (Collection_len catalog limit self).1 ∧
    (Collection_iter later limit self').1
    = Return (iter_rids (Catalog.resources later) limit (sorted_rids data) 0).
Proof.
  intros Hdata Hcall later.
  assert (Collection.data self' = Some data) as Hdata'.
  { rewrite <- Hdata.
    unfold Collection.AND, Collection.NOT in Hcall.
    destruct Hcall as [H|[H|H]];
      [apply constrain_spec in H|apply constrain_spec in H|apply OR_spec in H];
      by destruct H. }
  unfold Collection_len, Collection_iter, bind, loaded, ret.
  by rewrite Hdata, Hdata'.
Qed.

End Constraints.

Lemma Collection_resolve_spec_witness :
  ∃ index,
    Collection.resolve search_methods example_empty "name is a.txt"
    = Return ((Some "name", Some "is_", Some "a.txt"),
              (Some (Collection.mkcall "name" (String_method StringIndex.is_)),
               Some "a.txt")) ∧
    Collection.catalog_index example_empty "name" = Some index ∧
    search_methods index "is_" = Some (String_method StringIndex.is_).
Proof.
  assert (Collection.resolve search_methods example_empty "name is a.txt"
          = Return ((Some "name", Some "is_", Some "a.txt"),
                    (Some (Collection.mkcall "name" (String_method StringIndex.is_)),
                     Some "a.txt"))) as Hrun by reflexivity.
  destruct (Collection_resolve_spec _ _ _ _ _ Hrun)
    as (index_name & word & index & f & H0 & H1 & _ & _ & Hc & Hindex & Hf & _).
  injection H0 as <-. injection H1 as <-. injection Hc as <-.
  by exists index.
Defined.

Lemma Collection_loaded_stays_witness :
  ∃ self',
    Collection.AND search_methods example_empty "name endswith md"
      {| Collection.data := Some {[1]}; Collection.constraints := [[]] |}
    = (Return tt, self') ∧
    (Collection_len example_empty None self').1 = Return 1.
Proof.
  assert (∃ self',
            Collection.AND search_methods example_empty "name endswith md"
              {| Collection.data := Some {[1]}; Collection.constraints := [[]] |}
            = (Return tt, self')) as [self' Hrun] by (eexists; by vm_compute).
  exists self'. split; [exact Hrun|].
  destruct (Collection_loaded_stays search_methods example_empty
              "name endswith md"
              {| Collection.data := Some {[1]}; Collection.constraints := [[]] |}
              self' {[1]} (Return tt) None eq_refl (or_introl Hrun) example_empty)
    as [-> _].
  by vm_compute.
Defined.

(** ** Collection.refresh on the collections the methods build *)

Lemma resolve_call (attributes : Index → string → option Collection.method)
    (catalog : Catalog.t) (constraint : string) q c :
  Collection.resolve attributes catalog constraint = Return (q, c) → is_Some c.1.
Proof.
  unfold Collection.resolve, Collection.parse, obind, Collection.validate.
  destruct (split_ws (Some 2%nat) constraint) as [|w1 [|w2 [|w3 [|w4 ws]]]]; try done;
    destruct (Collection.catalog_index catalog w1) as [index|]; try done;
    destruct (attributes index _) as [f|]; try done;
    intros [= <- <-]; by eexists.
Qed.

Lemma well_grouped_snoc (grouping : list Collection.term) (t : Collection.term) :
  well_grouped grouping → is_Some t.1.1 → is_Some t.2.1 →
  well_grouped (grouping ++ [t]).
Proof.
  intros (q & call & rest & -> & Hrest) Hop Hcall.
  exists q, call, (rest ++ [t])%list. split; [done|].
  apply Forall_app. split; [done|]. by apply Forall_singleton.
Qed.

Lemma built_well_grouped (attributes : Index → string → option Collection.method)
    (self : Collection.t) :
  built attributes self → Forall well_grouped (Collection.constraints self).
Proof.
  induction 1 as [catalog constraint self Hinit
                 |catalog constraint self o self' _ IH Hrun
                 |catalog constraint self o self' _ IH Hrun
                 |catalog constraint self o self' _ IH Hrun
                 |catalog self o self' _ IH Hrun].
  - unfold Collection.init, obind in Hinit.
    destruct (match constraint with Some _ => _ | None => _ end) as [qc|e]; [|done].
    injection Hinit as <-. apply Forall_singleton.
    by exists qc.1, qc.2, [].
  - apply constrain_spec in Hrun as [_ Hcase]. destruct o as [[]|e]; [|by subst].
    destruct Hcase as (groupings & last & q & c & Hres & Hcs & ->).
    rewrite Hcs in IH. apply Forall_app in IH as [Hfirst Hlast%Forall_inv].
    apply Forall_app. split; [done|]. apply Forall_singleton.
    apply well_grouped_snoc; [done|by eexists|]. by eapply resolve_call.
  - apply constrain_spec in Hrun as [_ Hcase]. destruct o as [[]|e]; [|by subst].
    destruct Hcase as (groupings & last & q & c & Hres & Hcs & ->).
    rewrite Hcs in IH. apply Forall_app in IH as [Hfirst Hlast%Forall_inv].
    apply Forall_app. split; [done|]. apply Forall_singleton.
    apply well_grouped_snoc; [done|by eexists|]. by eapply resolve_call.
  - apply OR_spec in Hrun as [_ Hcase]. destruct o as [[]|e]; [|by subst].
    destruct Hcase as (q & c & -> & _).
    apply Forall_app. split; [done|]. apply Forall_singleton. by exists q, c, [].
  - unfold Collection.refresh in Hrun.
    destruct (Collection.refresh_groupings _ _ _ _); by injection Hrun as _ <-.
Qed.

(** The terms after the first: a result stays bound, and an exception is
    one a call raised. *)
Lemma refresh_rest_safe (catalog : Catalog.t) (rest : list Collection.term) :
  Forall (λ t : Collection.term, is_Some t.1.1 ∧ is_Some t.2.1) rest →
  ∀ result,
    match Collection.refresh_grouping catalog rest (Some result) with
    | Return r => is_Some r
    | Raise e =>
        ∃ op q c arg, (op, q, (Some c, arg)) ∈ rest ∧
                      Collection.run catalog c arg = Raise e
    end.
Proof.
  induction 1 as [|[[op q] [call arg]] rest [[o Ho] [c Hc]] _ IH]; intros result;
    [by eexists|].
  simpl in Ho, Hc. subst op call.
  cbn [Collection.refresh_grouping]. unfold obind at 1. unfold obind at 1.
  destruct (Collection.run catalog c arg) as [r|e] eqn:Hrun.
  - specialize (IH (Collection.apply_operation o result r)).
    destruct (Collection.refresh_grouping catalog rest _) as [r'|e]; [done|].
    destruct IH as (op' & q' & c' & arg' & Hin & Hraise).
    exists op', q', c', arg'. split; [by right|done].
  - exists (Some o), q, c, arg. split; [by left|done].
Qed.

Lemma refresh_grouping_safe (catalog : Catalog.t) (grouping : list Collection.term)
    (result : option (option ridset)) :
  well_grouped grouping →
  match Collection.refresh_grouping catalog grouping result with
  | Return r => is_Some r
  | Raise e =>
      ∃ op q c arg, (op, q, (Some c, arg)) ∈ grouping ∧
                    Collection.run catalog c arg = Raise e
  end.
Proof.
  intros (q & [call arg] & rest & -> & Hrest).
  cbn [Collection.refresh_grouping]. unfold obind at 1.
  destruct call as [c|].
  - destruct (Collection.run catalog c arg) as [r|e] eqn:Hrun.
    + pose proof (refresh_rest_safe catalog rest Hrest r) as Hsafe.
      destruct (Collection.refresh_grouping catalog rest _) as [r'|e]; [done|].
      destruct Hsafe as (op' & q' & c' & arg' & Hin & Hraise).
      exists op', q', c', arg'. split; [by right|done].
    + exists None, q, c, arg. split; [by left|done].
  - pose proof (refresh_rest_safe catalog rest Hrest (Some (Catalog.rids catalog))) as Hsafe.
    destruct (Collection.refresh_grouping catalog rest _) as [r'|e]; [done|].
    destruct Hsafe as (op' & q' & c' & arg' & Hin & Hraise).
    exists op', q', c', arg'. split; [by right|done].
Qed.

Lemma refresh_groupings_safe (catalog : Catalog.t) (cs : list (list Collection.term)) :
  Forall well_grouped cs →
  ∀ result results e,
    Collection.refresh_groupings catalog cs result results = Raise e →
    ∃ grouping op q c arg,
      grouping ∈ cs ∧ (op, q, (Some c, arg)) ∈ grouping ∧
      Collection.run catalog c arg = Raise e.
Proof.
  induction 1 as [|grouping cs Hg _ IH]; intros result results e; [done|].
  cbn [Collection.refresh_groupings]. unfold obind.
  pose proof (refresh_grouping_safe catalog grouping result Hg) as Hsafe.
  destruct (Collection.refresh_grouping catalog grouping result) as [r|e'].
  - destruct Hsafe as [[set|] ->]; intros Hrun; apply IH in Hrun;
      destruct Hrun as (g & op & q & c & arg & Hin & Hterm & Hraise);
      exists g, op, q, c, arg; (split; [by right|done]).
  - intros [= ->]. destruct Hsafe as (op & q & c & arg & Hterm & Hraise).
    exists grouping, op, q, c, arg. split; [by left|done].
Qed.

(** X25.  On a collection built by the constructor and by [AND], [NOT] and
    [OR], [refresh] raises only what the call of one of its terms raises on
    the catalog at hand: its assertion never fails and [result] is never
    read unbound.  When it raises, the collection is unchanged. *)
Theorem Collection_refresh_safe (attributes : Index → string → option Collection.method)
    (catalog : Catalog.t) (self self' : Collection.t) (e : exn) :
  built attributes self →
  Collection.refresh catalog self = (Raise e, self') →
  self' = self ∧
  ∃ grouping op q c arg,
    grouping ∈ Collection.constraints self ∧
    (op, q, (Some c, arg)) ∈ grouping ∧
    Collection.run catalog c arg = Raise e.
Proof.
  intros Hwf%built_well_grouped. unfold Collection.refresh.
  destruct (Collection.refresh_groupings catalog _ None []) as [results|e'] eqn:Hrun;
    [done|].
  intros [= -> <-]. split; [done|]. by eapply refresh_groupings_safe.
Qed.

Lemma Collection_refresh_safe_witness :
  ∃ self,
    Collection.init search_methods example_empty (Some "name startswith") = Return self ∧
    Collection.refresh example_empty self = (Raise AttributeError, self) ∧
    Collection.run example_empty
      (Collection.mkcall "name" (String_method StringIndex.startswith)) None
    = Raise AttributeError.
Proof.
  eexists. split; [reflexivity|].
  match goal with
  | |- Collection.refresh ?c ?s = _ ∧ _ =>
      assert (Collection.refresh c s = (Raise AttributeError, s)) as Hrun by reflexivity;
      destruct (Collection_refresh_safe search_methods c s s AttributeError
                  (built_init search_methods c (Some "name startswith") s eq_refl) Hrun)
        as (_ & grouping & op & q & call & arg & Hg & Hterm & Hraise)
  end.
  split; [exact Hrun|].
  apply list_elem_of_singleton in Hg. subst grouping.
  apply list_elem_of_singleton in Hterm. injection Hterm as _ _ <- <-.
  exact Hraise.
Defined.
